(** * hindsight: binary log, replayer, stack-trace builder, RTTI decoder

    A shallow embedding of the crash snapshot engine of hindsight
    (Hindsight::Checksum, Hindsight::BinaryLog, Hindsight::Debugger) and the
    properties of its specification that can be settled on it. *)

From Stdlib Require Import ZArith List Lia Bool Strings.Byte.
From Stdlib Require Strings.String Strings.Ascii.
From stdpp Require Import base option list gmap strings.

Local Open Scope Z_scope.

(** ** Bytes and packed little-endian fields *)

Module Bytes.

Abbreviation byte := Byte.byte.

Definition byte_to_Z (b : byte) : Z := Z.of_N (Byte.to_N b).

(** Conversion to [uint8_t]: the value modulo 256. *)
Definition Z_to_byte (z : Z) : byte :=
  match Byte.of_N (Z.to_N (z mod 256)) with
  | Some b => b
  | None => Byte.x00
  end.

(** A [w]-byte unsigned field as it lies in memory (x86: low byte first). *)
Fixpoint le_encode (w : nat) (v : Z) : list byte :=
  match w with
  | O => []
  | S w' => Z_to_byte v :: le_encode w' (Z.shiftr v 8)
  end.

Fixpoint le_decode (bs : list byte) : Z :=
  match bs with
  | [] => 0
  | b :: bs' => byte_to_Z b + 256 * le_decode bs'
  end.

(** Reading a signed 64-bit field ([int64_t], [time_t]). *)
Definition to_int64 (v : Z) : Z :=
  if v <? 2 ^ 63 then v else v - 2 ^ 64.

Definition bool_to_Z (b : bool) : Z := if b then 1 else 0.

(** [std::string] as bytes; [std::wstring] as 16-bit code units, each unit
    kept as its two bytes (low, high), which is how [wchar_t] lies in the
    file. *)
Abbreviation cstring := (list byte).
Definition wchar : Type := byte * byte.
Abbreviation wstring := (list wchar).

Definition wstring_bytes (s : wstring) : list byte :=
  flat_map (fun c => [fst c; snd c]) s.

Fixpoint bytes_wstring (bs : list byte) : wstring :=
  match bs with
  | lo :: hi :: bs' => (lo, hi) :: bytes_wstring bs'
  | _ => []
  end.

#[export] Instance byte_eq_dec : EqDecision byte.
Proof.
  intros x y. destruct (N.eq_dec (Byte.to_N x) (Byte.to_N y)) as [e|n].
  - left. apply (f_equal Byte.of_N) in e.
    rewrite !Byte.of_to_N in e. congruence.
  - right. congruence.
Defined.

#[export] Instance byte_countable : Countable byte :=
  inj_countable Byte.to_N Byte.of_N Byte.of_to_N.

Definition ascii_bytes (s : String.string) : list byte :=
  String.list_byte_of_string s.

(** A wide literal [L"..."] of ASCII characters. *)
Definition wide (s : String.string) : wstring :=
  map (fun b => (b, Byte.x00)) (ascii_bytes s).

End Bytes.
Import Bytes.

(** ** crc32.hpp *)

Module Crc32.

Definition polynomial_default : Z := 0xEDB88320.

(** The inner loop of the [LookupTable] constructor, [j] rounds left. *)
Fixpoint table_rounds (polynomial : Z) (j : nat) (c : Z) : Z :=
  match j with
  | O => c
  | S j' =>
      table_rounds polynomial j'
        (if Z.testbit c 0
         then Z.lxor polynomial (Z.shiftr c 1)
         else Z.shiftr c 1)
  end.

Definition LookupTable (polynomial : Z) : list Z :=
  map (fun i => table_rounds polynomial 8 (Z.of_nat i)) (seq 0 256).

Definition Default : list Z :=
  Eval vm_compute in LookupTable polynomial_default.

Definition step (table : list Z) (c : Z) (u : byte) : Z :=
  Z.lxor (nth (Z.to_nat (Z.land (Z.lxor c (byte_to_Z u)) 0xFF)) table 0)
         (Z.shiftr c 8).

Definition Update_table (buf : list byte) (table : list Z) (initial : Z) : Z :=
  Z.lxor (fold_left (step table) buf (Z.lxor initial 0xFFFFFFFF)) 0xFFFFFFFF.

Definition Update (buf : list byte) (initial : Z) : Z :=
  Update_table buf Default initial.

(** The values of a [uint32_t]. *)
Definition u32 (c : Z) : Prop := 0 <= c < 2 ^ 32.

(** The table index one step looks up, and the top byte of a table
    entry: the top bytes of the 256 entries are pairwise distinct, which
    makes a step invertible. *)
Definition index (c : Z) (u : byte) : nat :=
  Z.to_nat (Z.land (Z.lxor c (byte_to_Z u)) 0xFF).

Definition top_byte (i : nat) : Z := Z.shiftr (nth i Default 0) 24.

End Crc32.

(** ** Windows SDK types and constants used by the repository *)

Module Windows.

(** Modelled from the spec: the debug-event codes of minwinbase.h, which the
    repository uses by name only; section 6.1 of the specification lists
    their values. *)
Definition EXCEPTION_DEBUG_EVENT : Z := 1.
Definition CREATE_THREAD_DEBUG_EVENT : Z := 2.
Definition CREATE_PROCESS_DEBUG_EVENT : Z := 3.
Definition EXIT_THREAD_DEBUG_EVENT : Z := 4.
Definition EXIT_PROCESS_DEBUG_EVENT : Z := 5.
Definition LOAD_DLL_DEBUG_EVENT : Z := 6.
Definition UNLOAD_DLL_DEBUG_EVENT : Z := 7.
Definition OUTPUT_DEBUG_STRING_EVENT : Z := 8.
Definition RIP_EVENT : Z := 9.

(** [size_t] is 64 bits wide (the build is [_WIN64]). *)
Definition SIZE_MAX : Z := 2 ^ 64 - 1.

(** The sizes of the two register files, [CONTEXT] and [WOW64_CONTEXT] of
    winnt.h, the message table of the system and the values of the
    exception codes are not part of the repository: they are parameters of
    the model. *)
Class Platform := {
  sizeof_CONTEXT : nat;
  sizeof_WOW64_CONTEXT : nat;
  (** [FormatMessageW] for a system error code, as [Error::GetErrorMessageW]
      calls it *)
  FormatMessageW : Z -> list (byte * byte);
  (** the table [Debugger::ExceptionNames], whose keys are constants of
      winnt.h *)
  ExceptionNames : list (Z * list (byte * byte))
}.

Record PROCESS_INFORMATION := {
  hProcess : Z;
  hThread : Z;
  dwProcessId : Z;
  dwThreadId : Z
}.

(** Of the debug-event payloads only the members the repository reads or
    writes are kept. *)
Record EXCEPTION_RECORD := {
  ExceptionCode : Z;
  ExceptionAddress : Z;
  ExceptionInformation : list Z
}.

Record EXCEPTION_DEBUG_INFO := {
  ExceptionRecord : EXCEPTION_RECORD;
  dwFirstChance : Z
}.

Record CREATE_PROCESS_DEBUG_INFO := {
  cp_hProcess : Z;
  cp_hThread : Z;
  lpBaseOfImage : Z
}.

Record CREATE_THREAD_DEBUG_INFO := { lpStartAddress : Z }.
Record EXIT_PROCESS_DEBUG_INFO := { ep_dwExitCode : Z }.
Record EXIT_THREAD_DEBUG_INFO := { et_dwExitCode : Z }.
Record LOAD_DLL_DEBUG_INFO := { ld_lpBaseOfDll : Z }.
Record UNLOAD_DLL_DEBUG_INFO := { ud_lpBaseOfDll : Z }.
Record OUTPUT_DEBUG_STRING_INFO := { fUnicode : Z; nDebugStringLength : Z }.
Record RIP_INFO := { dwError : Z; dwType : Z }.

End Windows.
Import Windows.

(** ** Version.hpp *)

Module Version.
Definition hindsight_version_major : Z := 0.
Definition hindsight_version_minor : Z := 6.
Definition hindsight_version_revision : Z := 2.
Definition hindsight_version_build : Z := 0.
Definition hindsight_version_int : Z :=
  Z.lor (Z.lor (Z.lor (Z.shiftl hindsight_version_major 24)
                      (Z.shiftl hindsight_version_minor 16))
               (Z.shiftl hindsight_version_revision 8))
        hindsight_version_build.
End Version.

(** ** Packed structs ([#pragma pack(push, 1)])

    A packed struct is its fields one after the other, without padding: a
    layout lists the members in declaration order with their sizes in bytes. *)

Module Packed.

Definition Layout : Type := list (String.string * nat).

Definition sizeof (l : Layout) : nat := sum_list (map snd l).

Fixpoint offsetof (l : Layout) (name : String.string) : nat :=
  match l with
  | [] => 0
  | (n, w) :: l' =>
      if String.eqb n name then 0 else w + offsetof l' name
  end%nat.

Fixpoint widthof (l : Layout) (name : String.string) : nat :=
  match l with
  | [] => 0
  | (n, w) :: l' =>
      if String.eqb n name then w else widthof l' name
  end%nat.

(** The object representation of a struct whose members hold [vs]. *)
Fixpoint encode (l : Layout) (vs : list Z) : list byte :=
  match l with
  | [] => []
  | (_, w) :: l' =>
      le_encode w (hd 0 vs) ++ encode l' (tl vs)
  end.

(** Reading member [name] out of the object representation [bs]. *)
Definition get (l : Layout) (bs : list byte) (name : String.string) : Z :=
  le_decode (take (widthof l name) (drop (offsetof l name) bs)).

Definition chars (l : Layout) (bs : list byte) (name : String.string) : list byte :=
  take (widthof l name) (drop (offsetof l name) bs).

(** The value member [name] holds in a struct whose members hold [vs]. *)
Fixpoint value (l : Layout) (vs : list Z) (name : String.string) : Z :=
  match l with
  | [] => 0
  | (n, w) :: l' =>
      if String.eqb n name then hd 0 vs else value l' (tl vs) name
  end.

End Packed.

(** ** BinaryLogFile.hpp and BinaryLogFile.cpp *)

Module BinaryLog.
Import Packed.
Local Open Scope string_scope.
Local Open Scope list_scope.

Module FileHeader.
Record t := {
  Signature : list byte;
  Version : Z;
  ProcessId : Z;
  ThreadId : Z;
  PathLength : Z;
  WorkingDirectoryLength : Z;
  Arguments : Z;
  StartTime : Z;
  Crc32 : Z
}.
Definition layout : Layout :=
  [("Signature", 4); ("Version", 4); ("ProcessId", 4); ("ThreadId", 4);
   ("PathLength", 8); ("WorkingDirectoryLength", 8); ("Arguments", 8);
   ("StartTime", 8); ("Crc32", 4)]%nat.
Definition fields (h : t) : list Z :=
  [le_decode (Signature h); Version h; ProcessId h; ThreadId h; PathLength h;
   WorkingDirectoryLength h; Arguments h; StartTime h; Crc32 h].
Definition bytes (h : t) : list byte := encode layout (fields h).
Definition of_bytes (bs : list byte) : t := {|
  Signature := chars layout bs "Signature";
  Version := get layout bs "Version";
  ProcessId := get layout bs "ProcessId";
  ThreadId := get layout bs "ThreadId";
  PathLength := get layout bs "PathLength";
  WorkingDirectoryLength := get layout bs "WorkingDirectoryLength";
  Arguments := get layout bs "Arguments";
  StartTime := to_int64 (get layout bs "StartTime");
  Crc32 := get layout bs "Crc32"
|}.
(** The member initializers of the struct; the other members are set by
    [OnInitialization] before the header is first written. *)
Definition init : t := {|
  Signature := ascii_bytes "HIND";
  Version := Version.hindsight_version_int;
  ProcessId := 0; ThreadId := 0; PathLength := 0;
  WorkingDirectoryLength := 0; Arguments := 0; StartTime := 0; Crc32 := 0
|}.
End FileHeader.

Module EventEntryProcessInformation.
Record t := {
  hProcess : Z;
  hThread : Z;
  dwProcessId : Z;
  dwThreadId : Z
}.
Definition layout : Layout :=
  [("hProcess", 8); ("hThread", 8); ("dwProcessId", 4); ("dwThreadId", 4)]%nat.
Definition fields (p : t) : list Z :=
  [hProcess p; hThread p; dwProcessId p; dwThreadId p].
Definition of_PROCESS_INFORMATION (pi : PROCESS_INFORMATION) : t := {|
  hProcess := Windows.hProcess pi;
  hThread := Windows.hThread pi;
  dwProcessId := Windows.dwProcessId pi;
  dwThreadId := Windows.dwThreadId pi
|}.
Definition to_PROCESS_INFORMATION (p : t) : PROCESS_INFORMATION := {|
  Windows.hProcess := hProcess p;
  Windows.hThread := hThread p;
  Windows.dwProcessId := dwProcessId p;
  Windows.dwThreadId := dwThreadId p
|}.
End EventEntryProcessInformation.

Module EventEntry.
Record t := {
  Signature : list byte;
  Time : Z;
  EventId : Z;
  Size : Z;
  ProcessInformation : EventEntryProcessInformation.t
}.
Definition layout : Layout :=
  [("Signature", 4); ("Time", 8); ("EventId", 4); ("Size", 8)]%nat
  ++ EventEntryProcessInformation.layout.
Definition fields (e : t) : list Z :=
  [le_decode (Signature e); Time e; EventId e; Size e]
  ++ EventEntryProcessInformation.fields (ProcessInformation e).
Definition bytes (e : t) : list byte := encode layout (fields e).
Definition of_bytes_with (l : Layout) (bs : list byte) : t := {|
  Signature := chars l bs "Signature";
  Time := to_int64 (get l bs "Time");
  EventId := get l bs "EventId";
  Size := get l bs "Size";
  ProcessInformation := {|
    EventEntryProcessInformation.hProcess := get l bs "hProcess";
    EventEntryProcessInformation.hThread := get l bs "hThread";
    EventEntryProcessInformation.dwProcessId := get l bs "dwProcessId";
    EventEntryProcessInformation.dwThreadId := get l bs "dwThreadId"
  |}
|}.
Definition of_bytes : list byte -> t := of_bytes_with layout.
(** [EventEntry(pi, eventId, size)]; [now] is the reading of the system
    clock the constructor takes. *)
Definition make (now : Z) (pi : PROCESS_INFORMATION) (eventId : Z) (size : nat) : t := {|
  Signature := ascii_bytes "EVNT";
  Time := now;
  EventId := eventId;
  Size := Z.of_nat size;
  ProcessInformation := EventEntryProcessInformation.of_PROCESS_INFORMATION pi
|}.
End EventEntry.

Module ExceptionEventEntry.
Record t := {
  base : EventEntry.t;
  EventAddress : Z;
  EventOffset : Z;
  ModuleIndex : Z;
  EventCode : Z;
  Wow64 : Z;
  IsBreakpoint : Z;
  IsFirstChance : Z
}.
Definition layout : Layout :=
  EventEntry.layout ++
  [("EventAddress", 8); ("EventOffset", 8); ("ModuleIndex", 8);
   ("EventCode", 4); ("Wow64", 1); ("IsBreakpoint", 1); ("IsFirstChance", 1)]%nat.
Definition fields (e : t) : list Z :=
  EventEntry.fields (base e) ++
  [EventAddress e; EventOffset e; ModuleIndex e; EventCode e; Wow64 e;
   IsBreakpoint e; IsFirstChance e].
Definition bytes (e : t) : list byte := encode layout (fields e).
Definition of_bytes (bs : list byte) : t := {|
  base := EventEntry.of_bytes_with layout bs;
  EventAddress := get layout bs "EventAddress";
  EventOffset := get layout bs "EventOffset";
  ModuleIndex := to_int64 (get layout bs "ModuleIndex");
  EventCode := get layout bs "EventCode";
  Wow64 := get layout bs "Wow64";
  IsBreakpoint := get layout bs "IsBreakpoint";
  IsFirstChance := get layout bs "IsFirstChance"
|}.
Definition make (now : Z) (pi : PROCESS_INFORMATION) (addr code : Z)
    (iswow64 breakpoint firstChance : bool) : t := {|
  base := EventEntry.make now pi EXCEPTION_DEBUG_EVENT (sizeof layout);
  EventAddress := addr;
  EventOffset := 0;
  ModuleIndex := 0;
  EventCode := code;
  Wow64 := bool_to_Z iswow64;
  IsBreakpoint := bool_to_Z breakpoint;
  IsFirstChance := bool_to_Z firstChance
|}.
End ExceptionEventEntry.

Module CreateProcessEventEntry.
Record t := {
  base : EventEntry.t;
  PathLength : Z;
  ModuleBase : Z;
  ModuleSize : Z
}.
Definition layout : Layout :=
  EventEntry.layout ++
  [("PathLength", 8); ("ModuleBase", 8); ("ModuleSize", 8)]%nat.
Definition fields (e : t) : list Z :=
  EventEntry.fields (base e) ++ [PathLength e; ModuleBase e; ModuleSize e].
Definition bytes (e : t) : list byte := encode layout (fields e).
Definition of_bytes (bs : list byte) : t := {|
  base := EventEntry.of_bytes_with layout bs;
  PathLength := get layout bs "PathLength";
  ModuleBase := get layout bs "ModuleBase";
  ModuleSize := get layout bs "ModuleSize"
|}.
Definition make (now : Z) (pi : PROCESS_INFORMATION) (path : wstring)
    (base_ size : Z) : t := {|
  base := EventEntry.make now pi CREATE_PROCESS_DEBUG_EVENT (sizeof layout);
  PathLength := Z.of_nat (length path);
  ModuleBase := base_;
  ModuleSize := size
|}.
End CreateProcessEventEntry.

Module CreateThreadEventEntry.
Record t := {
  base : EventEntry.t;
  EntryPointAddress : Z;
  ModuleIndex : Z;
  EntryPointOffset : Z
}.
Definition layout : Layout :=
  EventEntry.layout ++
  [("EntryPointAddress", 8); ("ModuleIndex", 8); ("EntryPointOffset", 8)]%nat.
Definition fields (e : t) : list Z :=
  EventEntry.fields (base e) ++
  [EntryPointAddress e; ModuleIndex e; EntryPointOffset e].
Definition bytes (e : t) : list byte := encode layout (fields e).
Definition of_bytes (bs : list byte) : t := {|
  base := EventEntry.of_bytes_with layout bs;
  EntryPointAddress := get layout bs "EntryPointAddress";
  ModuleIndex := to_int64 (get layout bs "ModuleIndex");
  EntryPointOffset := get layout bs "EntryPointOffset"
|}.
Definition make (now : Z) (pi : PROCESS_INFORMATION) (entryPoint : Z) : t := {|
  base := EventEntry.make now pi CREATE_THREAD_DEBUG_EVENT (sizeof layout);
  EntryPointAddress := entryPoint;
  ModuleIndex := 0;
  EntryPointOffset := 0
|}.
End CreateThreadEventEntry.

Module ExitProcessEventEntry.
Record t := { base : EventEntry.t; ExitCode : Z }.
Definition layout : Layout := EventEntry.layout ++ [("ExitCode", 4)]%nat.
Definition fields (e : t) : list Z := EventEntry.fields (base e) ++ [ExitCode e].
Definition bytes (e : t) : list byte := encode layout (fields e).
Definition of_bytes (bs : list byte) : t := {|
  base := EventEntry.of_bytes_with layout bs;
  ExitCode := get layout bs "ExitCode"
|}.
Definition make (now : Z) (pi : PROCESS_INFORMATION) (exitCode : Z) : t := {|
  base := EventEntry.make now pi EXIT_PROCESS_DEBUG_EVENT (sizeof layout);
  ExitCode := exitCode
|}.
End ExitProcessEventEntry.

Module ExitThreadEventEntry.
Record t := { base : EventEntry.t; ExitCode : Z }.
Definition layout : Layout := EventEntry.layout ++ [("ExitCode", 4)]%nat.
Definition fields (e : t) : list Z := EventEntry.fields (base e) ++ [ExitCode e].
Definition bytes (e : t) : list byte := encode layout (fields e).
Definition of_bytes (bs : list byte) : t := {|
  base := EventEntry.of_bytes_with layout bs;
  ExitCode := get layout bs "ExitCode"
|}.
Definition make (now : Z) (pi : PROCESS_INFORMATION) (exitCode : Z) : t := {|
  base := EventEntry.make now pi EXIT_THREAD_DEBUG_EVENT (sizeof layout);
  ExitCode := exitCode
|}.
End ExitThreadEventEntry.

Module DllLoadEventEntry.
Record t := {
  base : EventEntry.t;
  ModuleIndex : Z;
  ModuleBase : Z;
  ModuleSize : Z;
  ModulePathSize : Z
}.
Definition layout : Layout :=
  EventEntry.layout ++
  [("ModuleIndex", 8); ("ModuleBase", 8); ("ModuleSize", 8);
   ("ModulePathSize", 8)]%nat.
Definition fields (e : t) : list Z :=
  EventEntry.fields (base e) ++
  [ModuleIndex e; ModuleBase e; ModuleSize e; ModulePathSize e].
Definition bytes (e : t) : list byte := encode layout (fields e).
Definition of_bytes (bs : list byte) : t := {|
  base := EventEntry.of_bytes_with layout bs;
  ModuleIndex := to_int64 (get layout bs "ModuleIndex");
  ModuleBase := get layout bs "ModuleBase";
  ModuleSize := get layout bs "ModuleSize";
  ModulePathSize := get layout bs "ModulePathSize"
|}.
Definition make (now : Z) (pi : PROCESS_INFORMATION)
    (index base_ size pathSize : Z) : t := {|
  base := EventEntry.make now pi LOAD_DLL_DEBUG_EVENT (sizeof layout);
  ModuleIndex := index;
  ModuleBase := base_;
  ModuleSize := size;
  ModulePathSize := pathSize
|}.
End DllLoadEventEntry.

Module DebugStringEventEntry.
Record t := { base : EventEntry.t; IsUnicode : Z; Length : Z }.
Definition layout : Layout :=
  EventEntry.layout ++ [("IsUnicode", 1); ("Length", 8)]%nat.
Definition fields (e : t) : list Z :=
  EventEntry.fields (base e) ++ [IsUnicode e; Length e].
Definition bytes (e : t) : list byte := encode layout (fields e).
Definition of_bytes (bs : list byte) : t := {|
  base := EventEntry.of_bytes_with layout bs;
  IsUnicode := get layout bs "IsUnicode";
  Length := get layout bs "Length"
|}.
Definition make (now : Z) (pi : PROCESS_INFORMATION) (unicode length : Z) : t := {|
  base := EventEntry.make now pi OUTPUT_DEBUG_STRING_EVENT (sizeof layout);
  IsUnicode := unicode;
  Length := length
|}.
End DebugStringEventEntry.

Module RipEventEntry.
Record t := { base : EventEntry.t; Type_ : Z; Error : Z }.
Definition layout : Layout :=
  EventEntry.layout ++ [("Type", 4); ("Error", 4)]%nat.
Definition fields (e : t) : list Z :=
  EventEntry.fields (base e) ++ [Type_ e; Error e].
Definition bytes (e : t) : list byte := encode layout (fields e).
Definition of_bytes (bs : list byte) : t := {|
  base := EventEntry.of_bytes_with layout bs;
  Type_ := get layout bs "Type";
  Error := get layout bs "Error"
|}.
Definition make (now : Z) (pi : PROCESS_INFORMATION) (type error : Z) : t := {|
  base := EventEntry.make now pi RIP_EVENT (sizeof layout);
  Type_ := type;
  Error := error
|}.
End RipEventEntry.

Module DllUnloadEventEntry.
Record t := { base : EventEntry.t; ModuleBase : Z }.
Definition layout : Layout := EventEntry.layout ++ [("ModuleBase", 8)]%nat.
Definition fields (e : t) : list Z := EventEntry.fields (base e) ++ [ModuleBase e].
Definition bytes (e : t) : list byte := encode layout (fields e).
Definition of_bytes (bs : list byte) : t := {|
  base := EventEntry.of_bytes_with layout bs;
  ModuleBase := get layout bs "ModuleBase"
|}.
Definition make (now : Z) (pi : PROCESS_INFORMATION) (base_ : Z) : t := {|
  base := EventEntry.make now pi UNLOAD_DLL_DEBUG_EVENT (sizeof layout);
  ModuleBase := base_
|}.
End DllUnloadEventEntry.

Module StackTrace.
Record t := {
  Signature : list byte;
  MaxRecursion : Z;
  MaxInstructions : Z;
  TraceEntries : Z
}.
Definition layout : Layout :=
  [("Signature", 4); ("MaxRecursion", 8); ("MaxInstructions", 8);
   ("TraceEntries", 8)]%nat.
Definition fields (s : t) : list Z :=
  [le_decode (Signature s); MaxRecursion s; MaxInstructions s; TraceEntries s].
Definition bytes (s : t) : list byte := encode layout (fields s).
Definition of_bytes (bs : list byte) : t := {|
  Signature := chars layout bs "Signature";
  MaxRecursion := get layout bs "MaxRecursion";
  MaxInstructions := get layout bs "MaxInstructions";
  TraceEntries := get layout bs "TraceEntries"
|}.
Definition make (recursion instructions entries : Z) : t := {|
  Signature := ascii_bytes "STCK";
  MaxRecursion := recursion;
  MaxInstructions := instructions;
  TraceEntries := entries
|}.
End StackTrace.

Module StackTraceEntry.
Record t := {
  ModuleIndex : Z;
  ModuleBase : Z;
  Address : Z;
  AbsoluteAddress : Z;
  AbsoluteLineAddress : Z;
  LineAddress : Z;
  NameSymbolLength : Z;
  PathLength : Z;
  LineNumber : Z;
  IsRecursion : Z;
  RecursionCount : Z;
  InstructionCount : Z
}.
Definition layout : Layout :=
  [("ModuleIndex", 8); ("ModuleBase", 8); ("Address", 8);
   ("AbsoluteAddress", 8); ("AbsoluteLineAddress", 8); ("LineAddress", 8);
   ("NameSymbolLength", 8); ("PathLength", 8); ("LineNumber", 8);
   ("IsRecursion", 1); ("RecursionCount", 8); ("InstructionCount", 8)]%nat.
Definition fields (e : t) : list Z :=
  [ModuleIndex e; ModuleBase e; Address e; AbsoluteAddress e;
   AbsoluteLineAddress e; LineAddress e; NameSymbolLength e; PathLength e;
   LineNumber e; IsRecursion e; RecursionCount e; InstructionCount e].
Definition bytes (e : t) : list byte := encode layout (fields e).
Definition of_bytes (bs : list byte) : t := {|
  ModuleIndex := to_int64 (get layout bs "ModuleIndex");
  ModuleBase := get layout bs "ModuleBase";
  Address := get layout bs "Address";
  AbsoluteAddress := get layout bs "AbsoluteAddress";
  AbsoluteLineAddress := get layout bs "AbsoluteLineAddress";
  LineAddress := get layout bs "LineAddress";
  NameSymbolLength := get layout bs "NameSymbolLength";
  PathLength := get layout bs "PathLength";
  LineNumber := get layout bs "LineNumber";
  IsRecursion := get layout bs "IsRecursion";
  RecursionCount := get layout bs "RecursionCount";
  InstructionCount := get layout bs "InstructionCount"
|}.
End StackTraceEntry.

Module StackTraceEntryInstruction.
Record t := {
  Is64BitAddress : Z;
  Offset : Z;
  Size : Z;
  HexSize : Z;
  MnemonicSize : Z;
  OperandsSize : Z
}.
Definition layout : Layout :=
  [("Is64BitAddress", 1); ("Offset", 8); ("Size", 8); ("HexSize", 8);
   ("MnemonicSize", 8); ("OperandsSize", 8)]%nat.
Definition fields (i : t) : list Z :=
  [Is64BitAddress i; Offset i; Size i; HexSize i; MnemonicSize i; OperandsSize i].
Definition bytes (i : t) : list byte := encode layout (fields i).
Definition of_bytes (bs : list byte) : t := {|
  Is64BitAddress := get layout bs "Is64BitAddress";
  Offset := get layout bs "Offset";
  Size := get layout bs "Size";
  HexSize := get layout bs "HexSize";
  MnemonicSize := get layout bs "MnemonicSize";
  OperandsSize := get layout bs "OperandsSize"
|}.
End StackTraceEntryInstruction.

(** The structs of the replayer: a packed head with the strings and
    children that follow it in the file. *)
Record StackTraceEntryInstructionConcrete := {
  sic_head : StackTraceEntryInstruction.t;
  Hex : cstring;
  Mnemonic : cstring;
  Operands : cstring
}.

Record StackTraceEntryConcrete := {
  sec_head : StackTraceEntry.t;
  Name : cstring;
  Path : wstring;
  Instructions : list StackTraceEntryInstructionConcrete
}.

Record StackTraceConcrete := {
  stc_head : StackTrace.t;
  Entries : list StackTraceEntryConcrete
}.

End BinaryLog.

(** ** ModuleCollection.hpp and ModuleCollection.cpp *)

Module Modules.

(** [struct Module]; pointers into the debuggee are numbers. *)
Record Module_ := {
  Base : Z;
  Size : Z;
  Path : wstring
}.

(** [Module()]: the default member initializers. *)
Definition Module_default : Module_ := {| Base := 0; Size := 0; Path := [] |}.

(** [addr >= Base && addr < ((uint8_t* )Base + Size)]: the end of the range
    is a pointer of the 64-bit build, the sum modulo 2^64. *)
Definition ContainsAddress (m : Module_) (addr : Z) : bool :=
  (Base m <=? addr) && (addr <? (Base m + Size m) mod 2 ^ 64).

Record ModuleCollection := {
  m_Modules : list wstring;
  m_ModuleHandleMap : gmap wstring (gset Z);
  m_ModuleMap : gmap Z Module_;
  m_ModuleIndexMap : gmap wstring nat
}.

Definition empty : ModuleCollection := {|
  m_Modules := [];
  m_ModuleHandleMap := ∅;
  m_ModuleMap := ∅;
  m_ModuleIndexMap := ∅
|}.

(** The conversion [(int)] of a [size_t]. *)
Definition to_int (v : Z) : Z :=
  let m := v mod 2 ^ 32 in if m <? 2 ^ 31 then m else m - 2 ^ 32.

Definition Contains (mc : ModuleCollection) (path : wstring) : bool :=
  bool_decide (is_Some (m_ModuleIndexMap mc !! path)).

Definition Active_path (mc : ModuleCollection) (path : wstring) : bool :=
  match m_ModuleHandleMap mc !! path with
  | Some s => negb (bool_decide (size s = 0%nat))
  | None => false
  end.

Definition Active (mc : ModuleCollection) (moduleHandle : Z) : bool :=
  bool_decide (is_Some (m_ModuleMap mc !! moduleHandle)).

(** [Load(path, moduleHandle, size)]. [try_emplace] leaves an entry that is
    already there as it is; [m_ModuleHandleMap[path]] creates the set when
    the path has none. *)
Definition Load (mc : ModuleCollection) (path : wstring) (moduleHandle size : Z)
    : ModuleCollection :=
  let seen := Contains mc path in
  let modules := if seen then m_Modules mc else m_Modules mc ++ [path] in
  let index :=
    if seen then m_ModuleIndexMap mc
    else <[path := (length modules - 1)%nat]> (m_ModuleIndexMap mc) in
  {| m_Modules := modules;
     m_ModuleIndexMap := index;
     m_ModuleMap :=
       match m_ModuleMap mc !! moduleHandle with
       | Some _ => m_ModuleMap mc
       | None =>
           <[moduleHandle := {| Base := moduleHandle; Size := size; Path := path |}]>
             (m_ModuleMap mc)
       end;
     m_ModuleHandleMap :=
       <[path := {[moduleHandle]} ∪ default ∅ (m_ModuleHandleMap mc !! path)]>
         (m_ModuleHandleMap mc) |}.

(** [Unload(moduleHandle)]. The source reaches the set of the path with
    [at], which throws for a path without a set; on a collection built by
    [Load] every active module's path has one (see [wf] below), so [alter]
    is the same update. *)
Definition Unload (mc : ModuleCollection) (moduleHandle : Z) : ModuleCollection :=
  match m_ModuleMap mc !! moduleHandle with
  | None => mc
  | Some m =>
      {| m_Modules := m_Modules mc;
         m_ModuleIndexMap := m_ModuleIndexMap mc;
         m_ModuleHandleMap :=
           alter (fun s => s ∖ {[moduleHandle]}) (Path m) (m_ModuleHandleMap mc);
         m_ModuleMap := delete moduleHandle (m_ModuleMap mc) |}
  end.

(** [Get(ModulePointer)] *)
Definition Get (mc : ModuleCollection) (moduleHandle : Z) : wstring :=
  match m_ModuleMap mc !! moduleHandle with
  | Some m => Path m
  | None => []
  end.

(** [Get(const std::wstring&)] *)
Definition Get_path (mc : ModuleCollection) (path : wstring) : gset Z :=
  if Active_path mc path then default ∅ (m_ModuleHandleMap mc !! path) else ∅.

(** [GetIndex(const std::wstring&)] *)
Definition GetIndex_path (mc : ModuleCollection) (path : wstring) : Z :=
  match m_ModuleIndexMap mc !! path with
  | Some i => to_int (Z.of_nat i)
  | None => -1
  end.

(** [GetIndex(ModulePointer)] *)
Definition GetIndex (mc : ModuleCollection) (moduleHandle : Z) : Z :=
  match m_ModuleMap mc !! moduleHandle with
  | Some m =>
      match m_ModuleIndexMap mc !! Path m with
      | Some i => to_int (Z.of_nat i)
      | None => -1
      end
  | None => -1
  end.

(** [GetModuleAtAddress]: the loop runs over [m_ModuleMap] in the order of
    a [std::map], by ascending base address, and returns the first module
    that contains the address: the one with the least base. *)
Definition least_base (kv : Z * Module_) (acc : option (Z * Module_)) : option (Z * Module_) :=
  match acc with
  | Some kv' => if kv.1 <? kv'.1 then Some kv else acc
  | None => Some kv
  end.

Definition GetModuleAtAddress (mc : ModuleCollection) (address : Z) : option Module_ :=
  snd <$> foldr least_base None
    (filter (fun kv => ContainsAddress kv.2 address = true)
            (map_to_list (m_ModuleMap mc))).

Definition GetModules (mc : ModuleCollection) : list wstring := m_Modules mc.

(** The collections the program has: the empty one of the default
    constructor, changed by [Load] and [Unload] only. *)
Inductive built : ModuleCollection -> Prop :=
| built_empty : built empty
| built_Load mc path moduleHandle size :
    built mc -> built (Load mc path moduleHandle size)
| built_Unload mc moduleHandle :
    built mc -> built (Unload mc moduleHandle).

(** What the four members have to do with each other: an active module
    is kept under its own base, its path has an index and a set of handles
    with the base in it, and the index of a path is its place in the list
    of the paths seen. *)
Definition wf (mc : ModuleCollection) : Prop :=
  (forall h m, m_ModuleMap mc !! h = Some m ->
     Base m = h /\
     is_Some (m_ModuleIndexMap mc !! Path m) /\
     exists s, m_ModuleHandleMap mc !! Path m = Some s /\ h ∈ s) /\
  (forall path i, m_ModuleIndexMap mc !! path = Some i -> m_Modules mc !! i = Some path).

End Modules.
Import Modules.

(** ** Process.hpp: the debugged process as the sinks see it *)

Module Process.
Record Process := {
  hProcess : Z;
  hThread : Z;
  dwProcessId : Z;
  dwThreadId : Z;
  Path : cstring;
  WorkingDirectory : cstring;
  Arguments : list cstring
}.

(** [Process(pi, path, workingDirectory, args)] *)
Definition make (pi : PROCESS_INFORMATION) (path workingDirectory : cstring)
    (args : list cstring) : Process := {|
  hProcess := Windows.hProcess pi;
  hThread := Windows.hThread pi;
  dwProcessId := Windows.dwProcessId pi;
  dwThreadId := Windows.dwThreadId pi;
  Path := path;
  WorkingDirectory := workingDirectory;
  Arguments := args
|}.
End Process.

(** ** DebugContext.hpp and DebugContext.cpp *)

Module Context.
Section WithPlatform.
Context `{Platform}.

(** The class holds the flag [IsWow64] and a union of the two register
    files; [X] is the storage of the union, of which [Get64] and [Get86]
    are the two views. *)
Record DebugContext := {
  IsWow64 : bool;
  X : list byte;
  hProcess : Z;
  hThread : Z
}.

Definition Is64 (c : DebugContext) : bool := negb (IsWow64 c).
Definition Get64 (c : DebugContext) : list byte := resize sizeof_CONTEXT Byte.x00 (X c).
Definition Get86 (c : DebugContext) : list byte := resize sizeof_WOW64_CONTEXT Byte.x00 (X c).

(** [DebugContext(const PROCESS_INFORMATION&, const CONTEXT&)] *)
Definition of_CONTEXT (pi : PROCESS_INFORMATION) (ctx : list byte) : DebugContext := {|
  IsWow64 := false;
  X := ctx;
  hProcess := Windows.hProcess pi;
  hThread := Windows.hThread pi
|}.

(** [DebugContext(const PROCESS_INFORMATION&, const WOW64_CONTEXT&)] *)
Definition of_WOW64_CONTEXT (pi : PROCESS_INFORMATION) (ctx : list byte) : DebugContext := {|
  IsWow64 := true;
  X := ctx;
  hProcess := Windows.hProcess pi;
  hThread := Windows.hThread pi
|}.
End WithPlatform.
End Context.
Import Context.

(** ** DebugStackTrace.hpp and DebugStackTrace.cpp *)

Module Trace.

Record DebugStackTraceInstruction := {
  Is64BitAddress : bool;
  Offset : Z;
  Size : Z;
  InstructionHex : cstring;
  InstructionMnemonic : cstring;
  Operands : cstring
}.

Record DebugStackTraceEntry := {
  Module : Module_;
  ModuleBase : Z;
  Address : Z;
  AbsoluteAddress : Z;
  AbsoluteLineAddress : Z;
  LineAddress : Z;
  Name : cstring;
  File : wstring;
  Line : Z;
  Recursion : bool;
  RecursionCount : Z;
  Instructions : list DebugStackTraceInstruction
}.


(** What the class keeps of a trace, apart from the context and the module
    collection it was built from. *)
Record DebugStackTrace := {
  m_Trace : list DebugStackTraceEntry;
  m_MaxRecursion : Z;
  m_MaxInstruction : Z
}.

Definition size (t : DebugStackTrace) : Z := Z.of_nat (length (m_Trace t)).
Definition list_ (t : DebugStackTrace) : list DebugStackTraceEntry := m_Trace t.
Definition GetMaxRecursion (t : DebugStackTrace) : Z := m_MaxRecursion t.
Definition GetMaxInstructions (t : DebugStackTrace) : Z := m_MaxInstruction t.

(** *** The services of DbgHelp and diStorm the walk relies on *)

(** One frame as [StackWalk64] leaves it in the [STACKFRAME64]. *)
Record STACKFRAME64 := {
  AddrPC : Z;
  AddrReturn : Z;
  AddrFrame : Z;
  AddrStack : Z
}.

Record SYMBOL_INFO := {
  si_Address : Z;
  si_ModBase : Z;
  si_Size : Z;
  si_NameLen : Z;
  si_Name : cstring
}.

(** The buffer [symbol] of [AddFrame] before [SymFromAddr] fills it. *)
Definition SYMBOL_INFO_zero : SYMBOL_INFO := {|
  si_Address := 0; si_ModBase := 0; si_Size := 0; si_NameLen := 0; si_Name := []
|}.

Record IMAGEHLP_LINEW64 := {
  il_Address : Z;
  il_FileName : wstring;
  il_LineNumber : Z
}.

Record DecodedInst := {
  di_offset : Z;
  di_size : Z;
  di_instructionHex : cstring;
  di_mnemonic : cstring;
  di_operands : cstring
}.

(** The symbol service, the remote memory and the instruction decoder are
    outside the repository; the walk is parametric in them. *)
Class Services := {
  (** [SymFromAddr]: the displacement and the symbol, when it succeeds *)
  SymFromAddr : Z -> option (Z * SYMBOL_INFO);
  (** [SymGetLineFromAddrW64]: the displacement and the line *)
  SymGetLineFromAddrW64 : Z -> option (Z * IMAGEHLP_LINEW64);
  (** [ReadProcessMemory address size]: success, and the bytes read *)
  ReadProcessMemory : Z -> Z -> bool * list byte;
  (** [distorm_decode offset code is64 maxInstructions]: the decoded
      instructions, [instructionCount] of them *)
  distorm_decode : Z -> list byte -> bool -> Z -> list DecodedInst
}.

Section Walk.
Context `{Services}.
(** The members of the trace under construction. *)
Variable m_Modules : ModuleCollection.
Variable is64 : bool.
Variable m_MaxRecursion_ : Z.
Variable m_MaxInstruction_ : Z.

Definition wrap64 (v : Z) : Z := v mod 2 ^ 64.

(** [DisassembleFrame]: the instructions appended to the entry. *)
Definition DisassembleFrame (frame : STACKFRAME64) (symbol : SYMBOL_INFO)
    (entry : DebugStackTraceEntry) : DebugStackTraceEntry :=
  let symbolSize := if si_Size symbol =? 0 then 30 else si_Size symbol in
  let '(ok, code) := ReadProcessMemory (AddrPC frame) symbolSize in
  if negb ok && (length code =? 0)%nat then entry
  else
    let instructions := distorm_decode (AddrPC frame) code is64 m_MaxInstruction_ in
    {| Module := Module entry; ModuleBase := ModuleBase entry;
       Address := Address entry; AbsoluteAddress := AbsoluteAddress entry;
       AbsoluteLineAddress := AbsoluteLineAddress entry;
       LineAddress := LineAddress entry;
       Name := Name entry; File := File entry; Line := Line entry;
       Recursion := Recursion entry; RecursionCount := RecursionCount entry;
       Instructions :=
         Instructions entry ++
         map (fun i => {| Is64BitAddress := is64;
                          Offset := di_offset i;
                          Size := di_size i;
                          InstructionHex := di_instructionHex i;
                          InstructionMnemonic := di_mnemonic i;
                          Operands := di_operands i |}) instructions |}.

(** The entry [AddFrame] appends to the trace for [frame]. *)
Definition frame_entry (frame : STACKFRAME64) : DebugStackTraceEntry :=
  let address := AddrPC frame in
  let e0 :=
    {| Module := Module_default; ModuleBase := 0;
       Address := address; AbsoluteAddress := 0;
       AbsoluteLineAddress := 0; LineAddress := 0;
       Name := []; File := []; Line := 0;
       Recursion := false; RecursionCount := 0; Instructions := [] |} in
  let '(symbol, e1) :=
    match SymFromAddr address with
    | Some (dwSymbolDisplacement, pSymbol) =>
        let module := GetModuleAtAddress m_Modules (si_Address pSymbol) in
        (pSymbol,
         {| Module := default Module_default module;
            ModuleBase :=
              match module with
              | Some m => if si_ModBase pSymbol =? 0 then Base m else si_ModBase pSymbol
              | None => si_ModBase pSymbol
              end;
            Address := address;
            AbsoluteAddress := wrap64 (address + dwSymbolDisplacement);
            AbsoluteLineAddress := 0; LineAddress := 0;
            Name := if si_NameLen pSymbol =? 0 then []
                    else take (Z.to_nat (si_NameLen pSymbol)) (si_Name pSymbol);
            File := []; Line := 0;
            Recursion := false; RecursionCount := 0; Instructions := [] |})
    | None => (SYMBOL_INFO_zero, e0)
    end in
  let e2 := if m_MaxInstruction_ =? 0 then e1 else DisassembleFrame frame symbol e1 in
  match SymGetLineFromAddrW64 (AddrPC frame) with
  | Some (dwLineDisplacement, line) =>
      {| Module := Module e2; ModuleBase := ModuleBase e2;
         Address := Address e2; AbsoluteAddress := AbsoluteAddress e2;
         AbsoluteLineAddress := wrap64 (AddrPC frame + dwLineDisplacement);
         LineAddress := il_Address line;
         Name := Name e2;
         File := il_FileName line;
         Line := il_LineNumber line;
         Recursion := Recursion e2; RecursionCount := RecursionCount e2;
         Instructions := Instructions e2 |}
  | None => e2
  end.

Definition AddFrame (trace : list DebugStackTraceEntry) (frame : STACKFRAME64)
    : list DebugStackTraceEntry :=
  trace ++ [frame_entry frame].

(** The marker entry of [AddRecursion]. *)
Definition recursion_entry (backlog : list STACKFRAME64) : DebugStackTraceEntry :=
  {| Module := Module_default; ModuleBase := 0; Address := 0;
     AbsoluteAddress := 0; AbsoluteLineAddress := 0; LineAddress := 0;
     Name := []; File := []; Line := 0;
     Recursion := true;
     RecursionCount := Z.of_nat (length backlog);
     Instructions := [] |}.

(** [AddRecursion]: the marker, then the last frame of the backlog.  The
    source calls [backlog.back()], which needs a backlog that is not
    empty; [Walk] only calls it so. *)
Definition AddRecursion (trace : list DebugStackTraceEntry)
    (backlog : list STACKFRAME64) : list DebugStackTraceEntry :=
  match last backlog with
  | Some f => AddFrame (trace ++ [recursion_entry backlog]) f
  | None => trace ++ [recursion_entry backlog]
  end.

(** The loop of [Walk]. [frames] are the frames [StackWalk64] yields, in
    order, before the call that fails. *)
Fixpoint Walk_loop (frames : list STACKFRAME64) (recursion_backlog : list STACKFRAME64)
    (trace : list DebugStackTraceEntry) : list DebugStackTraceEntry :=
  match frames with
  | [] => trace
  | frame :: rest =>
      if negb (m_MaxRecursion_ =? SIZE_MAX) then
        if AddrPC frame =? AddrReturn frame then
          Walk_loop rest (recursion_backlog ++ [frame]) trace
        else if negb (bool_decide (recursion_backlog = [])) then
          Walk_loop rest []
            (if Z.of_nat (length recursion_backlog) >=? m_MaxRecursion_
             then AddRecursion trace recursion_backlog
             else foldl AddFrame trace recursion_backlog)
        else Walk_loop rest recursion_backlog (AddFrame trace frame)
      else Walk_loop rest recursion_backlog (AddFrame trace frame)
  end.

Definition Walk (frames : list STACKFRAME64) : list DebugStackTraceEntry :=
  Walk_loop frames [] [].

End Walk.

(** [DebugStackTrace(context, collection, searchPath, max_recursion,
    max_instruction)] *)
Definition build `{Services} `{Platform} (context : DebugContext)
    (collection : ModuleCollection) (max_recursion max_instruction : Z)
    (frames : list STACKFRAME64) : DebugStackTrace := {|
  m_Trace := Walk collection (Is64 context) max_recursion max_instruction frames;
  m_MaxRecursion := max_recursion;
  m_MaxInstruction := max_instruction
|}.

(** [DebugStackTrace(context, collection, trace)]: the trace of a binary
    log made into a trace for the sinks. *)
Definition of_concrete (collection : ModuleCollection)
    (trace : BinaryLog.StackTraceConcrete) : DebugStackTrace := {|
  m_Trace :=
    map (fun entryConcrete =>
      let h := BinaryLog.sec_head entryConcrete in
      {| Module := default Module_default
                     (GetModuleAtAddress collection (BinaryLog.StackTraceEntry.Address h));
         ModuleBase := BinaryLog.StackTraceEntry.ModuleBase h;
         Address := BinaryLog.StackTraceEntry.Address h;
         AbsoluteAddress := BinaryLog.StackTraceEntry.AbsoluteAddress h;
         AbsoluteLineAddress := BinaryLog.StackTraceEntry.AbsoluteLineAddress h;
         LineAddress := BinaryLog.StackTraceEntry.LineAddress h;
         Name := BinaryLog.Name entryConcrete;
         File := BinaryLog.Path entryConcrete;
         Line := BinaryLog.StackTraceEntry.LineNumber h mod 2 ^ 32;
         Recursion := negb (BinaryLog.StackTraceEntry.IsRecursion h =? 0);
         RecursionCount := BinaryLog.StackTraceEntry.RecursionCount h;
         Instructions :=
           map (fun instructionConcrete =>
             let ih := BinaryLog.sic_head instructionConcrete in
             {| Is64BitAddress :=
                  negb (BinaryLog.StackTraceEntryInstruction.Is64BitAddress ih =? 0);
                Offset := BinaryLog.StackTraceEntryInstruction.Offset ih;
                Size := BinaryLog.StackTraceEntryInstruction.Size ih;
                InstructionHex := BinaryLog.Hex instructionConcrete;
                InstructionMnemonic := BinaryLog.Mnemonic instructionConcrete;
                Operands := BinaryLog.Operands instructionConcrete |})
             (BinaryLog.Instructions entryConcrete) |})
      (BinaryLog.Entries trace);
  m_MaxRecursion := BinaryLog.StackTrace.MaxRecursion (BinaryLog.stc_head trace);
  m_MaxInstruction := BinaryLog.StackTrace.MaxInstructions (BinaryLog.stc_head trace)
|}.

End Trace.

(** ** IDebuggerEventHandler.hpp: the calls a sink receives *)

Module Sink.
Import Trace.
Section WithPlatform.
Context `{Platform}.

(** One constructor per method of the interface, with its arguments;
    arguments passed by reference are the value the referenced object has
    at the time of the call. *)
Inductive Call :=
| OnInitialization (time : Z) (p : Process.Process)
| OnBreakpointHit (time : Z) (info : EXCEPTION_DEBUG_INFO) (pi : PROCESS_INFORMATION)
    (context : DebugContext) (trace : DebugStackTrace) (collection : ModuleCollection)
| OnException (time : Z) (info : EXCEPTION_DEBUG_INFO) (pi : PROCESS_INFORMATION)
    (firstChance : bool) (name : wstring)
    (context : DebugContext) (trace : DebugStackTrace) (collection : ModuleCollection)
| OnCreateProcess (time : Z) (info : CREATE_PROCESS_DEBUG_INFO) (pi : PROCESS_INFORMATION)
    (path : wstring) (collection : ModuleCollection)
| OnCreateThread (time : Z) (info : CREATE_THREAD_DEBUG_INFO) (pi : PROCESS_INFORMATION)
    (collection : ModuleCollection)
| OnExitProcess (time : Z) (info : EXIT_PROCESS_DEBUG_INFO) (pi : PROCESS_INFORMATION)
    (collection : ModuleCollection)
| OnExitThread (time : Z) (info : EXIT_THREAD_DEBUG_INFO) (pi : PROCESS_INFORMATION)
    (collection : ModuleCollection)
| OnDllLoad (time : Z) (info : LOAD_DLL_DEBUG_INFO) (pi : PROCESS_INFORMATION)
    (path : wstring) (moduleIndex : Z) (collection : ModuleCollection)
| OnDebugString (time : Z) (info : OUTPUT_DEBUG_STRING_INFO) (pi : PROCESS_INFORMATION)
    (string : cstring)
| OnDebugStringW (time : Z) (info : OUTPUT_DEBUG_STRING_INFO) (pi : PROCESS_INFORMATION)
    (string : wstring)
| OnRip (time : Z) (info : RIP_INFO) (pi : PROCESS_INFORMATION) (errorMessage : wstring)
| OnDllUnload (time : Z) (info : UNLOAD_DLL_DEBUG_INFO) (pi : PROCESS_INFORMATION)
    (path : wstring) (moduleIndex : Z) (collection : ModuleCollection)
| OnModuleCollectionComplete (time : Z) (collection : ModuleCollection).

(** The sinks registered with [AddHandler] are told apart by a number. *)
Definition Handler : Type := nat.

(** [for (auto handler : m_Handlers) handler->...]: the calls made, in
    order. *)
Definition fan_out (handlers : list Handler) (c : Call) : list (Handler * Call) :=
  map (fun h => (h, c)) handlers.
End WithPlatform.
End Sink.

(** ** WriterDebuggerEventHandler.cpp *)

Module Writer.
Import Packed BinaryLog Trace Sink.
Section WithPlatform.
Context `{Platform}.

(** The output file: its contents and the put position. *)
Record Writer := {
  m_Stream : list byte;
  m_Pos : nat;
  m_Header : FileHeader.t
}.

(** The handler just constructed: the file is open and empty. *)
Definition new : Writer := {|
  m_Stream := [];
  m_Pos := 0;
  m_Header := FileHeader.init
|}.

Definition set_Crc32 (h : FileHeader.t) (crc : Z) : FileHeader.t := {|
  FileHeader.Signature := FileHeader.Signature h;
  FileHeader.Version := FileHeader.Version h;
  FileHeader.ProcessId := FileHeader.ProcessId h;
  FileHeader.ThreadId := FileHeader.ThreadId h;
  FileHeader.PathLength := FileHeader.PathLength h;
  FileHeader.WorkingDirectoryLength := FileHeader.WorkingDirectoryLength h;
  FileHeader.Arguments := FileHeader.Arguments h;
  FileHeader.StartTime := FileHeader.StartTime h;
  FileHeader.Crc32 := crc
|}.

(** [m_Stream.write(data, size)] at the put position: what lies there
    is overwritten, the file grows where the data goes past its end. *)
Definition stream_write (stream : list byte) (pos : nat) (data : list byte) : list byte :=
  take pos stream ++ data ++ drop (pos + length data) stream.

(** [Write(const char* data, size_t size, bool updateChecksum)] *)
Definition Write (data : list byte) (updateChecksum : bool) (w : Writer) : Writer := {|
  m_Stream := stream_write (m_Stream w) (m_Pos w) data;
  m_Pos := m_Pos w + length data;
  m_Header :=
    if updateChecksum
    then set_Crc32 (m_Header w) (Crc32.Update data (FileHeader.Crc32 (m_Header w)))
    else m_Header w
|}.

(** [Write(const std::string& s, bool writeLength)] *)
Definition Write_string (s : cstring) (writeLength : bool) (w : Writer) : Writer :=
  if bool_decide (s = []) then w
  else
    let w1 := if writeLength
              then Write (le_encode 4 (Z.of_nat (length s))) true w
              else w in
    Write s true w1.

(** [Write(const std::wstring& s, bool writeLength)] *)
Definition Write_wstring (s : wstring) (writeLength : bool) (w : Writer) : Writer :=
  if bool_decide (s = []) then w
  else
    let w1 := if writeLength
              then Write (le_encode 4 (Z.of_nat (length s))) true w
              else w in
    Write (wstring_bytes s) true w1.

(** [OnInitialization]; [now] is the reading of [std::time]. *)
Definition OnInitialization (now : Z) (pi : Process.Process) (w : Writer) : Writer :=
  let header := {|
    FileHeader.Signature := FileHeader.Signature (m_Header w);
    FileHeader.Version := FileHeader.Version (m_Header w);
    FileHeader.ProcessId := Process.dwProcessId pi;
    FileHeader.ThreadId := Process.dwThreadId pi;
    FileHeader.PathLength := Z.of_nat (length (Process.Path pi));
    FileHeader.WorkingDirectoryLength := Z.of_nat (length (Process.WorkingDirectory pi));
    FileHeader.Arguments := Z.of_nat (length (Process.Arguments pi));
    FileHeader.StartTime := now;
    FileHeader.Crc32 := 0
  |} in
  let w0 := {| m_Stream := m_Stream w; m_Pos := m_Pos w; m_Header := header |} in
  let w1 := Write (FileHeader.bytes header) false w0 in
  let w2 := Write_string (Process.Path pi) false w1 in
  let w3 := Write_string (Process.WorkingDirectory pi) false w2 in
  foldl (fun w argument => Write_string argument true w) w3 (Process.Arguments pi).

(** [Write(std::shared_ptr<const DebugContext> context)] *)
Definition Write_context (context : DebugContext) (w : Writer) : Writer :=
  if Is64 context then Write (Get64 context) true w
  else Write (Get86 context) true w.

Definition instruction_head (instr : DebugStackTraceInstruction)
    : StackTraceEntryInstruction.t := {|
  StackTraceEntryInstruction.Is64BitAddress := bool_to_Z (Is64BitAddress instr);
  StackTraceEntryInstruction.Offset := Offset instr;
  StackTraceEntryInstruction.Size := Size instr;
  StackTraceEntryInstruction.HexSize := Z.of_nat (length (InstructionHex instr));
  StackTraceEntryInstruction.MnemonicSize := Z.of_nat (length (InstructionMnemonic instr));
  StackTraceEntryInstruction.OperandsSize := Z.of_nat (length (Operands instr))
|}.

Definition Write_instruction (w : Writer) (instr : DebugStackTraceInstruction) : Writer :=
  let w1 := Write (StackTraceEntryInstruction.bytes (instruction_head instr)) true w in
  let w2 := Write_string (InstructionHex instr) false w1 in
  let w3 := Write_string (InstructionMnemonic instr) false w2 in
  Write_string (Operands instr) false w3.

(** The [StackTraceEntry] the trace writer builds for an entry. *)
Definition entry_head (collection : ModuleCollection) (entry : DebugStackTraceEntry)
    : StackTraceEntry.t := {|
  StackTraceEntry.ModuleIndex :=
    if negb (Base (Module entry) =? 0) && negb (bool_decide (Modules.Path (Module entry) = []))
    then GetIndex_path collection (Modules.Path (Module entry))
    else 0;
  StackTraceEntry.ModuleBase := Base (Module entry);
  StackTraceEntry.Address := Address entry;
  StackTraceEntry.AbsoluteAddress := AbsoluteAddress entry;
  StackTraceEntry.AbsoluteLineAddress := AbsoluteLineAddress entry;
  StackTraceEntry.LineAddress := LineAddress entry;
  StackTraceEntry.NameSymbolLength := Z.of_nat (length (Name entry));
  StackTraceEntry.PathLength := Z.of_nat (length (File entry));
  StackTraceEntry.LineNumber := Line entry;
  StackTraceEntry.IsRecursion := bool_to_Z (Recursion entry);
  StackTraceEntry.RecursionCount := RecursionCount entry;
  StackTraceEntry.InstructionCount := Z.of_nat (length (Instructions entry))
|}.

Definition Write_entry (collection : ModuleCollection) (w : Writer)
    (entry : DebugStackTraceEntry) : Writer :=
  let w1 := Write (StackTraceEntry.bytes (entry_head collection entry)) true w in
  let w2 := Write_string (Name entry) false w1 in
  let w3 := Write_wstring (File entry) false w2 in
  foldl Write_instruction w3 (Instructions entry).

(** [Write(std::shared_ptr<const DebugStackTrace> trace, collection)] *)
Definition Write_trace (trace : DebugStackTrace) (collection : ModuleCollection)
    (w : Writer) : Writer :=
  let stackTrace :=
    StackTrace.make (GetMaxRecursion trace) (GetMaxInstructions trace) (size trace) in
  let w1 := Write (StackTrace.bytes stackTrace) true w in
  foldl (Write_entry collection) w1 (list_ trace).

(** The [ExceptionEventEntry] of an exception or breakpoint event. *)
Definition exception_entry (now : Z) (info : EXCEPTION_DEBUG_INFO)
    (pi : PROCESS_INFORMATION) (context : DebugContext)
    (collection : ModuleCollection) (isBreak : bool) : ExceptionEventEntry.t :=
  let address := ExceptionAddress (ExceptionRecord info) in
  let event :=
    ExceptionEventEntry.make now pi address (ExceptionCode (ExceptionRecord info))
      (negb (Is64 context)) isBreak (negb (dwFirstChance info =? 0)) in
  let '(index, offset) :=
    match GetModuleAtAddress collection address with
    | Some module => (GetIndex_path collection (Modules.Path module), wrap64 (address - Base module))
    | None => (-1, 0)
    end in
  {| ExceptionEventEntry.base := ExceptionEventEntry.base event;
     ExceptionEventEntry.EventAddress := ExceptionEventEntry.EventAddress event;
     ExceptionEventEntry.EventOffset := offset;
     ExceptionEventEntry.ModuleIndex := index;
     ExceptionEventEntry.EventCode := ExceptionEventEntry.EventCode event;
     ExceptionEventEntry.Wow64 := ExceptionEventEntry.Wow64 event;
     ExceptionEventEntry.IsBreakpoint := ExceptionEventEntry.IsBreakpoint event;
     ExceptionEventEntry.IsFirstChance := ExceptionEventEntry.IsFirstChance event |}.

(** [Write(info, pi, context, trace, collection, isBreak)] *)
Definition Write_exception (now : Z) (info : EXCEPTION_DEBUG_INFO)
    (pi : PROCESS_INFORMATION) (context : DebugContext) (trace : DebugStackTrace)
    (collection : ModuleCollection) (isBreak : bool) (w : Writer) : Writer :=
  let event := exception_entry now info pi context collection isBreak in
  let w1 := Write (ExceptionEventEntry.bytes event) true w in
  let w2 := Write_context context w1 in
  Write_trace trace collection w2.

(** [OnModuleCollectionComplete]: back to the start of the file, the
    header once more, then to the end of the file. *)
Definition OnModuleCollectionComplete (w : Writer) : Writer :=
  let w0 := {| m_Stream := m_Stream w; m_Pos := 0; m_Header := m_Header w |} in
  let w1 := Write (FileHeader.bytes (m_Header w0)) true w0 in
  {| m_Stream := m_Stream w1; m_Pos := length (m_Stream w1); m_Header := m_Header w1 |}.

(** The sink: one call handled. [now] is the reading of the system clock
    taken while the call is handled ([std::time] in [OnInitialization],
    the clock of the [EventEntry] constructor otherwise).  [OnCreateProcess]
    dereferences the module found at the image base without a check: when
    the collection has none the call has no defined result ([None]). *)
Definition handle (now : Z) (c : Call) (w : Writer) : option Writer :=
  match c with
  | Sink.OnInitialization _ p => Some (OnInitialization now p w)
  | OnBreakpointHit _ info pi context trace collection =>
      Some (Write_exception now info pi context trace collection true w)
  | OnException _ info pi _ _ context trace collection =>
      Some (Write_exception now info pi context trace collection false w)
  | OnCreateProcess _ info pi path collection =>
      match GetModuleAtAddress collection (lpBaseOfImage info) with
      | Some module =>
          let e := CreateProcessEventEntry.make now pi path (Base module) (Modules.Size module) in
          Some (Write_wstring path false (Write (CreateProcessEventEntry.bytes e) true w))
      | None => None
      end
  | OnCreateThread _ info pi collection =>
      let address := lpStartAddress info in
      let e := CreateThreadEventEntry.make now pi address in
      let '(index, offset) :=
        match GetModuleAtAddress collection address with
        | Some module => (GetIndex_path collection (Modules.Path module), wrap64 (address - Base module))
        | None => (-1, 0)
        end in
      let e' := {|
        CreateThreadEventEntry.base := CreateThreadEventEntry.base e;
        CreateThreadEventEntry.EntryPointAddress := CreateThreadEventEntry.EntryPointAddress e;
        CreateThreadEventEntry.ModuleIndex := index;
        CreateThreadEventEntry.EntryPointOffset := offset |} in
      Some (Write (CreateThreadEventEntry.bytes e') true w)
  | OnExitProcess _ info pi _ =>
      Some (Write (ExitProcessEventEntry.bytes
                     (ExitProcessEventEntry.make now pi (ep_dwExitCode info))) true w)
  | OnExitThread _ info pi _ =>
      Some (Write (ExitThreadEventEntry.bytes
                     (ExitThreadEventEntry.make now pi (et_dwExitCode info))) true w)
  | OnDllLoad _ info pi path moduleIndex collection =>
      let moduleSize :=
        match GetModuleAtAddress collection (ld_lpBaseOfDll info) with
        | Some module => Modules.Size module
        | None => 0
        end in
      let e := DllLoadEventEntry.make now pi moduleIndex (ld_lpBaseOfDll info)
                 moduleSize (Z.of_nat (length path)) in
      Some (Write_wstring path false (Write (DllLoadEventEntry.bytes e) true w))
  | OnDebugString _ info pi string =>
      let e := DebugStringEventEntry.make now pi 0 (Z.of_nat (length string)) in
      Some (Write_string string false (Write (DebugStringEventEntry.bytes e) true w))
  | OnDebugStringW _ info pi string =>
      let e := DebugStringEventEntry.make now pi 1 (Z.of_nat (length string)) in
      Some (Write_wstring string false (Write (DebugStringEventEntry.bytes e) true w))
  | OnRip _ info pi _ =>
      Some (Write (RipEventEntry.bytes (RipEventEntry.make now pi (dwType info) (dwError info))) true w)
  | OnDllUnload _ info pi _ _ _ =>
      Some (Write (DllUnloadEventEntry.bytes
                     (DllUnloadEventEntry.make now pi (ud_lpBaseOfDll info))) true w)
  | Sink.OnModuleCollectionComplete _ _ => Some (OnModuleCollectionComplete w)
  end.

(** A session: the calls the sink receives, each with the clock reading
    taken while it is handled. *)
Fixpoint run (calls : list (Z * Call)) (w : Writer) : option Writer :=
  match calls with
  | [] => Some w
  | (now, c) :: rest =>
      match handle now c w with
      | Some w' => run rest w'
      | None => None
      end
  end.

End WithPlatform.
End Writer.

(** ** BinaryLogPlayer.hpp and BinaryLogPlayer.cpp *)

Module Player.
Import Packed BinaryLog Trace Sink.
Section WithPlatform.
Context `{Platform}.

(** The members of [Hindsight::State] the replayer reads. *)
Record State := {
  BreakOnBreakpoints : bool;
  BreakOnExceptions : bool;
  BreakOnFirstChanceOnly : bool;
  NoSanityCheck : bool;
  ReplayEventFilter : list String.string
}.

(** The [std::runtime_error]s of the replayer, by their message. *)
Inductive Error :=
| CannotOpen            (* cannot open file for reading *)
| VersionDiffers        (* cannot open file, the version used to generate this log differs ... *)
| Damaged               (* file has been damaged, never finished writing or was appended to ... *)
| NotAllRead            (* not all data that was originally written has been read. *)
| UnexpectedFrame       (* unexpected frame in binary log file, expected event entry. *)
| UnexpectedEventType (id : Z) (* unexpected event frame type: ... *)
| UnexpectedEnd         (* unexpected end of binary log file, expected more data. *)
| StackTraceExpected    (* stack trace expected, binary log file damaged *)
| LengthError.          (* std::length_error of resize *)

(** How a member function ends when it does not return: an exception
    leaves it, [exit(0)] ends the program, the program waits for a key
    that never comes, or the model ran out of the rounds it was given. *)
Inductive Stop :=
| Throw (e : Error)
| Exit (code : Z)
| AwaitKey
| OutOfFuel.

Record Player := {
  m_Stream : list byte;         (* the contents of the file *)
  m_Pos : nat;                  (* the get position of the stream *)
  m_StreamSize : nat;
  m_State : State;
  m_ShouldFilter : bool;
  m_Filter : gset String.string;
  m_Header : FileHeader.t;
  m_Crc32 : Z;
  m_Handlers : list Handler;
  m_Modules : ModuleCollection;
  calls : list (Handler * Call); (* the calls made to the sinks so far *)
  keys : list byte               (* the keys [_getch] will return *)
}.

Inductive Res (A : Type) :=
| Ok (a : A) (p : Player)
| Halt (s : Stop) (p : Player).
Arguments Ok {A}.
Arguments Halt {A}.

Definition M (A : Type) : Type := Player -> Res A.

Definition ret {A} (a : A) : M A := fun p => Ok a p.
Definition bind {A B} (m : M A) (k : A -> M B) : M B :=
  fun p => match m p with
           | Ok a p' => k a p'
           | Halt s p' => Halt s p'
           end.
Definition throw {A} (e : Error) : M A := fun p => Halt (Throw e) p.

Notation "'let*' x := m 'in' k" := (bind m (fun x => k))
  (at level 10, x name, m at level 100, k at level 200).

Definition with_pos (pos : nat) (p : Player) : Player := {|
  m_Stream := m_Stream p; m_Pos := pos; m_StreamSize := m_StreamSize p;
  m_State := m_State p; m_ShouldFilter := m_ShouldFilter p; m_Filter := m_Filter p;
  m_Header := m_Header p; m_Crc32 := m_Crc32 p; m_Handlers := m_Handlers p;
  m_Modules := m_Modules p; calls := calls p; keys := keys p |}.

Definition with_Crc32 (crc : Z) (p : Player) : Player := {|
  m_Stream := m_Stream p; m_Pos := m_Pos p; m_StreamSize := m_StreamSize p;
  m_State := m_State p; m_ShouldFilter := m_ShouldFilter p; m_Filter := m_Filter p;
  m_Header := m_Header p; m_Crc32 := crc; m_Handlers := m_Handlers p;
  m_Modules := m_Modules p; calls := calls p; keys := keys p |}.

Definition with_Header (h : FileHeader.t) (p : Player) : Player := {|
  m_Stream := m_Stream p; m_Pos := m_Pos p; m_StreamSize := m_StreamSize p;
  m_State := m_State p; m_ShouldFilter := m_ShouldFilter p; m_Filter := m_Filter p;
  m_Header := h; m_Crc32 := m_Crc32 p; m_Handlers := m_Handlers p;
  m_Modules := m_Modules p; calls := calls p; keys := keys p |}.

Definition with_Modules (mc : ModuleCollection) (p : Player) : Player := {|
  m_Stream := m_Stream p; m_Pos := m_Pos p; m_StreamSize := m_StreamSize p;
  m_State := m_State p; m_ShouldFilter := m_ShouldFilter p; m_Filter := m_Filter p;
  m_Header := m_Header p; m_Crc32 := m_Crc32 p; m_Handlers := m_Handlers p;
  m_Modules := mc; calls := calls p; keys := keys p |}.

Definition with_calls (cs : list (Handler * Call)) (p : Player) : Player := {|
  m_Stream := m_Stream p; m_Pos := m_Pos p; m_StreamSize := m_StreamSize p;
  m_State := m_State p; m_ShouldFilter := m_ShouldFilter p; m_Filter := m_Filter p;
  m_Header := m_Header p; m_Crc32 := m_Crc32 p; m_Handlers := m_Handlers p;
  m_Modules := m_Modules p; calls := cs; keys := keys p |}.

Definition with_keys (ks : list byte) (p : Player) : Player := {|
  m_Stream := m_Stream p; m_Pos := m_Pos p; m_StreamSize := m_StreamSize p;
  m_State := m_State p; m_ShouldFilter := m_ShouldFilter p; m_Filter := m_Filter p;
  m_Header := m_Header p; m_Crc32 := m_Crc32 p; m_Handlers := m_Handlers p;
  m_Modules := m_Modules p; calls := calls p; keys := ks |}.

Definition with_Handlers (hs : list Handler) (p : Player) : Player := {|
  m_Stream := m_Stream p; m_Pos := m_Pos p; m_StreamSize := m_StreamSize p;
  m_State := m_State p; m_ShouldFilter := m_ShouldFilter p; m_Filter := m_Filter p;
  m_Header := m_Header p; m_Crc32 := m_Crc32 p; m_Handlers := hs;
  m_Modules := m_Modules p; calls := calls p; keys := keys p |}.

Definition get : M Player := fun p => Ok p p.
Definition modify (f : Player -> Player) : M unit := fun p => Ok tt (f p).

Definition ChecksumBufferSize : nat := 2048.

Definition Size (p : Player) : nat := m_StreamSize p.
Definition Pos (p : Player) : nat := m_Pos p.
Definition SizeLeft (p : Player) : nat := (Size p - Pos p)%nat.

Definition AssertSizeLeft (required : nat) : M unit :=
  fun p => if (SizeLeft p <? required)%nat then Halt (Throw UnexpectedEnd) p else Ok tt p.

(** [Read(char* buffer, size_t size, bool updateChecksum)] *)
Definition Read (size : nat) (updateChecksum : bool) : M (list byte) :=
  let* _ := AssertSizeLeft size in
  fun p =>
    let buffer := take size (drop (m_Pos p) (m_Stream p)) in
    let p1 := with_pos (m_Pos p + size) p in
    Ok buffer (if updateChecksum
               then with_Crc32 (Crc32.Update buffer (m_Crc32 p)) p1
               else p1).

(** [m_Stream.seekg(-n, std::ios::cur)] *)
Definition seek_back (n : nat) : M unit :=
  modify (fun p => with_pos (m_Pos p - n) p).

(** The size a string is read with: [-1] stands for a length in the
    file, a [uint32_t] before the characters. *)
Definition Read_size (size : Z) : M Z :=
  if size =? -1
  then let* readSize := Read 4 true in ret (le_decode readSize)
  else ret size.

(** [Read(std::string& result, int64_t size)].  [resize] with a negative
    size, a huge [size_t], throws; which sizes above the file's own the
    allocator would refuse is not modelled, the read that follows throws
    for them in any case. *)
Definition Read_string (size : Z) : M cstring :=
  let* size' := Read_size size in
  if size' <? 0 then throw LengthError
  else Read (Z.to_nat size') true.

(** [Read(std::wstring& result, int64_t size)] *)
Definition Read_wstring (size : Z) : M wstring :=
  let* size' := Read_size size in
  if size' <? 0 then throw LengthError
  else let* bs := Read (Z.to_nat size' * 2) true in ret (bytes_wstring bs).

(** [Read(std::vector<std::string>& result, size_t count)] *)
Fixpoint Read_strings (count : nat) : M (list cstring) :=
  match count with
  | O => ret []
  | S n =>
      let* s := Read_string (-1) in
      let* rest := Read_strings n in
      ret (s :: rest)
  end.

(** [_strnicmp(a, b, n) == 0] in the C locale. *)
Definition tolower (b : byte) : Z :=
  let c := byte_to_Z b in if (65 <=? c) && (c <=? 90) then c + 32 else c.

Fixpoint strnicmp_equal (a b : list byte) (n : nat) : bool :=
  match n with
  | O => true
  | S n' =>
      let x := hd Byte.x00 a in
      let y := hd Byte.x00 b in
      if tolower x =? tolower y
      then if byte_to_Z x =? 0 then true else strnicmp_equal (tl a) (tl b) n'
      else false
  end.

Definition emit (c : Call) : M unit :=
  modify (fun p => with_calls (calls p ++ fan_out (m_Handlers p) c) p).

(** [m_Filter.count(name)] *)
Definition filter_count (p : Player) (name : String.string) : bool :=
  bool_decide (name ∈ m_Filter p).

(** [HandleBreakpointOptions]: keys are read until one is [c] or [a];
    [a] ends the program. *)
Fixpoint HandleBreakpointOptions_loop (ks : list byte) (p : Player) : Res unit :=
  match ks with
  | [] => Halt AwaitKey (with_keys [] p)
  | k :: ks' =>
      let choice := tolower k in
      if choice =? 99 then Ok tt (with_keys ks' p)
      else if choice =? 97 then Halt (Exit 0) (with_keys ks' p)
      else HandleBreakpointOptions_loop ks' p
  end.

Definition HandleBreakpointOptions : M unit :=
  fun p => HandleBreakpointOptions_loop (keys p) p.

(** [Error::GetErrorMessageW] *)
Definition GetErrorMessageW (error : Z) : wstring :=
  if error =? 0 then [] else FormatMessageW error.

Definition exception_name (code : Z) : wstring :=
  match List.find (fun kv => fst kv =? code) ExceptionNames with
  | Some kv => snd kv
  | None => []
  end.

(** The instructions of one trace entry, [count] of them. *)
Fixpoint Read_instructions (count : nat) : M (list StackTraceEntryInstructionConcrete) :=
  match count with
  | O => ret []
  | S n =>
      let* head := Read (sizeof StackTraceEntryInstruction.layout) true in
      let h := StackTraceEntryInstruction.of_bytes head in
      let* hex := Read_string (to_int64 (StackTraceEntryInstruction.HexSize h)) in
      let* mnemonic := Read_string (to_int64 (StackTraceEntryInstruction.MnemonicSize h)) in
      let* operands := Read_string (to_int64 (StackTraceEntryInstruction.OperandsSize h)) in
      let* rest := Read_instructions n in
      ret ({| sic_head := h; Hex := hex; Mnemonic := mnemonic; BinaryLog.Operands := operands |}
           :: rest)
  end.

(** The entries of a trace, [count] of them. *)
Fixpoint Read_entries (count : nat) : M (list StackTraceEntryConcrete) :=
  match count with
  | O => ret []
  | S n =>
      let* head := Read (sizeof StackTraceEntry.layout) true in
      let h := StackTraceEntry.of_bytes head in
      let* name := Read_string (to_int64 (StackTraceEntry.NameSymbolLength h)) in
      let* path := Read_wstring (to_int64 (StackTraceEntry.PathLength h)) in
      let* instructions :=
        Read_instructions (Z.to_nat (StackTraceEntry.InstructionCount h)) in
      let* rest := Read_entries n in
      ret ({| sec_head := h; BinaryLog.Name := name; BinaryLog.Path := path;
              BinaryLog.Instructions := instructions |} :: rest)
  end.

(** The thread context of [EmitException], of the size the [Wow64] byte
    of the event selects. *)
Definition Read_context (frame : ExceptionEventEntry.t) (pi : PROCESS_INFORMATION)
    : M DebugContext :=
  if negb (ExceptionEventEntry.Wow64 frame =? 0)
  then let* ctx32 := Read sizeof_WOW64_CONTEXT true in
       ret (of_WOW64_CONTEXT pi ctx32)
  else let* ctx64 := Read sizeof_CONTEXT true in
       ret (of_CONTEXT pi ctx64).

(** The stack trace of [EmitException]. *)
Definition Read_trace : M StackTraceConcrete :=
  let* signature := Read 4 false in
  if negb (strnicmp_equal signature (ascii_bytes "STCK") 4)
  then throw StackTraceExpected
  else
    let* _ := seek_back 4 in
    let* head := Read (sizeof StackTrace.layout) true in
    let h := StackTrace.of_bytes head in
    let* entries := Read_entries (Z.to_nat (StackTrace.TraceEntries h)) in
    ret {| stc_head := h; Entries := entries |}.

Definition EmitException (time : Z) (frame : ExceptionEventEntry.t) : M unit :=
  let pi := EventEntryProcessInformation.to_PROCESS_INFORMATION
              (EventEntry.ProcessInformation (ExceptionEventEntry.base frame)) in
  let* context := Read_context frame pi in
  let info := {|
    ExceptionRecord := {|
      ExceptionCode := ExceptionEventEntry.EventCode frame;
      ExceptionAddress := ExceptionEventEntry.EventAddress frame;
      ExceptionInformation := [] |};
    dwFirstChance := ExceptionEventEntry.IsFirstChance frame |} in
  let* traceConcrete := Read_trace in
  let* p := get in
  let isBreakpoint := negb (ExceptionEventEntry.IsBreakpoint frame =? 0) in
  let isFirstChance := negb (ExceptionEventEntry.IsFirstChance frame =? 0) in
  if m_ShouldFilter p &&
     ((isBreakpoint && negb (filter_count p "breakpoint")) ||
      (negb isBreakpoint && negb (filter_count p "exception")))
  then ret tt
  else
    let trace := of_concrete (m_Modules p) traceConcrete in
    let* _ :=
      (if isBreakpoint
       then emit (OnBreakpointHit time info pi context trace (m_Modules p))
       else emit (OnException time info pi isFirstChance
                    (exception_name (ExceptionEventEntry.EventCode frame))
                    context trace (m_Modules p))) in
    if isBreakpoint
    then (if BreakOnBreakpoints (m_State p) then HandleBreakpointOptions else ret tt)
    else (if BreakOnExceptions (m_State p) &&
             (negb (BreakOnFirstChanceOnly (m_State p)) || isFirstChance)
          then HandleBreakpointOptions else ret tt).

Definition EmitCreateProcess (time : Z) (frame : CreateProcessEventEntry.t) : M unit :=
  let* path := Read_wstring (to_int64 (CreateProcessEventEntry.PathLength frame)) in
  let pinfo := EventEntry.ProcessInformation (CreateProcessEventEntry.base frame) in
  let info := {|
    cp_hProcess := EventEntryProcessInformation.hProcess pinfo;
    cp_hThread := EventEntryProcessInformation.hThread pinfo;
    lpBaseOfImage := CreateProcessEventEntry.ModuleBase frame |} in
  let* _ := modify (fun p => with_Modules
              (Load (m_Modules p) path (CreateProcessEventEntry.ModuleBase frame)
                    (CreateProcessEventEntry.ModuleSize frame)) p) in
  let* p := get in
  if m_ShouldFilter p && negb (filter_count p "create_process") then ret tt
  else emit (OnCreateProcess time info
               (EventEntryProcessInformation.to_PROCESS_INFORMATION pinfo)
               path (m_Modules p)).

Definition EmitCreateThread (time : Z) (frame : CreateThreadEventEntry.t) : M unit :=
  let info := {| lpStartAddress := CreateThreadEventEntry.EntryPointAddress frame |} in
  let* p := get in
  if m_ShouldFilter p && negb (filter_count p "create_thread") then ret tt
  else emit (OnCreateThread time info
               (EventEntryProcessInformation.to_PROCESS_INFORMATION
                  (EventEntry.ProcessInformation (CreateThreadEventEntry.base frame)))
               (m_Modules p)).

Definition EmitDllLoad (time : Z) (frame : DllLoadEventEntry.t) : M unit :=
  let* path := Read_wstring (to_int64 (DllLoadEventEntry.ModulePathSize frame)) in
  let info := {| ld_lpBaseOfDll := DllLoadEventEntry.ModuleBase frame |} in
  let* _ := modify (fun p => with_Modules
              (Load (m_Modules p) path (ld_lpBaseOfDll info)
                    (DllLoadEventEntry.ModuleSize frame)) p) in
  let* p := get in
  if m_ShouldFilter p && negb (filter_count p "load_dll") then ret tt
  else emit (OnDllLoad time info
               (EventEntryProcessInformation.to_PROCESS_INFORMATION
                  (EventEntry.ProcessInformation (DllLoadEventEntry.base frame)))
               path (GetIndex_path (m_Modules p) path) (m_Modules p)).

Definition EmitExitProcess (time : Z) (frame : ExitProcessEventEntry.t) : M unit :=
  let info := {| ep_dwExitCode := ExitProcessEventEntry.ExitCode frame |} in
  let* p := get in
  if m_ShouldFilter p && negb (filter_count p "exit_process") then ret tt
  else emit (OnExitProcess time info
               (EventEntryProcessInformation.to_PROCESS_INFORMATION
                  (EventEntry.ProcessInformation (ExitProcessEventEntry.base frame)))
               (m_Modules p)).

Definition EmitExitThread (time : Z) (frame : ExitThreadEventEntry.t) : M unit :=
  let info := {| et_dwExitCode := ExitThreadEventEntry.ExitCode frame |} in
  let* p := get in
  if m_ShouldFilter p && negb (filter_count p "exit_thread") then ret tt
  else emit (OnExitThread time info
               (EventEntryProcessInformation.to_PROCESS_INFORMATION
                  (EventEntry.ProcessInformation (ExitThreadEventEntry.base frame)))
               (m_Modules p)).

Definition EmitDebugString (time : Z) (frame : DebugStringEventEntry.t) : M unit :=
  let info := {|
    fUnicode := DebugStringEventEntry.IsUnicode frame;
    nDebugStringLength := DebugStringEventEntry.Length frame mod 2 ^ 16 |} in
  let pi := EventEntryProcessInformation.to_PROCESS_INFORMATION
              (EventEntry.ProcessInformation (DebugStringEventEntry.base frame)) in
  if negb (DebugStringEventEntry.IsUnicode frame =? 0)
  then
    let* message := Read_wstring (to_int64 (DebugStringEventEntry.Length frame)) in
    let* p := get in
    if m_ShouldFilter p && negb (filter_count p "debug") then ret tt
    else emit (OnDebugStringW time info pi message)
  else
    let* message := Read_string (to_int64 (DebugStringEventEntry.Length frame)) in
    let* p := get in
    if m_ShouldFilter p && negb (filter_count p "debug") then ret tt
    else emit (OnDebugString time info pi message).

Definition EmitRip (time : Z) (frame : RipEventEntry.t) : M unit :=
  let info := {| dwError := RipEventEntry.Error frame;
                 dwType := RipEventEntry.Type_ frame |} in
  let* p := get in
  if m_ShouldFilter p && negb (filter_count p "rip") then ret tt
  else emit (OnRip time info
               (EventEntryProcessInformation.to_PROCESS_INFORMATION
                  (EventEntry.ProcessInformation (RipEventEntry.base frame)))
               (GetErrorMessageW (dwError info))).

Definition EmitDllUnload (time : Z) (frame : DllUnloadEventEntry.t) : M unit :=
  let info := {| ud_lpBaseOfDll := DllUnloadEventEntry.ModuleBase frame |} in
  let pi := EventEntryProcessInformation.to_PROCESS_INFORMATION
              (EventEntry.ProcessInformation (DllUnloadEventEntry.base frame)) in
  let* p := get in
  let* _ :=
    (if negb (m_ShouldFilter p) || (m_ShouldFilter p && filter_count p "unload_dll")
     then
       let path := Modules.Get (m_Modules p) (ud_lpBaseOfDll info) in
       emit (OnDllUnload time info pi path
               (GetIndex_path (m_Modules p) path) (m_Modules p))
     else ret tt) in
  modify (fun p => with_Modules (Unload (m_Modules p) (ud_lpBaseOfDll info)) p).

(** The [switch] of [Next] on the event id, after the base entry has been
    looked at and the stream put back to the start of the entry. *)
Definition dispatch (e : EventEntry.t) : M unit :=
  let id := EventEntry.EventId e in
  if id =? EXCEPTION_DEBUG_EVENT then
    let* bs := Read (sizeof ExceptionEventEntry.layout) true in
    EmitException (EventEntry.Time e) (ExceptionEventEntry.of_bytes bs)
  else if id =? CREATE_PROCESS_DEBUG_EVENT then
    let* bs := Read (sizeof CreateProcessEventEntry.layout) true in
    EmitCreateProcess (EventEntry.Time e) (CreateProcessEventEntry.of_bytes bs)
  else if id =? CREATE_THREAD_DEBUG_EVENT then
    let* bs := Read (sizeof CreateThreadEventEntry.layout) true in
    EmitCreateThread (EventEntry.Time e) (CreateThreadEventEntry.of_bytes bs)
  else if id =? EXIT_PROCESS_DEBUG_EVENT then
    let* bs := Read (sizeof ExitProcessEventEntry.layout) true in
    EmitExitProcess (EventEntry.Time e) (ExitProcessEventEntry.of_bytes bs)
  else if id =? EXIT_THREAD_DEBUG_EVENT then
    let* bs := Read (sizeof ExitThreadEventEntry.layout) true in
    EmitExitThread (EventEntry.Time e) (ExitThreadEventEntry.of_bytes bs)
  else if id =? LOAD_DLL_DEBUG_EVENT then
    let* bs := Read (sizeof DllLoadEventEntry.layout) true in
    EmitDllLoad (EventEntry.Time e) (DllLoadEventEntry.of_bytes bs)
  else if id =? OUTPUT_DEBUG_STRING_EVENT then
    let* bs := Read (sizeof DebugStringEventEntry.layout) true in
    EmitDebugString (EventEntry.Time e) (DebugStringEventEntry.of_bytes bs)
  else if id =? RIP_EVENT then
    let* bs := Read (sizeof RipEventEntry.layout) true in
    EmitRip (EventEntry.Time e) (RipEventEntry.of_bytes bs)
  else if id =? UNLOAD_DLL_DEBUG_EVENT then
    let* bs := Read (sizeof DllUnloadEventEntry.layout) true in
    EmitDllUnload (EventEntry.Time e) (DllUnloadEventEntry.of_bytes bs)
  else throw (UnexpectedEventType id).

(** [Next]: one event read and emitted; [false] when the file has no
    further event. *)
Definition Next : M bool :=
  let* p := get in
  if (SizeLeft p <? 4)%nat then ret false
  else
    let* signature := Read 4 false in
    if negb (strnicmp_equal signature (ascii_bytes "EVNT") 4)
    then throw UnexpectedFrame
    else
      let* _ := seek_back 4 in
      let* raw := Read (sizeof EventEntry.layout) false in
      let* _ := seek_back (sizeof EventEntry.layout) in
      let* _ := dispatch (EventEntry.of_bytes raw) in
      ret true.

(** [while (Next());] with at most [fuel] rounds. *)
Fixpoint Next_loop (fuel : nat) : M unit :=
  match fuel with
  | O => fun p => Halt OutOfFuel p
  | S fuel' => let* more := Next in if more then Next_loop fuel' else ret tt
  end.

(** [Play] up to its last statement; [now] is the reading of [std::time]
    after the last event.  Every round of the loop reads at least the
    fixed part of an event, so more rounds than the file has bytes are
    never needed. *)
Definition Play_events (now : Z) : M unit :=
  let* p0 := get in
  let pi := {| Windows.hProcess := 0; Windows.hThread := 0;
               Windows.dwProcessId := FileHeader.ProcessId (m_Header p0);
               Windows.dwThreadId := FileHeader.ThreadId (m_Header p0) |} in
  let* path := Read_string (to_int64 (FileHeader.PathLength (m_Header p0))) in
  let* workingDirectory :=
    Read_string (to_int64 (FileHeader.WorkingDirectoryLength (m_Header p0))) in
  let* arguments := Read_strings (Z.to_nat (FileHeader.Arguments (m_Header p0))) in
  let process := Process.make pi path workingDirectory arguments in
  let* _ := emit (OnInitialization (FileHeader.StartTime (m_Header p0)) process) in
  let* _ := Next_loop (S (m_StreamSize p0)) in
  let* p := get in
  emit (OnModuleCollectionComplete now (m_Modules p)).

(** The last statement of [Play]. *)
Definition Play_check : M unit :=
  let* p := get in
  if negb (FileHeader.Crc32 (m_Header p) =? m_Crc32 p) then throw NotAllRead
  else ret tt.

Definition Play (now : Z) : M unit :=
  let* _ := Play_events now in Play_check.

(** The loop of [CheckSanity]; [fuel] bounds the rounds, of which there
    are no more than bytes left, since each reads at least one. *)
Fixpoint CheckSanity_loop (fuel : nat) (stream : list byte) (cur left size : nat)
    (check : Z) : Z :=
  match fuel with
  | O => check
  | S fuel' =>
      if (0 <? left)%nat then
        let size' := if (left <? size)%nat then left else size in
        let buf := take size' (drop cur stream) in
        CheckSanity_loop fuel' stream (cur + size') (left - size') size'
          (Crc32.Update buf check)
      else check
  end.

Definition CheckSanity : M unit :=
  fun p =>
    let pos := m_Pos p in
    let left := (m_StreamSize p - pos)%nat in
    let check :=
      CheckSanity_loop left (m_Stream p) pos left ChecksumBufferSize (m_Crc32 p) in
    if negb (check =? FileHeader.Crc32 (m_Header p))
    then Halt (Throw Damaged) p
    else Ok tt p.

(** The constructor; [file] is the contents of the file at [path], if it
    can be opened. *)
Definition new (file : option (list byte)) (state : State) : Res unit :=
  let p0 := {|
    m_Stream := default [] file;
    m_Pos := 0;
    m_StreamSize := length (default [] file);
    m_State := state;
    m_ShouldFilter := negb (bool_decide (ReplayEventFilter state = []));
    m_Filter := list_to_set (ReplayEventFilter state);
    m_Header := FileHeader.init;
    m_Crc32 := 0;
    m_Handlers := [];
    m_Modules := Modules.empty;
    calls := [];
    keys := [] |} in
  match file with
  | None => Halt (Throw CannotOpen) p0
  | Some _ =>
      (let* raw := Read (sizeof FileHeader.layout) false in
       let* _ := modify (with_Header (FileHeader.of_bytes raw)) in
       let* p := get in
       let fileVersion := Z.shiftr (FileHeader.Version (m_Header p)) 16 in
       let requiredVersion := Z.shiftr Version.hindsight_version_int 16 in
       if negb (fileVersion =? requiredVersion) then throw VersionDiffers
       else if negb (NoSanityCheck state) then CheckSanity
       else ret tt) p0
  end.

Definition AddHandler (handler : Handler) (p : Player) : Player :=
  with_Handlers (m_Handlers p ++ [handler]) p.

End WithPlatform.

Arguments Ok {A}.
Arguments Halt {A}.
Arguments ret {A}.
Arguments bind {A B}.
Arguments throw {A}.
End Player.

(** ** Debugger.cpp: the event pump and the module collection *)

Module Pump.
Import Sink.
Section WithPlatform.
Context `{Platform}.

(** The members of [Debugger] that the handling of a module event
    touches, and the calls made to the sinks so far. *)
Record Debugger := {
  m_LoadedModules : ModuleCollection;
  m_Handlers : list Handler;
  calls : list (Handler * Call)
}.

(** [case UNLOAD_DLL_DEBUG_EVENT] of [Tick]. *)
Definition Tick_UNLOAD_DLL (time : Z) (info : UNLOAD_DLL_DEBUG_INFO)
    (pi : PROCESS_INFORMATION) (d : Debugger) : Debugger :=
  let fullPath := Get (m_LoadedModules d) (ud_lpBaseOfDll info) in
  let d1 := {|
    m_LoadedModules := m_LoadedModules d;
    m_Handlers := m_Handlers d;
    calls := calls d ++
             fan_out (m_Handlers d)
               (OnDllUnload time info pi fullPath
                  (GetIndex_path (m_LoadedModules d) fullPath) (m_LoadedModules d)) |} in
  {| m_LoadedModules := Unload (m_LoadedModules d1) (ud_lpBaseOfDll info);
     m_Handlers := m_Handlers d1;
     calls := calls d1 |}.

(** [LaunchCommand] before the debugger is made: a limit of 0 stands for
    no limit. *)
Definition normalize_MaxRecursion (MaxRecursion : Z) : Z :=
  if MaxRecursion =? 0 then SIZE_MAX else MaxRecursion.

End WithPlatform.
End Pump.

(** ** Process.cpp (remote reads), ExceptionRtti.hpp and ExceptionRtti.cpp *)

Module Rtti.

(** The memory of the debuggee: the bytes that can be read, by address. *)
Abbreviation Memory := (gmap Z byte).

(** [ReadProcessMemory] of [n] bytes: all of them, or failure. *)
Fixpoint read_bytes (mem : Memory) (address : Z) (n : nat) : option (list byte) :=
  match n with
  | O => Some []
  | S n' =>
      match mem !! address, read_bytes mem (address + 1) n' with
      | Some b, Some bs => Some (b :: bs)
      | _, _ => None
      end
  end.

(** [Process::Read(const void* address, size_t length, void* output)] *)
Definition Read_length (mem : Memory) (address : Z) (length : Z) : option (list byte) :=
  if length =? 0 then None else read_bytes mem address (Z.to_nat length).

(** The loop of [Process::ReadNulTerminatedString], [fuel] rounds of it at
    most; [None] when the rounds do not suffice. *)
Fixpoint ReadNulTerminatedString_loop (fuel : nat) (mem : Memory)
    (address offset maximumLength : Z) (data : list byte) : option cstring :=
  match fuel with
  | O => None
  | S fuel' =>
      match read_bytes mem (address + offset) 1 with
      | Some [character] =>
          let data' := data ++ [character] in
          if byte_to_Z character =? 0 then Some data'
          else
            let offset' := offset + 1 in
            if negb (maximumLength =? 0) && (offset' >=? maximumLength)
            then Some (data' ++ [Byte.x00])
            else ReadNulTerminatedString_loop fuel' mem address offset' maximumLength data'
      | _ => Some []
      end
  end.

(** [Process::ReadNulTerminatedString].  Each round reads a further
    address, so the loop ends within as many rounds as the memory has
    readable bytes, plus one (lemma [ReadNulTerminatedString_loop_total]). *)
Definition ReadNulTerminatedString (mem : Memory) (address maximumLength : Z) : cstring :=
  default [] (ReadNulTerminatedString_loop (S (size mem)) mem address 0 maximumLength []).

(** [String::Contains]: [in.find(find, 0) != npos] *)
Fixpoint Contains (s find : cstring) : bool :=
  bool_decide (take (length find) s = find) ||
  match s with
  | [] => false
  | _ :: s' => Contains s' find
  end.

Definition std_exception : cstring := ascii_bytes "std::exception".

(** The characters of a [std::string] up to the first NUL ([c_str] read as
    a C string). *)
Fixpoint c_str (s : cstring) : cstring :=
  match s with
  | [] => []
  | b :: s' => if byte_to_Z b =? 0 then [] else b :: c_str s'
  end.

Definition to_int32 (v : Z) : Z :=
  let m := v mod 2 ^ 32 in if m <? 2 ^ 31 then m else m - 2 ^ 32.

Definition wrap64 (v : Z) : Z := v mod 2 ^ 64.

(** A 32-bit [int] member at [offset] of a struct read from the debuggee. *)
Definition int_at (bs : list byte) (offset : nat) : Z :=
  to_int32 (le_decode (take 4 (drop offset bs))).

(** The sizes and member offsets of the structs of ExceptionRtti.hpp
    ([#pragma pack(4)], [TypeDescriptor64] packed to 8). *)
Definition sizeof_ThrowInfo : nat := 16.
Definition offsetof_pCatchableTypeArray : nat := 12.
Definition sizeof_CatchableType : nat := 28.
Definition offsetof_pType : nat := 4.
Definition sizeof_TypeDescriptor64 : nat := 16.
Definition offsetof_name64 : nat := 16.
Definition sizeof_TypeDescriptor32 : nat := 8.

(** The members of [ExceptionRunTimeTypeInformation] the decoder fills. *)
Record Info := {
  m_ExceptionTypeNames : list cstring;
  m_ExceptionMessage : option cstring;
  m_ThrowImagePath : option wstring
}.

(** A [noexcept] member function returns, or an exception raised inside
    it ends the program. *)
Inductive Outcome :=
| Returned (r : Info)
| Terminated.

Section Decoder.
(** [std::type_info::name()] on the rebuilt descriptor: the demangler of
    the C++ runtime, applied to the decorated name. *)
Variable demangle : cstring -> cstring.
Variable mem : Memory.
Variable m_LoadedModules : ModuleCollection.

Definition add_name (r : Info) (name : cstring) : Info := {|
  m_ExceptionTypeNames := m_ExceptionTypeNames r ++ [name];
  m_ExceptionMessage := m_ExceptionMessage r;
  m_ThrowImagePath := m_ThrowImagePath r |}.

Definition set_message (r : Info) (message : cstring) : Info := {|
  m_ExceptionTypeNames := m_ExceptionTypeNames r;
  m_ExceptionMessage := Some message;
  m_ThrowImagePath := m_ThrowImagePath r |}.

Definition initial (pThrowInfo : Z) : Info := {|
  m_ExceptionTypeNames := [];
  m_ExceptionMessage := None;
  m_ThrowImagePath := Modules.Path <$> GetModuleAtAddress m_LoadedModules pThrowInfo |}.

(** How the loop over the catchable types ends: all of them processed, or
    left by a [return]. *)
Inductive LoopEnd :=
| Completed (r : Info) (containsStdException : bool)
| Aborted (r : Info).

(** [typeArrayBufferLength]: [size_t] arithmetic on the [int] count. *)
Definition typeArrayBufferLength (typeArraySize : Z) : Z :=
  wrap64 (wrap64 typeArraySize * 4 + 4).

(** A [std::vector<char>] of more than [PTRDIFF_MAX] elements cannot be
    made: its constructor throws. *)
Definition vector_max_size : Z := 2 ^ 63 - 1.

(** *** Process64 *)

Definition rva_to_va (pThrowImageBase offset : Z) : Z :=
  wrap64 (pThrowImageBase + wrap64 offset).

(** One round of the loop of [Process64] for the array element [rva];
    [None] stands for [return]. *)
Definition catchable_type64 (pThrowImageBase : Z) (rva : Z) : option cstring :=
  let catchableTypeAddress := rva_to_va pThrowImageBase rva in
  if catchableTypeAddress =? 0 then None
  else
    match read_bytes mem catchableTypeAddress sizeof_CatchableType with
    | None => None
    | Some catchableType =>
        let pType := int_at catchableType offsetof_pType in
        let typeDescriptorAddress := rva_to_va pThrowImageBase pType in
        let typeNameAddress :=
          rva_to_va pThrowImageBase (pType + Z.of_nat offsetof_name64) in
        if (typeDescriptorAddress =? 0) || (typeNameAddress =? 0) then None
        else
          match read_bytes mem typeDescriptorAddress sizeof_TypeDescriptor64 with
          | None => None
          | Some _ =>
              let decoratedName := ReadNulTerminatedString mem typeNameAddress 0 in
              if bool_decide (decoratedName = []) then None
              else Some (demangle (c_str decoratedName))
          end
    end.

Fixpoint types_loop (one : Z -> option cstring) (rvas : list Z) (r : Info)
    (containsStdException : bool) : LoopEnd :=
  match rvas with
  | [] => Completed r containsStdException
  | rva :: rest =>
      match one rva with
      | None => Aborted r
      | Some name =>
          types_loop one rest (add_name r name)
            (if containsStdException then true else Contains name std_exception)
      end
  end.

(** The elements [arrayOfCatchableTypes[0 .. n-1]] of the array read
    into [typeArrayBuffer]. *)
Definition array_elements (typeArrayBuffer : list byte) (n : Z) : list Z :=
  map (fun i => int_at typeArrayBuffer (4 + 4 * i)) (seq 0 (Z.to_nat n)).

(** The tail of both decoders: the message of a [std::exception]. *)
Definition what_message (r : Info) (what : option Z) : Info :=
  match what with
  | Some p =>
      if p =? 0 then r
      else
        let message := ReadNulTerminatedString mem p 1024 in
        if bool_decide (message = []) then r else set_message r message
  | None => r
  end.

(** How far the decoder gets with the chain of catchable types: it
    returns before the loop, it is ended by the exception of the vector
    constructor, or it runs the loop. *)
Inductive Chain :=
| NoLoop (r : Info)
| VectorThrows
| Loop (e : LoopEnd).

Definition chain64 (ExceptionInformation : list Z) : Chain :=
  let pThrowInfo := nth 2 ExceptionInformation 0 in
  let pThrowImageBase := nth 3 ExceptionInformation 0 in
  let r0 := initial pThrowInfo in
  if pThrowInfo =? 0 then NoLoop r0
  else
    match read_bytes mem pThrowInfo sizeof_ThrowInfo with
    | None => NoLoop r0
    | Some throwInfo =>
        let typeArrayAddress :=
          rva_to_va pThrowImageBase (int_at throwInfo offsetof_pCatchableTypeArray) in
        if typeArrayAddress =? 0 then NoLoop r0
        else
          match read_bytes mem typeArrayAddress 4 with
          | None => NoLoop r0
          | Some count =>
              let typeArraySize := to_int32 (le_decode count) in
              let length := typeArrayBufferLength typeArraySize in
              if vector_max_size <? length then VectorThrows
              else
                match Read_length mem typeArrayAddress length with
                | None => NoLoop r0
                | Some typeArrayBuffer =>
                    Loop (types_loop (catchable_type64 pThrowImageBase)
                            (array_elements typeArrayBuffer typeArraySize) r0 false)
                end
          end
    end.

(** The pointer at the second word of the exception object, as the
    64-bit decoder reads it. *)
Definition what64 (ExceptionInformation : list Z) : option Z :=
  let pExceptionObject := nth 1 ExceptionInformation 0 in
  le_decode <$> read_bytes mem (wrap64 (pExceptionObject + 8)) 8.

Definition Process64 (ExceptionInformation : list Z) : Outcome :=
  match chain64 ExceptionInformation with
  | NoLoop r => Returned r
  | VectorThrows => Terminated
  | Loop (Aborted r) => Returned r
  | Loop (Completed r containsStdException) =>
      if containsStdException
      then Returned (what_message r (what64 ExceptionInformation))
      else Returned r
  end.

(** *** Process32: the members are 32-bit addresses, made pointers of
    the 64-bit build through [uintptr_t] *)

Definition va32 (v : Z) : Z := wrap64 v.

Definition catchable_type32 (va : Z) : option cstring :=
  let catchableTypeAddress := va32 va in
  if catchableTypeAddress =? 0 then None
  else
    match read_bytes mem catchableTypeAddress sizeof_CatchableType with
    | None => None
    | Some catchableType =>
        let pType := int_at catchableType offsetof_pType in
        let typeDescriptorAddress := va32 pType in
        let typeNameAddress := wrap64 (va32 pType + Z.of_nat sizeof_TypeDescriptor32) in
        if (typeDescriptorAddress =? 0) || (typeNameAddress =? 0) then None
        else
          match read_bytes mem typeDescriptorAddress sizeof_TypeDescriptor32 with
          | None => None
          | Some _ =>
              let decoratedName := ReadNulTerminatedString mem typeNameAddress 0 in
              if bool_decide (decoratedName = []) then None
              else Some (demangle (c_str decoratedName))
          end
    end.

Definition chain32 (ExceptionInformation : list Z) : Chain :=
  let pThrowInfo := nth 2 ExceptionInformation 0 in
  let r0 := initial pThrowInfo in
  if pThrowInfo =? 0 then NoLoop r0
  else
    match read_bytes mem pThrowInfo sizeof_ThrowInfo with
    | None => NoLoop r0
    | Some throwInfo =>
        let typeArrayAddress := va32 (int_at throwInfo offsetof_pCatchableTypeArray) in
        if typeArrayAddress =? 0 then NoLoop r0
        else
          match read_bytes mem typeArrayAddress 4 with
          | None => NoLoop r0
          | Some count =>
              let typeArraySize := to_int32 (le_decode count) in
              let length := typeArrayBufferLength typeArraySize in
              if vector_max_size <? length then VectorThrows
              else
                match Read_length mem typeArrayAddress length with
                | None => NoLoop r0
                | Some typeArrayBuffer =>
                    Loop (types_loop catchable_type32
                            (array_elements typeArrayBuffer typeArraySize) r0 false)
                end
          end
    end.

(** The pointer at the second word of the exception object, as the
    32-bit decoder reads it: an [int], made a pointer. *)
Definition what32 (ExceptionInformation : list Z) : option Z :=
  let pExceptionObject := nth 1 ExceptionInformation 0 in
  (fun bs => va32 (to_int32 (le_decode bs))) <$>
    read_bytes mem (wrap64 (pExceptionObject + 4)) 4.

Definition Process32 (ExceptionInformation : list Z) : Outcome :=
  match chain32 ExceptionInformation with
  | NoLoop r => Returned r
  | VectorThrows => Terminated
  | Loop (Aborted r) => Returned r
  | Loop (Completed r containsStdException) =>
      if containsStdException
      then Returned (what_message r (what32 ExceptionInformation))
      else Returned r
  end.

End Decoder.
End Rtti.

(** ** Notions the statements below are written with *)

Module Notions.
Import Packed BinaryLog Sink.
Section WithPlatform.
Context `{Platform}.

(** The calls that stand for a debug event: every method of the sink
    but the first and the last of a session. *)
Definition is_event (c : Call) : bool :=
  match c with
  | OnInitialization _ _ => false
  | OnModuleCollectionComplete _ _ => false
  | _ => true
  end.

(** A session of the writer: [OnInitialization], then events, then
    [OnModuleCollectionComplete]; every call comes with the clock
    reading taken while the writer handles it. *)
Definition session (t0 : Z) (p : Process.Process) (events : list (Z * Call))
    (t1 : Z) (collection : ModuleCollection) : list (Z * Call) :=
  (t0, OnInitialization t0 p) :: events ++ [(t1, OnModuleCollectionComplete t1 collection)].

(** The log file a session leaves behind, when every call of it has a
    defined result. *)
Definition log_of (calls : list (Z * Call)) : option (list byte) :=
  Writer.m_Stream <$> Writer.run calls Writer.new.

(** A file that is a header of this version followed by a body whose
    checksum the header holds. *)
Definition sealed (file : list byte) : Prop :=
  exists h body,
    file = FileHeader.bytes h ++ body /\
    FileHeader.Version h = Version.hindsight_version_int /\
    FileHeader.Crc32 h = Crc32.Update body 0.

(** The writer between [OnInitialization] and
    [OnModuleCollectionComplete]: the put position is the end of the
    file, the file starts with the header as first written, and the
    header in memory holds the checksum of the body so far. *)
Definition writing (w : Writer.Writer) : Prop :=
  Writer.m_Pos w = length (Writer.m_Stream w) /\
  take (sizeof FileHeader.layout) (Writer.m_Stream w)
    = FileHeader.bytes (Writer.set_Crc32 (Writer.m_Header w) 0) /\
  FileHeader.Version (Writer.m_Header w) = Version.hindsight_version_int /\
  FileHeader.Crc32 (Writer.m_Header w)
    = Crc32.Update (drop (sizeof FileHeader.layout) (Writer.m_Stream w)) 0.

(** What a member function of the replayer guarantees: started in a
    state with [P], it returns with [Q] or stops with [R]. *)
Definition spec {A} (P : Player.Player -> Prop) (m : Player.M A)
    (Q : A -> Player.Player -> Prop) (R : Player.Stop -> Player.Player -> Prop) : Prop :=
  forall p, P p ->
    match m p with
    | Player.Ok a p' => Q a p'
    | Player.Halt s p' => R s p'
    end.

(** The state of the replayer while it plays the file [S] with header
    [hdr]: the stream has been read up to a position of at least
    [lo + d], of which the last [d] bytes were only looked at, and the
    running checksum is that of the body up to there. *)
Definition playing (S : list byte) (hdr : FileHeader.t) (lo d : nat)
    (p : Player.Player) : Prop :=
  Player.m_Stream p = S /\
  Player.m_StreamSize p = length S /\
  Player.m_Header p = hdr /\
  (sizeof FileHeader.layout + d <= Player.m_Pos p)%nat /\
  (lo + d <= Player.m_Pos p)%nat /\
  (Player.m_Pos p <= length S)%nat /\
  Player.m_Crc32 p
    = Crc32.Update (take (Player.m_Pos p - d - sizeof FileHeader.layout)
                         (drop (sizeof FileHeader.layout) S)) 0.

Definition fuelled (s : Player.Stop) (_ : Player.Player) : Prop :=
  s <> Player.OutOfFuel.

(** A member function that reads at least [n] bytes, and one that keeps
    the state of playing. *)
Definition advances {A} (n : nat) (m : Player.M A) : Prop :=
  forall S hdr lo,
    spec (playing S hdr lo 0) m (fun _ => playing S hdr (lo + n) 0) fuelled.

Definition keeps {A} (m : Player.M A) : Prop := advances 0 m.

End WithPlatform.
End Notions.

Module Opened.
Import Packed BinaryLog.
Section WithPlatform.
Context `{Platform}.

(** The replayer as the constructor leaves it when it accepts [file]. *)
Definition opened (file : list byte) (state : Player.State) : Player.Player := {|
  Player.m_Stream := file;
  Player.m_Pos := sizeof FileHeader.layout;
  Player.m_StreamSize := length file;
  Player.m_State := state;
  Player.m_ShouldFilter := negb (bool_decide (Player.ReplayEventFilter state = []));
  Player.m_Filter := list_to_set (Player.ReplayEventFilter state);
  Player.m_Header := FileHeader.of_bytes (take (sizeof FileHeader.layout) file);
  Player.m_Crc32 := 0;
  Player.m_Handlers := [];
  Player.m_Modules := Modules.empty;
  Player.calls := [];
  Player.keys := []
|}.

(** [player.AddHandler(...)] for each sink in turn. *)
Definition attach (handlers : list Sink.Handler) (p : Player.Player) : Player.Player :=
  foldl (fun p handler => Player.AddHandler handler p) p handlers.
End WithPlatform.
End Opened.

(** ** Sample inputs *)

Module Samples.
Import Packed BinaryLog Sink Notions Opened.
Local Open Scope string_scope.
Local Open Scope list_scope.

(** The sizes of [CONTEXT] and [WOW64_CONTEXT] in a 64-bit build; no
    message table and no exception names. *)
#[local] Instance win64 : Platform := {|
  sizeof_CONTEXT := 1232;
  sizeof_WOW64_CONTEXT := 716;
  FormatMessageW := fun _ => [];
  ExceptionNames := []
|}.

Definition pi0 : PROCESS_INFORMATION := {|
  Windows.hProcess := 0x100; Windows.hThread := 0x104;
  Windows.dwProcessId := 0x1234; Windows.dwThreadId := 0x5678 |}.

Definition checked : Player.State := {|
  Player.BreakOnBreakpoints := false; Player.BreakOnExceptions := false;
  Player.BreakOnFirstChanceOnly := false; Player.NoSanityCheck := false;
  Player.ReplayEventFilter := [] |}.

Definition unchecked : Player.State := {|
  Player.BreakOnBreakpoints := false; Player.BreakOnExceptions := false;
  Player.BreakOnFirstChanceOnly := false; Player.NoSanityCheck := true;
  Player.ReplayEventFilter := [] |}.

(** *** A session with one module *)

Definition app : Process.Process := Process.make pi0 (ascii_bytes "C:\app.exe") [] [].
Definition k_dll : wstring := wide "C:\k.dll".
Definition k_base : Z := 0x7FF000000000.
Definition loaded : ModuleCollection := Load Modules.empty k_dll k_base 0x10000.

Definition one_module : list (Z * Call) :=
  session 1700000000 app
    [ (1700000001, OnDllLoad 1700000001 {| ld_lpBaseOfDll := k_base |} pi0 k_dll 0 loaded);
      (1700000002, OnExitProcess 1700000002 {| ep_dwExitCode := 0 |} pi0 loaded) ]
    1700000003 loaded.

Definition one_module_file : list byte :=
  Eval vm_compute in default [] (log_of one_module).

(** A live debugger with two sinks and the module loaded. *)
Definition two_sinks : Pump.Debugger := {|
  Pump.m_LoadedModules := loaded;
  Pump.m_Handlers := [0%nat; 1%nat];
  Pump.calls := []
|}.

(** A replayer with one sink, the module loaded and the filter
    [--filter load_dll]. *)
Definition only_load_dll : Player.State := {|
  Player.BreakOnBreakpoints := false; Player.BreakOnExceptions := false;
  Player.BreakOnFirstChanceOnly := false; Player.NoSanityCheck := false;
  Player.ReplayEventFilter := ["load_dll"] |}.

Definition filtering : Player.Player :=
  Player.with_Modules loaded (attach [0%nat] (opened one_module_file only_load_dll)).

(** The place of the last byte of the path of the module in the file:
    after the header, the path of the program, the entry of the event and
    the fifteen bytes of the path before it. *)
Definition last_of_path : nat :=
  sizeof FileHeader.layout + length (Process.Path app)
  + sizeof DllLoadEventEntry.layout + 15.

Definition one_module_tampered : list byte :=
  <[last_of_path := Byte.x01]> one_module_file.

(** The path as the sinks get it from the tampered file. *)
Definition k_dll_tampered : wstring :=
  <[7%nat := (Byte.x6c, Byte.x01)]> k_dll.

(** The paths of the modules the sinks were told of. *)
Definition loaded_paths (calls : list (Handler * Call)) : list wstring :=
  omap (fun hc => match hc.2 with
                  | OnDllLoad _ _ _ path _ _ => Some path
                  | _ => None
                  end) calls.

(** The replayer after the events of the tampered file, one sink
    attached. *)
Definition one_module_played : Player.Player :=
  Eval vm_compute in
    match Player.Play_events 1700000100 (attach [0%nat] (opened one_module_tampered unchecked)) with
    | Player.Ok _ p => p
    | Player.Halt _ p => p
    end.

(** *** A session of a program started with one empty argument *)

Definition app_empty_argument : Process.Process :=
  Process.make pi0 (ascii_bytes "C:\app.exe") [] [[]].

Definition empty_argument : list (Z * Call) :=
  session 1700000000 app_empty_argument [] 1700000003 Modules.empty.

Definition empty_argument_file : list byte :=
  Eval vm_compute in default [] (log_of empty_argument).

(** *** An exception in a 32-bit program *)



(** *** Frames of a stack walk *)

(** No symbols, no lines, no memory to disassemble. *)
#[local] Instance bare : Trace.Services := {|
  Trace.SymFromAddr := fun _ => None;
  Trace.SymGetLineFromAddrW64 := fun _ => None;
  Trace.ReadProcessMemory := fun _ _ => (false, []);
  Trace.distorm_decode := fun _ _ _ _ => []
|}.

(** A frame that returns to itself, and one that does not. *)
Definition looping (pc : Z) : Trace.STACKFRAME64 := {|
  Trace.AddrPC := pc; Trace.AddrReturn := pc;
  Trace.AddrFrame := 0x7000; Trace.AddrStack := 0x7000 |}.

Definition caller : Trace.STACKFRAME64 := {|
  Trace.AddrPC := 0x2000; Trace.AddrReturn := 0x3000;
  Trace.AddrFrame := 0x7100; Trace.AddrStack := 0x7100 |}.

(** *** A thrown [std::exception] in the memory of the debuggee *)

(** [bs] put into the memory from [address] on. *)
Fixpoint store (address : Z) (bs : list byte) (mem : Rtti.Memory) : Rtti.Memory :=
  match bs with
  | [] => mem
  | b :: bs' => <[address := b]> (store (address + 1) bs' mem)
  end.

Definition image : Z := 0x140000000.
Definition object : Z := 0x2000000.
Definition text : Z := 0x3000000.

Definition decorated : cstring := ascii_bytes ".?AVexception@std@@".

Definition demangle (name : cstring) : cstring :=
  if bool_decide (name = decorated) then ascii_bytes "class std::exception" else name.

(** The throw information of an image at [image], with [count] catchable
    types in its array: the first one is [std::exception], a second one is
    at a place that cannot be read. *)
Definition thrown (count : Z) : Rtti.Memory :=
  store (image + 0x1000) (le_encode 12 0 ++ le_encode 4 0x2000)
    (store (image + 0x2000) (le_encode 4 count ++ le_encode 4 0x3000 ++ le_encode 4 0x9000)
      (store (image + 0x3000) (le_encode 4 0 ++ le_encode 4 0x4000 ++ le_encode 20 0)
        (store (image + 0x4000) (le_encode 16 0 ++ decorated ++ [Byte.x00])
          (store object (le_encode 8 0 ++ le_encode 8 text)
            (store text (ascii_bytes "boom" ++ [Byte.x00]) ∅))))).

Definition parameters : list Z := [0x19930520; object; image + 0x1000; image].

(** What the decoder makes of [thrown 1]. *)
Definition decoded : Rtti.Info := {|
  Rtti.m_ExceptionTypeNames := [ascii_bytes "class std::exception"];
  Rtti.m_ExceptionMessage := Some (ascii_bytes "boom" ++ [Byte.x00]);
  Rtti.m_ThrowImagePath := None |}.

(** What it makes of [thrown 2], where the second type cannot be read. *)
Definition undecoded : Rtti.Info := {|
  Rtti.m_ExceptionTypeNames := [ascii_bytes "class std::exception"];
  Rtti.m_ExceptionMessage := None;
  Rtti.m_ThrowImagePath := None |}.

End Samples.

(** ** String.cpp and Launcher.cpp: strings *)

Module StringUtil.
Section Chars.
(** The characters of a [std::string] or of a [std::wstring]. *)
Context {char : Type} `{EqDecision char}.

(** [s.find(pattern)]: the place of the first occurrence. *)
Fixpoint find (s pattern : list char) : option nat :=
  if bool_decide (take (length pattern) s = pattern) then Some 0%nat
  else match s with
       | [] => None
       | _ :: s' => S <$> find s' pattern
       end.

(** [s.find(pattern, pos)]: the first occurrence at or after [pos]. *)
Definition find_at (s pattern : list char) (pos : nat) : option nat :=
  if (pos <=? length s)%nat
  then (fun i => (pos + i)%nat) <$> find (drop pos s) pattern
  else None.

(** [s.replace(pos, len, to)], for a [pos] within the string. *)
Definition replace (s : list char) (pos len : nat) (to : list char) : list char :=
  take pos s ++ to ++ drop (pos + len) s.

(** [String::Replace] *)
Definition Replace (str from to : list char) : list char :=
  match find str from with
  | None => str
  | Some start_pos => replace str start_pos (length from) to
  end.

(** The loop of [String::ReplaceAll], [fuel] rounds of it at most. *)
Fixpoint ReplaceAll_loop (fuel : nat) (result : list char) (start_pos : nat)
    (from to : list char) : option (list char) :=
  match fuel with
  | O => None
  | S fuel' =>
      match find_at result from start_pos with
      | None => Some result
      | Some found =>
          ReplaceAll_loop fuel' (replace result found (length from) to)
            (found + length to) from to
      end
  end.

(** [String::ReplaceAll].  Every round leaves less of the string to
    search, so one round more than the string has characters is enough. *)
Definition ReplaceAll (str from to : list char) : list char :=
  if bool_decide (from = []) then str
  else default str (ReplaceAll_loop (S (length str)) str 0 from to).

(** [String::Join]: [std::accumulate] from the empty string. *)
Definition Join (list_ : list (list char)) (separator : list char) : list char :=
  foldl (fun a b => a ++ (if (0 <? length a)%nat then separator else []) ++ b) [] list_.

(** [String::PadLeft] and [String::PadRight] *)
Definition PadLeft (input : list char) (count : nat) (ch : char) : list char :=
  if (count <=? length input)%nat then input
  else replicate (count - length input) ch ++ input.

Definition PadRight (input : list char) (count : nat) (ch : char) : list char :=
  if (count <=? length input)%nat then input
  else input ++ replicate (count - length input) ch.

(** [std::isspace] or [std::iswspace] of the C runtime, on a character. *)
Variable isspace : char -> bool.

(** [String::TrimLeft]: erased up to the first character that is not
    white space. *)
Fixpoint TrimLeft (input : list char) : list char :=
  match input with
  | [] => []
  | ch :: rest => if isspace ch then TrimLeft rest else input
  end.

(** [String::TrimRight]: the same search over the reverse iterators. *)
Definition TrimRight (input : list char) : list char :=
  rev (TrimLeft (rev input)).

(** [String::Trim] *)
Definition Trim (input : list char) : list char := TrimRight (TrimLeft input).

End Chars.

(** [Launcher::GetArgumentString]; [x22] is the double quote and [x5c]
    the backslash. *)
Definition GetArgumentString (arguments : list cstring) : cstring :=
  let escaped :=
    map (fun a => ReplaceAll a [Byte.x22] [Byte.x5c; Byte.x22]) arguments in
  foldl (fun a b => a ++ (if (0 <? length a)%nat then ascii_bytes " " else []) ++ b)
        [] escaped.

End StringUtil.

(** ** The replayer while it reads *)

Module Replayed.
Import Packed BinaryLog Sink.
Section WithPlatform.
Context `{Platform}.

(** The replayer after it has read [data] from the stream, with the
    checksum. *)
Definition read_past (data : list byte) (p : Player.Player) : Player.Player :=
  Player.with_Crc32 (Crc32.Update data (Player.m_Crc32 p))
    (Player.with_pos (Player.m_Pos p + length data) p).

(** An argument as [OnInitialization] should write it: its length as a
    [uint32_t], then its characters. *)
Definition prefixed (s : cstring) : list byte :=
  le_encode 4 (Z.of_nat (length s)) ++ s.

(** The header [OnInitialization] writes first. *)
Definition first_header (now : Z) (pi : Process.Process) : FileHeader.t := {|
  FileHeader.Signature := FileHeader.Signature FileHeader.init;
  FileHeader.Version := FileHeader.Version FileHeader.init;
  FileHeader.ProcessId := Process.dwProcessId pi;
  FileHeader.ThreadId := Process.dwThreadId pi;
  FileHeader.PathLength := Z.of_nat (length (Process.Path pi));
  FileHeader.WorkingDirectoryLength := Z.of_nat (length (Process.WorkingDirectory pi));
  FileHeader.Arguments := Z.of_nat (length (Process.Arguments pi));
  FileHeader.StartTime := now;
  FileHeader.Crc32 := 0
|}.

End WithPlatform.
End Replayed.

(** ** The replayer without the break options *)

Module Quiet.
Import Packed BinaryLog Sink Notions.
Section WithPlatform.
Context `{Platform}.

(** A replayer started without [--break-breakpoint] and
    [--break-exception]. *)
Definition quiet (p : Player.Player) : Prop :=
  Player.BreakOnBreakpoints (Player.m_State p) = false /\
  Player.BreakOnExceptions (Player.m_State p) = false.

(** A stop that does not come from [HandleBreakpointOptions]. *)
Definition raised (s : Player.Stop) (_ : Player.Player) : Prop :=
  match s with
  | Player.Exit _ | Player.AwaitKey => False
  | Player.Throw _ | Player.OutOfFuel => True
  end.

(** A member function that, in such a replayer, neither waits for a key
    nor ends the program. *)
Definition calm {A} (m : Player.M A) : Prop :=
  spec quiet m (fun _ => quiet) raised.

End WithPlatform.
End Quiet.

(** ** Further sample inputs *)

Module Inputs.
Import Packed BinaryLog Sink Notions Opened Samples.
Local Open Scope string_scope.
Local Open Scope list_scope.

(** The replayer after the events of the file of the sample session, one
    sink attached. *)
Definition one_module_replayed : Player.Player :=
  Eval vm_compute in
    match Player.Play_events 1700000100 (attach [0%nat] (opened one_module_file checked)) with
    | Player.Ok _ p => p
    | Player.Halt _ p => p
    end.

(** The LoadDll entry of the file of the sample session, and the replayer
    with one sink at the path that follows the entry: after the header,
    the path of the program and the entry. *)
Definition load_entry : DllLoadEventEntry.t :=
  DllLoadEventEntry.of_bytes
    (take (sizeof DllLoadEventEntry.layout)
       (drop (sizeof FileHeader.layout + length (Process.Path app)) one_module_file)).

Definition at_entry : Player.Player :=
  Player.with_pos (sizeof FileHeader.layout + length (Process.Path app))
    (attach [0%nat] (opened one_module_file checked)).

Definition at_path : Player.Player :=
  Player.with_pos
    (sizeof FileHeader.layout + length (Process.Path app) + sizeof DllLoadEventEntry.layout)
    (attach [0%nat] (opened one_module_file checked)).

(** The memory of a debuggee that throws a [std::exception] whose type
    descriptor lies just below 2 GiB from the base of the image, its name
    just above. *)
Definition thrown_far : Rtti.Memory :=
  store (image + 0x1000) (le_encode 12 0 ++ le_encode 4 0x2000)
    (store (image + 0x2000) (le_encode 4 1 ++ le_encode 4 0x3000)
      (store (image + 0x3000) (le_encode 4 0 ++ le_encode 4 0x7FFFFFF8 ++ le_encode 20 0)
        (store (image + 0x7FFFFFF8) (le_encode 16 0 ++ decorated ++ [Byte.x00])
          (store object (le_encode 8 0 ++ le_encode 8 text)
            (store text (ascii_bytes "boom" ++ [Byte.x00]) ∅))))).

(** A session without events of a program with two arguments. *)
Definition app_verbose : Process.Process :=
  Process.make pi0 (ascii_bytes "C:\app.exe") (ascii_bytes "C:\work")
    [ascii_bytes "-v"; ascii_bytes "log.txt"].

Definition verbose_file : list byte :=
  Eval vm_compute in
    default [] (log_of (session 1700000000 app_verbose [] 1700000003 Modules.empty)).

(** The header of a session of the sample program. *)
Definition header : FileHeader.t := {|
  FileHeader.Signature := ascii_bytes "HIND";
  FileHeader.Version := Version.hindsight_version_int;
  FileHeader.ProcessId := 0x1234;
  FileHeader.ThreadId := 0x5678;
  FileHeader.PathLength := 10;
  FileHeader.WorkingDirectoryLength := 0;
  FileHeader.Arguments := 0;
  FileHeader.StartTime := 1700000000;
  FileHeader.Crc32 := 0
|}.

End Inputs.

(* ===================================================================== *)
(** * Properties *)
(* ===================================================================== *)

(** ** Bytes *)

Section ByteFacts.

Lemma byte_to_Z_range (b : byte) : 0 <= byte_to_Z b < 256.
Proof.
  unfold byte_to_Z. pose proof (Byte.to_N_bounded b) as H.
  lia.
Qed.

Lemma byte_to_Z_inj (a b : byte) : byte_to_Z a = byte_to_Z b -> a = b.
Proof.
  unfold byte_to_Z. intros H. apply N2Z.inj in H.
  pose proof (Byte.of_to_N a) as Ha. pose proof (Byte.of_to_N b) as Hb.
  rewrite H in Ha. congruence.
Qed.

Lemma byte_to_Z_to_byte (z : Z) : byte_to_Z (Z_to_byte z) = z mod 256.
Proof.
  unfold Z_to_byte, byte_to_Z.
  pose proof (Z.mod_pos_bound z 256 ltac:(lia)) as Hr.
  destruct (Byte.of_N (Z.to_N (z mod 256))) as [b|] eqn:E.
  - apply Byte.to_of_N in E. rewrite E. lia.
  - apply Byte.of_N_None_iff in E. lia.
Qed.

Lemma Z_to_byte_to_Z (b : byte) : Z_to_byte (byte_to_Z b) = b.
Proof.
  apply byte_to_Z_inj. rewrite byte_to_Z_to_byte.
  apply Z.mod_small, byte_to_Z_range.
Qed.

Lemma le_encode_length w v : length (le_encode w v) = w.
Proof. revert v; induction w; simpl; intros; [done | by rewrite IHw]. Qed.

Lemma le_decode_encode w v :
  le_decode (le_encode w v) = v mod 2 ^ (8 * Z.of_nat w).
Proof.
  revert v; induction w as [|w IH]; intros v.
  - simpl. by rewrite Z.mod_1_r.
  - cbn [le_encode le_decode]. rewrite IH, byte_to_Z_to_byte.
    rewrite Z.shiftr_div_pow2 by lia.
    replace (8 * Z.of_nat (S w)) with (8 + 8 * Z.of_nat w) by lia.
    rewrite Z.pow_add_r by lia.
    change (2 ^ 8) with 256.
    rewrite (Z.rem_mul_r v 256 (2 ^ (8 * Z.of_nat w))) by lia.
    lia.
Qed.

Lemma le_decode_range bs : 0 <= le_decode bs < 2 ^ (8 * Z.of_nat (length bs)).
Proof.
  induction bs as [|b bs IH]; [simpl; lia|].
  cbn [le_decode length]. pose proof (byte_to_Z_range b).
  replace (8 * Z.of_nat (S (length bs))) with (8 + 8 * Z.of_nat (length bs)) by lia.
  rewrite Z.pow_add_r by lia. change (2 ^ 8) with 256. nia.
Qed.

Lemma le_decode_encode_small w v :
  0 <= v < 2 ^ (8 * Z.of_nat w) -> le_decode (le_encode w v) = v.
Proof. intros H. rewrite le_decode_encode. by apply Z.mod_small. Qed.

Lemma wstring_bytes_length (s : wstring) :
  length (wstring_bytes s) = (2 * length s)%nat.
Proof. induction s as [|[lo hi] s IH]; simpl; [done | lia]. Qed.

Lemma bytes_wstring_bytes (s : wstring) : bytes_wstring (wstring_bytes s) = s.
Proof. induction s as [|[lo hi] s IH]; simpl; [done | by rewrite IH]. Qed.

End ByteFacts.

(** ** CRC-32 *)

Section Crc32Facts.
Import Crc32.

Lemma u32_shiftr c : u32 c <-> 0 <= c /\ Z.shiftr c 32 = 0.
Proof.
  unfold u32. rewrite Z.shiftr_div_pow2 by lia. split.
  - intros H. split; [lia|]. apply Z.div_small. lia.
  - intros [H0 H]. split; [done|].
    apply Z.div_small_iff in H; lia.
Qed.

Lemma lxor_u32 a b : u32 a -> u32 b -> u32 (Z.lxor a b).
Proof.
  rewrite !u32_shiftr. intros [Ha Ha'] [Hb Hb']. split.
  - by apply Z.lxor_nonneg.
  - by rewrite Z.shiftr_lxor, Ha', Hb'.
Qed.

Lemma shiftr_u32 c n : 0 <= n -> u32 c -> u32 (Z.shiftr c n).
Proof.
  unfold u32. intros Hn [H0 H1]. rewrite Z.shiftr_div_pow2 by done.
  assert (0 < 2 ^ n) by (apply Z.pow_pos_nonneg; lia).
  split; [by apply Z.div_pos|].
  apply Z.le_lt_trans with c; [|done].
  apply Z.div_le_upper_bound; [done|]. nia.
Qed.

Lemma Default_length : length Default = 256%nat.
Proof. reflexivity. Qed.

Lemma Default_u32 : Forall u32 Default.
Proof.
  apply Forall_forall. intros x Hx.
  assert (Hb : forallb (fun x => (0 <=? x) && (x <? 2 ^ 32)) Default = true)
    by (vm_compute; reflexivity).
  rewrite forallb_forall in Hb. specialize (Hb x).
  unfold u32. apply list_elem_of_In in Hx. specialize (Hb Hx). lia.
Qed.

Lemma nth_Default_u32 i : u32 (nth i Default 0).
Proof.
  destruct (Nat.lt_ge_cases i (length Default)) as [Hi|Hi].
  - pose proof Default_u32 as H. rewrite Forall_forall in H.
    apply H, list_elem_of_In, nth_In, Hi.
  - rewrite nth_overflow by done. unfold u32; lia.
Qed.

Lemma top_byte_inj i j :
  (i < 256)%nat -> (j < 256)%nat -> top_byte i = top_byte j -> i = j.
Proof.
  intros Hi Hj Heq.
  assert (Hb : forallb (fun i => forallb (fun j =>
                 implb (top_byte i =? top_byte j) (Nat.eqb i j))
                 (seq 0 256)) (seq 0 256) = true)
    by (vm_compute; reflexivity).
  rewrite forallb_forall in Hb.
  specialize (Hb i ltac:(apply in_seq; lia)).
  rewrite forallb_forall in Hb.
  specialize (Hb j ltac:(apply in_seq; lia)).
  apply Z.eqb_eq in Heq. rewrite Heq in Hb. simpl in Hb.
  by apply Nat.eqb_eq.
Qed.

Lemma land_255 x : Z.land x 0xFF = x mod 256.
Proof. change 0xFF with (Z.ones 8). by rewrite Z.land_ones by lia. Qed.

Lemma index_lt c u : (index c u < 256)%nat.
Proof.
  unfold index. rewrite land_255.
  pose proof (Z.mod_pos_bound (Z.lxor c (byte_to_Z u)) 256 ltac:(lia)). lia.
Qed.

Lemma step_u32 c u : u32 c -> u32 (step Default c u).
Proof.
  intros Hc. unfold step. apply lxor_u32.
  - apply nth_Default_u32.
  - apply shiftr_u32; [lia | done].
Qed.

Lemma fold_step_u32 buf c : u32 c -> u32 (fold_left (step Default) buf c).
Proof.
  revert c; induction buf as [|u buf IH]; intros c Hc; [done|].
  simpl. apply IH, step_u32, Hc.
Qed.

Lemma Update_u32 buf initial : u32 initial -> u32 (Update buf initial).
Proof.
  intros Hi. unfold Update, Update_table.
  apply lxor_u32; [|unfold u32; lia].
  apply fold_step_u32, lxor_u32; [done | unfold u32; lia].
Qed.

Lemma lxor_mask_involutive c m : Z.lxor (Z.lxor c m) m = c.
Proof. by rewrite Z.lxor_assoc, Z.lxor_nilpotent, Z.lxor_0_r. Qed.

(** Feeding the data in pieces, each call resuming from the previous
    result, is the same as one call on the whole data. *)
Lemma Update_app a b initial :
  Update (a ++ b) initial = Update b (Update a initial).
Proof.
  unfold Update, Update_table.
  by rewrite fold_left_app, lxor_mask_involutive.
Qed.

Lemma Update_nil initial : Update [] initial = initial.
Proof. unfold Update, Update_table. simpl. apply lxor_mask_involutive. Qed.

Lemma step_top c u : u32 c -> Z.shiftr (step Default c u) 24 = top_byte (index c u).
Proof.
  intros Hc. unfold step, top_byte, index.
  rewrite Z.shiftr_lxor, Z.shiftr_shiftr by lia.
  apply u32_shiftr in Hc as [_ Hc]. change (8 + 24) with 32.
  by rewrite Hc, Z.lxor_0_r.
Qed.

Lemma split_low_byte c : c = 256 * Z.shiftr c 8 + Z.land c 0xFF.
Proof.
  rewrite land_255, Z.shiftr_div_pow2 by lia. change (2 ^ 8) with 256.
  apply Z.div_mod. lia.
Qed.

Lemma land_lxor_distr a b c :
  Z.land (Z.lxor a b) c = Z.lxor (Z.land a c) (Z.land b c).
Proof.
  apply Z.bits_inj'. intros n _.
  rewrite Z.land_spec, !Z.lxor_spec, !Z.land_spec.
  by destruct (Z.testbit a n), (Z.testbit b n), (Z.testbit c n).
Qed.

Lemma index_eq_low c1 c2 u1 u2 :
  index c1 u1 = index c2 u2 ->
  Z.lxor (Z.land c1 0xFF) (byte_to_Z u1) = Z.lxor (Z.land c2 0xFF) (byte_to_Z u2).
Proof.
  unfold index. intros H.
  apply Z2Nat.inj in H; try (rewrite land_255; apply Z.mod_pos_bound; lia).
  rewrite !land_lxor_distr in H.
  assert (Hu : forall u, Z.land (byte_to_Z u) 0xFF = byte_to_Z u).
  { intros u. rewrite land_255. apply Z.mod_small, byte_to_Z_range. }
  by rewrite !Hu in H.
Qed.

Lemma lxor_cancel_l a b c : Z.lxor a b = Z.lxor a c -> b = c.
Proof.
  intros H. apply (f_equal (Z.lxor a)) in H.
  by rewrite <- !Z.lxor_assoc, Z.lxor_nilpotent, !Z.lxor_0_l in H.
Qed.

Lemma lxor_cancel_r a b c : Z.lxor b a = Z.lxor c a -> b = c.
Proof. rewrite !(Z.lxor_comm _ a). apply lxor_cancel_l. Qed.

(** One table step is injective in the running state ... *)
Lemma step_inj_state c1 c2 u :
  u32 c1 -> u32 c2 -> step Default c1 u = step Default c2 u -> c1 = c2.
Proof.
  intros H1 H2 Heq.
  assert (Hi : index c1 u = index c2 u).
  { apply top_byte_inj; try apply index_lt.
    by rewrite <- !step_top, Heq by done. }
  unfold step in Heq. fold (index c1 u) (index c2 u) in Heq.
  rewrite Hi in Heq. apply lxor_cancel_l in Heq.
  apply index_eq_low, lxor_cancel_r in Hi.
  rewrite (split_low_byte c1), (split_low_byte c2). congruence.
Qed.

(** ... and in the byte fed to it. *)
Lemma step_inj_byte c u1 u2 :
  u32 c -> step Default c u1 = step Default c u2 -> u1 = u2.
Proof.
  intros Hc Heq.
  assert (Hi : index c u1 = index c u2).
  { apply top_byte_inj; try apply index_lt.
    by rewrite <- !step_top, Heq by done. }
  apply index_eq_low, lxor_cancel_l in Hi. by apply byte_to_Z_inj.
Qed.

Lemma fold_step_inj buf c1 c2 :
  u32 c1 -> u32 c2 ->
  fold_left (step Default) buf c1 = fold_left (step Default) buf c2 -> c1 = c2.
Proof.
  revert c1 c2; induction buf as [|u buf IH]; intros c1 c2 H1 H2 Heq; [done|].
  simpl in Heq. apply IH in Heq; try by apply step_u32.
  by apply step_inj_state in Heq.
Qed.

(** Replacing one byte of the data by a different byte changes the
    checksum, wherever the byte lies. *)
Lemma Update_single_byte pre u1 u2 suf initial :
  u32 initial -> u1 <> u2 ->
  Update (pre ++ u1 :: suf) initial <> Update (pre ++ u2 :: suf) initial.
Proof.
  intros Hi Hne Heq. unfold Update, Update_table in Heq.
  apply lxor_cancel_r in Heq. rewrite !fold_left_app in Heq. simpl in Heq.
  assert (Hc : u32 (fold_left (step Default) pre (Z.lxor initial 0xFFFFFFFF))).
  { apply fold_step_u32, lxor_u32; [done | unfold u32; lia]. }
  apply fold_step_inj in Heq; try by apply step_u32.
  by apply step_inj_byte in Heq.
Qed.

End Crc32Facts.

(** ** Packed structs *)

Section PackedFacts.
Import Packed.

Lemma encode_length l vs : length (encode l vs) = sizeof l.
Proof.
  revert vs; induction l as [|[n w] l IH]; intros vs; [done|].
  cbn [encode]. rewrite length_app, le_encode_length, IH. done.
Qed.

Lemma chars_encode l vs rest name :
  chars l (encode l vs ++ rest) name = le_encode (widthof l name) (value l vs name).
Proof.
  unfold chars. revert vs; induction l as [|[n w] l IH]; intros vs.
  - done.
  - cbn [encode offsetof widthof value].
    destruct (String.eqb n name).
    + rewrite drop_0, <- app_assoc.
      rewrite take_app_length'; [done | by rewrite le_encode_length].
    + rewrite <- app_assoc, drop_app_add'; [apply IH | by rewrite le_encode_length].
Qed.

Lemma get_encode l vs rest name :
  get l (encode l vs ++ rest) name = value l vs name mod 2 ^ (8 * Z.of_nat (widthof l name)).
Proof.
  unfold get. fold (chars l (encode l vs ++ rest) name).
  by rewrite chars_encode, le_decode_encode.
Qed.

Lemma get_encode_nil l vs name :
  get l (encode l vs) name = value l vs name mod 2 ^ (8 * Z.of_nat (widthof l name)).
Proof. by rewrite <- (app_nil_r (encode l vs)), get_encode. Qed.

End PackedFacts.

(** ** The writer and the checksum of the body *)

Section WriterFacts.
Context `{Platform}.
Import Packed BinaryLog Sink Writer Notions.

Lemma FileHeader_bytes_length h :
  length (FileHeader.bytes h) = sizeof FileHeader.layout.
Proof. apply encode_length. Qed.

Lemma stream_write_end s d : stream_write s (length s) d = s ++ d.
Proof.
  unfold stream_write.
  by rewrite firstn_all, drop_ge, app_nil_r by lia.
Qed.

Lemma writing_length w :
  writing w -> (sizeof FileHeader.layout <= length (m_Stream w))%nat.
Proof.
  intros (_ & Hh & _). apply (f_equal length) in Hh.
  rewrite FileHeader_bytes_length, length_take in Hh. lia.
Qed.

Lemma Write_writing data w : writing w -> writing (Write data true w).
Proof.
  intros Hw. pose proof (writing_length w Hw) as Hlen.
  destruct Hw as (Hpos & Hhead & Hver & Hcrc).
  unfold writing, Write. cbn [m_Stream m_Pos m_Header].
  rewrite Hpos, stream_write_end. repeat split.
  - by rewrite length_app.
  - by rewrite take_app_le.
  - done.
  - cbn [set_Crc32 FileHeader.Crc32].
    rewrite drop_app_le by done. by rewrite Update_app, Hcrc.
Qed.

Lemma Write_string_writing s b w : writing w -> writing (Write_string s b w).
Proof.
  intros Hw. unfold Write_string. case_bool_decide; [done|].
  apply Write_writing. destruct b; [by apply Write_writing | done].
Qed.

Lemma Write_wstring_writing s b w : writing w -> writing (Write_wstring s b w).
Proof.
  intros Hw. unfold Write_wstring. case_bool_decide; [done|].
  apply Write_writing. destruct b; [by apply Write_writing | done].
Qed.

Lemma foldl_writing {A} (f : Writer -> A -> Writer) l w :
  (forall w a, writing w -> writing (f w a)) -> writing w -> writing (foldl f w l).
Proof.
  intros Hf. revert w; induction l as [|a l IH]; intros w Hw; [done|].
  simpl. apply IH, Hf, Hw.
Qed.

Lemma Write_instruction_writing w i : writing w -> writing (Write_instruction w i).
Proof.
  intros Hw. unfold Write_instruction.
  by do 3 apply Write_string_writing; apply Write_writing.
Qed.

Lemma Write_entry_writing c w e : writing w -> writing (Write_entry c w e).
Proof.
  intros Hw. unfold Write_entry.
  apply foldl_writing; [apply Write_instruction_writing|].
  by apply Write_wstring_writing, Write_string_writing, Write_writing.
Qed.

Lemma Write_trace_writing t c w : writing w -> writing (Write_trace t c w).
Proof.
  intros Hw. unfold Write_trace.
  apply foldl_writing; [apply Write_entry_writing|]. by apply Write_writing.
Qed.

Lemma Write_context_writing c w : writing w -> writing (Write_context c w).
Proof. intros Hw. unfold Write_context. destruct (Is64 c); by apply Write_writing. Qed.

Lemma Write_exception_writing now info pi c t mc b w :
  writing w -> writing (Write_exception now info pi c t mc b w).
Proof.
  intros Hw. unfold Write_exception.
  by apply Write_trace_writing, Write_context_writing, Write_writing.
Qed.

(** Every event the sink handles leaves the checksum in the header that
    of the body written so far. *)
Lemma handle_writing now c w w' :
  is_event c = true -> handle now c w = Some w' -> writing w -> writing w'.
Proof.
  intros Hev Hh Hw. destruct c; try discriminate Hev; cbn [handle] in Hh.
  - injection Hh as <-. by apply Write_exception_writing.
  - injection Hh as <-. by apply Write_exception_writing.
  - destruct (GetModuleAtAddress _ _); [|discriminate].
    injection Hh as <-. by apply Write_wstring_writing, Write_writing.
  - destruct (GetModuleAtAddress _ _); injection Hh as <-; by apply Write_writing.
  - injection Hh as <-. by apply Write_writing.
  - injection Hh as <-. by apply Write_writing.
  - injection Hh as <-. by apply Write_wstring_writing, Write_writing.
  - injection Hh as <-. by apply Write_string_writing, Write_writing.
  - injection Hh as <-. by apply Write_wstring_writing, Write_writing.
  - injection Hh as <-. by apply Write_writing.
  - injection Hh as <-. by apply Write_writing.
Qed.

Lemma run_writing events w w' :
  Forall (fun tc => is_event (snd tc) = true) events ->
  run events w = Some w' -> writing w -> writing w'.
Proof.
  revert w; induction events as [|[now c] events IH]; intros w Hev Hr Hw.
  - by injection Hr as <-.
  - apply Forall_cons in Hev as [Hc Hev]. cbn [run] in Hr.
    destruct (handle now c w) as [w1|] eqn:Hh; [|discriminate].
    eapply IH; [done | done |]. by eapply handle_writing.
Qed.

Lemma OnInitialization_writing now p : writing (OnInitialization now p new).
Proof.
  unfold OnInitialization.
  apply foldl_writing; [intros; by apply Write_string_writing|].
  do 2 apply Write_string_writing.
  unfold writing, Write, new. cbn [m_Stream m_Pos m_Header].
  unfold stream_write. cbn [take drop app].
  rewrite drop_nil, app_nil_r.
  repeat split.
Qed.

Lemma OnModuleCollectionComplete_sealed w :
  writing w -> sealed (m_Stream (OnModuleCollectionComplete w)).
Proof.
  intros Hw. pose proof (writing_length w Hw) as Hlen.
  destruct Hw as (Hpos & Hhead & Hver & Hcrc).
  exists (m_Header w), (drop (sizeof FileHeader.layout) (m_Stream w)).
  split; [|done].
  unfold OnModuleCollectionComplete, Write. cbn [m_Stream m_Pos m_Header].
  unfold stream_write. by rewrite FileHeader_bytes_length.
Qed.

(** The log of every session is sealed: the header that
    [OnModuleCollectionComplete] writes holds the checksum of the body. *)
Lemma session_sealed t0 p events t1 mc file :
  Forall (fun tc => is_event (snd tc) = true) events ->
  log_of (session t0 p events t1 mc) = Some file ->
  sealed file.
Proof.
  intros Hev Hlog. unfold log_of, session in Hlog.
  cbn [run handle] in Hlog.
  destruct (run (events ++ _) _) as [w|] eqn:Hr; [|discriminate].
  injection Hlog as <-.
  assert (Hsplit : exists w1, run events (OnInitialization t0 p new) = Some w1 /\
            w = OnModuleCollectionComplete w1).
  { clear Hev. revert Hr. generalize (OnInitialization t0 p new).
    induction events as [|[now c] events IH]; intros w0 Hr.
    - cbn in Hr. injection Hr as <-. by exists w0.
    - cbn [app run] in Hr |- *. destruct (handle now c w0); [|discriminate].
      by apply IH. }
  destruct Hsplit as (w1 & Hr1 & ->).
  apply OnModuleCollectionComplete_sealed.
  eapply run_writing; [done | done |]. apply OnInitialization_writing.
Qed.

End WriterFacts.

(** ** The replayer: opening a file *)

Section OpenFacts.
Context `{Platform}.
Import Packed BinaryLog Sink Player Notions Opened.

Lemma take_add {A} (l : list A) a b : take (a + b) l = take a l ++ take b (drop a l).
Proof.
  revert l; induction a as [|a IH]; intros l; [done|].
  destruct l as [|x l]; simpl; [by rewrite take_nil | by rewrite IH].
Qed.

Lemma CheckSanity_loop_eq fuel stream cur left size check :
  (0 < size)%nat -> (left <= fuel)%nat ->
  CheckSanity_loop fuel stream cur left size check
  = Crc32.Update (take left (drop cur stream)) check.
Proof.
  revert cur left size check.
  induction fuel as [|fuel IH]; intros cur left size check Hsize Hfuel.
  - assert (left = 0%nat) as -> by lia. simpl. by rewrite Update_nil.
  - cbn [CheckSanity_loop].
    destruct (Nat.ltb_spec 0 left) as [Hl|Hl].
    + set (size' := if (left <? size)%nat then left else size).
      assert (0 < size' <= left)%nat as Hs.
      { unfold size'. destruct (Nat.ltb_spec left size); lia. }
      rewrite IH by lia.
      rewrite <- Update_app.
      replace (drop (cur + size') stream) with (drop size' (drop cur stream))
        by (by rewrite drop_drop).
      rewrite <- take_add. do 2 f_equal. lia.
    + assert (left = 0%nat) as -> by lia. by rewrite take_0, Update_nil.
Qed.

(** What the constructor does with a file that has a whole header of the
    right version. *)
Lemma new_eq file state :
  (sizeof FileHeader.layout <= length file)%nat ->
  Z.shiftr (FileHeader.Version (FileHeader.of_bytes (take (sizeof FileHeader.layout) file))) 16
    = Z.shiftr Version.hindsight_version_int 16 ->
  new (Some file) state =
    if NoSanityCheck state then Ok tt (opened file state)
    else if Crc32.Update (drop (sizeof FileHeader.layout) file) 0
            =? FileHeader.Crc32 (FileHeader.of_bytes (take (sizeof FileHeader.layout) file))
         then Ok tt (opened file state)
         else Halt (Throw Damaged) (opened file state).
Proof.
  intros Hlen Hver.
  unfold new, bind, Player.Read, AssertSizeLeft, bind, modify, get, SizeLeft, Size, Pos.
  change (default [] (Some file)) with file.
  cbn [m_StreamSize m_Pos m_Stream].
  destruct (Nat.ltb_spec (length file - 0) (sizeof FileHeader.layout)) as [Hlt|_]; [lia|].
  cbn [with_pos with_Header m_Header m_Pos m_Stream m_StreamSize m_State m_ShouldFilter
       m_Filter m_Crc32 m_Handlers m_Modules calls keys].
  rewrite drop_0, Hver, Z.eqb_refl. cbn [negb].
  destruct (NoSanityCheck state); cbn [negb]; [done|].
  unfold CheckSanity.
  cbn [with_pos with_Header m_Header m_Pos m_Stream m_StreamSize m_State m_ShouldFilter
       m_Filter m_Crc32 m_Handlers m_Modules calls keys].
  rewrite CheckSanity_loop_eq by (unfold ChecksumBufferSize; lia).
  rewrite firstn_all2 by (rewrite length_drop; lia).
  by destruct (_ =? _).
Qed.

Lemma sealed_header file :
  sealed file ->
  (sizeof FileHeader.layout <= length file)%nat /\
  Z.shiftr (FileHeader.Version (FileHeader.of_bytes (take (sizeof FileHeader.layout) file))) 16
    = Z.shiftr Version.hindsight_version_int 16 /\
  FileHeader.Crc32 (FileHeader.of_bytes (take (sizeof FileHeader.layout) file))
    = Crc32.Update (drop (sizeof FileHeader.layout) file) 0.
Proof.
  intros (h & body & -> & Hver & Hcrc).
  pose proof (FileHeader_bytes_length h) as Hl.
  rewrite length_app, take_app_length', drop_app_length' by done.
  split; [lia|].
  unfold FileHeader.of_bytes, FileHeader.bytes.
  cbn [FileHeader.Version FileHeader.Crc32].
  rewrite !get_encode_nil.
  cbn [value FileHeader.layout FileHeader.fields hd tl String.eqb Ascii.eqb Bool.eqb widthof].
  rewrite Hver, Hcrc. split; [done|].
  apply Z.mod_small. apply (Update_u32 body 0). unfold Crc32.u32. lia.
Qed.

(** The constructor accepts every sealed file, with the sanity check or
    without it. *)
Lemma new_sealed file state :
  sealed file -> new (Some file) state = Ok tt (opened file state).
Proof.
  intros Hs. destruct (sealed_header file Hs) as (Hlen & Hver & Hcrc).
  rewrite new_eq by done. rewrite Hcrc, Z.eqb_refl. by destruct (NoSanityCheck state).
Qed.

Lemma insert_body {A} (l : list A) n i x :
  (n <= i)%nat ->
  take n (<[i := x]> l) = take n l /\ drop n (<[i := x]> l) = <[(i - n)%nat := x]> (drop n l).
Proof.
  intros Hi. split.
  - by rewrite take_insert_ge.
  - by rewrite drop_insert_ge.
Qed.

(** With the sanity check, the constructor rejects a sealed file in which
    one byte after the header has been replaced by another. *)
Lemma new_tampered_rejected file state i b b' :
  sealed file -> NoSanityCheck state = false ->
  (sizeof FileHeader.layout <= i)%nat -> file !! i = Some b -> b' <> b ->
  new (Some (<[i := b']> file)) state
  = Halt (Throw Damaged) (opened (<[i := b']> file) state).
Proof.
  intros Hs Hns Hi Hb Hne.
  destruct (sealed_header file Hs) as (Hlen & Hver & Hcrc).
  destruct (insert_body file (sizeof FileHeader.layout) i b' Hi) as [Ht Hd].
  rewrite new_eq; rewrite ?Ht, ?length_insert; try done.
  rewrite Hns, Hcrc, Hd.
  set (body := drop (sizeof FileHeader.layout) file).
  assert (Hbody : body !! (i - sizeof FileHeader.layout)%nat = Some b).
  { unfold body. rewrite lookup_drop. rewrite <- Hb. f_equal. lia. }
  apply list_elem_of_split_length in Hbody as (pre & suf & Hsplit & Hpre).
  rewrite Hsplit, Hpre.
  rewrite insert_app_r_alt, Nat.sub_diag by lia. cbn [list_insert insert].
  destruct (Z.eqb_spec (Crc32.Update (pre ++ b' :: suf) 0)
                       (Crc32.Update (pre ++ b :: suf) 0)) as [Heq|]; [|done].
  exfalso. revert Heq. apply Update_single_byte; [unfold Crc32.u32; lia | done].
Qed.

(** Without the sanity check, the constructor accepts it. *)
Lemma new_tampered_accepted file state i b' :
  sealed file -> NoSanityCheck state = true ->
  (sizeof FileHeader.layout <= i)%nat ->
  new (Some (<[i := b']> file)) state = Ok tt (opened (<[i := b']> file) state).
Proof.
  intros Hs Hns Hi.
  destruct (sealed_header file Hs) as (Hlen & Hver & Hcrc).
  destruct (insert_body file (sizeof FileHeader.layout) i b' Hi) as [Ht Hd].
  rewrite new_eq; rewrite ?Ht, ?length_insert; try done.
  by rewrite Hns.
Qed.

End OpenFacts.

(** ** The replayer: what playing a file keeps *)

Section PlayFacts.
Context `{Platform}.
Import Packed BinaryLog Sink Player Notions Opened.

Notation "'let*' x := m 'in' k" := (bind m (fun x => k))
  (at level 10, x name, m at level 100, k at level 200, only parsing).

Lemma spec_bind {A B} P (m : M A) (k : A -> M B) Q Q' R :
  spec P m Q R -> (forall a, spec (Q a) (k a) Q' R) -> spec P (bind m k) Q' R.
Proof.
  intros Hm Hk p HP. unfold bind. specialize (Hm p HP).
  destruct (m p) as [a p'|s p']; [by apply Hk | done].
Qed.

Lemma spec_ret {A} P (a : A) (Q : A -> Player -> Prop) R :
  (forall p, P p -> Q a p) -> spec P (ret a) Q R.
Proof. intros HQ p HP. by apply HQ. Qed.

Lemma spec_get P (Q : Player -> Player -> Prop) R :
  (forall p, P p -> Q p p) -> spec P get Q R.
Proof. intros HQ p HP. by apply HQ. Qed.

Lemma spec_modify P f (Q : unit -> Player -> Prop) R :
  (forall p, P p -> Q tt (f p)) -> spec P (modify f) Q R.
Proof. intros HQ p HP. by apply HQ. Qed.

Lemma spec_throw {A} P e (Q : A -> Player -> Prop) :
  spec P (throw e) Q fuelled.
Proof. intros p HP. by cbn. Qed.

Lemma spec_conseq {A} (P P' : Player -> Prop) (m : M A) (Q Q' : A -> Player -> Prop) R :
  spec P m Q R -> (forall p, P' p -> P p) -> (forall a p, Q a p -> Q' a p) ->
  spec P' m Q' R.
Proof.
  intros Hm HP HQ p Hp. specialize (Hm p (HP p Hp)).
  destruct (m p); [by apply HQ | done].
Qed.

Lemma playing_weaken S hdr lo lo' d p :
  (lo' <= lo)%nat -> playing S hdr lo d p -> playing S hdr lo' d p.
Proof. unfold playing. intros ? (?&?&?&?&?&?&?). repeat split; try done; lia. Qed.

Lemma advances_weaken {A} n n' (m : M A) : (n' <= n)%nat -> advances n m -> advances n' m.
Proof.
  intros Hn Hm S hdr lo. eapply spec_conseq; [apply (Hm S hdr lo) | done |].
  intros a p Hp. cbn beta in Hp |- *. eapply playing_weaken; [|done]. lia.
Qed.

Lemma keeps_of_advances {A} n (m : M A) : advances n m -> keeps m.
Proof. apply advances_weaken. lia. Qed.

Lemma advances_bind {A B} n (m : M A) (k : A -> M B) :
  advances n m -> (forall a, keeps (k a)) -> advances n (bind m k).
Proof.
  intros Hm Hk S hdr lo. eapply spec_bind; [apply Hm|].
  intros a. eapply spec_conseq; [apply (Hk a S hdr (lo + n)%nat) | done |].
  intros b p Hp. cbn beta in Hp |- *. by rewrite Nat.add_0_r in Hp.
Qed.

Lemma keeps_bind {A B} (m : M A) (k : A -> M B) :
  keeps m -> (forall a, keeps (k a)) -> keeps (bind m k).
Proof. apply advances_bind. Qed.

Lemma keeps_bind_advances {A B} n (m : M A) (k : A -> M B) :
  keeps m -> (forall a, advances n (k a)) -> advances n (bind m k).
Proof.
  intros Hm Hk S hdr lo. eapply spec_bind.
  - eapply spec_conseq; [apply (Hm S hdr lo) | done |].
    intros a p Hp. rewrite Nat.add_0_r in Hp. exact Hp.
  - intros a. apply Hk.
Qed.

Lemma keeps_ret {A} (a : A) : keeps (ret a).
Proof. intros S hdr lo. apply spec_ret. intros p Hp. by rewrite Nat.add_0_r. Qed.

Lemma advances_throw {A} n e : advances n (throw e : M A).
Proof. intros S hdr lo. apply spec_throw. Qed.

Lemma keeps_get : keeps get.
Proof. intros S hdr lo. apply spec_get. intros p Hp. by rewrite Nat.add_0_r. Qed.

Lemma keeps_emit c : keeps (emit c).
Proof. intros S hdr lo. apply spec_modify. intros p Hp. by rewrite Nat.add_0_r. Qed.

Lemma keeps_with_Modules f :
  keeps (modify (fun p => with_Modules (f p) p)).
Proof. intros S hdr lo. apply spec_modify. intros p Hp. by rewrite Nat.add_0_r. Qed.

Lemma Read_spec S hdr lo n (b : bool) :
  spec (playing S hdr lo 0) (Read n b)
    (fun bs p' => if b then playing S hdr (lo + n) 0 p' else playing S hdr lo n p')
    fuelled.
Proof.
  intros p (HS & Hsz & Hh & Hlo & Hpos & Hle & Hcrc).
  unfold Read, bind, AssertSizeLeft, SizeLeft, Size, Pos.
  destruct (Nat.ltb_spec (m_StreamSize p - m_Pos p) n) as [Hlt|Hge]; [done|].
  destruct b; unfold playing;
    cbn [with_pos with_Crc32 m_Stream m_Pos m_StreamSize m_Header m_Crc32];
    repeat split; try done; try lia.
  - rewrite Hcrc, <- Update_app, HS. f_equal.
    replace (m_Pos p + n - 0 - sizeof FileHeader.layout)%nat
      with ((m_Pos p - 0 - sizeof FileHeader.layout) + n)%nat by lia.
    rewrite take_add, drop_drop. do 3 f_equal. lia.
  - rewrite Hcrc. do 2 f_equal. lia.
Qed.

Lemma advances_Read n : advances n (Read n true).
Proof. intros S hdr lo. apply (Read_spec S hdr lo n true). Qed.

Lemma seek_back_spec S hdr lo n :
  spec (playing S hdr lo n) (seek_back n) (fun _ => playing S hdr lo 0) fuelled.
Proof.
  intros p (HS & Hsz & Hh & Hlo & Hpos & Hle & Hcrc).
  unfold seek_back, modify, playing.
  cbn [with_pos m_Stream m_Pos m_StreamSize m_Header m_Crc32].
  repeat split; try done; try lia.
  rewrite Hcrc. do 2 f_equal. lia.
Qed.

(** Looking at the next [n] bytes and going back. *)
Lemma advances_peek {A} m n (k : list byte -> M A) :
  (forall bs, advances m (k bs)) ->
  advances m (let* bs := Read n false in let* _ := seek_back n in k bs).
Proof.
  intros Hk S hdr lo. eapply spec_bind; [apply (Read_spec S hdr lo n false)|].
  intros bs. cbn beta iota.
  eapply spec_bind; [apply seek_back_spec|]. intros u. apply Hk.
Qed.

Lemma advances_peek_check {A} m n (bad : list byte -> bool) e (k : list byte -> M A) :
  (forall bs, advances m (k bs)) ->
  advances m (let* bs := Read n false in
              if bad bs then throw e else let* _ := seek_back n in k bs).
Proof.
  intros Hk S hdr lo. eapply spec_bind; [apply (Read_spec S hdr lo n false)|].
  intros bs. cbn beta iota. destruct (bad bs); [apply spec_throw|].
  eapply spec_bind; [apply seek_back_spec|]. intros u. apply Hk.
Qed.

Lemma keeps_Read_size size : keeps (Read_size size).
Proof.
  unfold Read_size. destruct (size =? -1); [|apply keeps_ret].
  apply keeps_bind; [apply (keeps_of_advances 4), advances_Read | intros; apply keeps_ret].
Qed.

Lemma keeps_Read_string size : keeps (Read_string size).
Proof.
  unfold Read_string. apply keeps_bind; [apply keeps_Read_size|].
  intros s. destruct (s <? 0); [apply advances_throw|].
  eapply keeps_of_advances, advances_Read.
Qed.

Lemma keeps_Read_wstring size : keeps (Read_wstring size).
Proof.
  unfold Read_wstring. apply keeps_bind; [apply keeps_Read_size|].
  intros s. destruct (s <? 0); [apply advances_throw|].
  apply keeps_bind; [eapply keeps_of_advances, advances_Read | intros; apply keeps_ret].
Qed.

Lemma keeps_Read_strings count : keeps (Read_strings count).
Proof.
  induction count as [|n IH]; cbn [Read_strings]; [apply keeps_ret|].
  apply keeps_bind; [apply keeps_Read_string|]. intros s.
  apply keeps_bind; [apply IH|]. intros; apply keeps_ret.
Qed.

Lemma keeps_Read_instructions count : keeps (Read_instructions count).
Proof.
  induction count as [|n IH]; cbn [Read_instructions]; [apply keeps_ret|].
  apply keeps_bind; [eapply keeps_of_advances, advances_Read|]. intros head.
  do 3 (apply keeps_bind; [apply keeps_Read_string|]; intros ?).
  apply keeps_bind; [apply IH|]. intros; apply keeps_ret.
Qed.

Lemma keeps_Read_entries count : keeps (Read_entries count).
Proof.
  induction count as [|n IH]; cbn [Read_entries]; [apply keeps_ret|].
  apply keeps_bind; [eapply keeps_of_advances, advances_Read|]. intros head.
  apply keeps_bind; [apply keeps_Read_string|]; intros ?.
  apply keeps_bind; [apply keeps_Read_wstring|]; intros ?.
  apply keeps_bind; [apply keeps_Read_instructions|]; intros ?.
  apply keeps_bind; [apply IH|]. intros; apply keeps_ret.
Qed.

Lemma keeps_Read_context frame pi : keeps (Read_context frame pi).
Proof.
  unfold Read_context. destruct (negb _);
    (apply keeps_bind; [eapply keeps_of_advances, advances_Read | intros; apply keeps_ret]).
Qed.

Lemma keeps_Read_trace : keeps Read_trace.
Proof.
  unfold Read_trace.
  apply (advances_peek_check 0 4
           (fun signature => negb (strnicmp_equal signature (ascii_bytes "STCK") 4))).
  intros _.
  apply keeps_bind; [eapply keeps_of_advances, advances_Read|]. intros head.
  apply keeps_bind; [apply keeps_Read_entries | intros; apply keeps_ret].
Qed.

Lemma keeps_HandleBreakpointOptions : keeps HandleBreakpointOptions.
Proof.
  intros S hdr lo p Hp. unfold HandleBreakpointOptions.
  generalize (keys p) as ks. induction ks as [|k ks IH]; cbn [HandleBreakpointOptions_loop].
  - done.
  - destruct (tolower k =? 99); [by rewrite Nat.add_0_r|].
    destruct (tolower k =? 97); [done | apply IH].
Qed.

Lemma keeps_if {A} (b : bool) (m1 m2 : M A) :
  keeps m1 -> keeps m2 -> keeps (if b then m1 else m2).
Proof. by destruct b. Qed.

Lemma keeps_EmitException time frame : keeps (EmitException time frame).
Proof.
  unfold EmitException.
  apply keeps_bind; [apply keeps_Read_context|]. intros context.
  apply keeps_bind; [apply keeps_Read_trace|]. intros trace.
  apply keeps_bind; [apply keeps_get|]. intros p.
  apply keeps_if; [apply keeps_ret|].
  apply keeps_bind; [apply keeps_if; apply keeps_emit|]. intros _.
  repeat apply keeps_if;
    first [apply keeps_HandleBreakpointOptions | apply keeps_ret].
Qed.

Lemma keeps_EmitCreateProcess time frame : keeps (EmitCreateProcess time frame).
Proof.
  unfold EmitCreateProcess.
  apply keeps_bind; [apply keeps_Read_wstring|]. intros path.
  apply keeps_bind; [apply keeps_with_Modules|]. intros _.
  apply keeps_bind; [apply keeps_get|]. intros p.
  apply keeps_if; [apply keeps_ret | apply keeps_emit].
Qed.

Lemma keeps_EmitCreateThread time frame : keeps (EmitCreateThread time frame).
Proof.
  unfold EmitCreateThread.
  apply keeps_bind; [apply keeps_get|]. intros p.
  apply keeps_if; [apply keeps_ret | apply keeps_emit].
Qed.

Lemma keeps_EmitDllLoad time frame : keeps (EmitDllLoad time frame).
Proof.
  unfold EmitDllLoad.
  apply keeps_bind; [apply keeps_Read_wstring|]. intros path.
  apply keeps_bind; [apply keeps_with_Modules|]. intros _.
  apply keeps_bind; [apply keeps_get|]. intros p.
  apply keeps_if; [apply keeps_ret | apply keeps_emit].
Qed.

Lemma keeps_EmitExitProcess time frame : keeps (EmitExitProcess time frame).
Proof.
  unfold EmitExitProcess.
  apply keeps_bind; [apply keeps_get|]. intros p.
  apply keeps_if; [apply keeps_ret | apply keeps_emit].
Qed.

Lemma keeps_EmitExitThread time frame : keeps (EmitExitThread time frame).
Proof.
  unfold EmitExitThread.
  apply keeps_bind; [apply keeps_get|]. intros p.
  apply keeps_if; [apply keeps_ret | apply keeps_emit].
Qed.

Lemma keeps_EmitDebugString time frame : keeps (EmitDebugString time frame).
Proof.
  unfold EmitDebugString. apply keeps_if.
  - apply keeps_bind; [apply keeps_Read_wstring|]. intros message.
    apply keeps_bind; [apply keeps_get|]. intros p.
    apply keeps_if; [apply keeps_ret | apply keeps_emit].
  - apply keeps_bind; [apply keeps_Read_string|]. intros message.
    apply keeps_bind; [apply keeps_get|]. intros p.
    apply keeps_if; [apply keeps_ret | apply keeps_emit].
Qed.

Lemma keeps_EmitRip time frame : keeps (EmitRip time frame).
Proof.
  unfold EmitRip.
  apply keeps_bind; [apply keeps_get|]. intros p.
  apply keeps_if; [apply keeps_ret | apply keeps_emit].
Qed.

Lemma keeps_EmitDllUnload time frame : keeps (EmitDllUnload time frame).
Proof.
  unfold EmitDllUnload.
  apply keeps_bind; [apply keeps_get|]. intros p.
  apply keeps_bind; [apply keeps_if; [apply keeps_emit | apply keeps_ret]|]. intros _.
  apply keeps_with_Modules.
Qed.

(** Every event record starts with the 48 bytes of the base entry, which
    the switch reads as part of the record. *)
Lemma advances_dispatch e : advances (sizeof EventEntry.layout) (dispatch e).
Proof.
  unfold dispatch.
  repeat match goal with
         | |- advances _ (if ?b then _ else _) => destruct b
         end;
    try apply advances_throw;
    (eapply advances_weaken;
     [|apply advances_bind; [apply advances_Read|]; intros bs];
     [vm_compute; lia|]).
  - apply keeps_EmitException.
  - apply keeps_EmitCreateProcess.
  - apply keeps_EmitCreateThread.
  - apply keeps_EmitExitProcess.
  - apply keeps_EmitExitThread.
  - apply keeps_EmitDllLoad.
  - apply keeps_EmitDebugString.
  - apply keeps_EmitRip.
  - apply keeps_EmitDllUnload.
Qed.

(** [Next] returns [true] only after it has read a whole event. *)
Lemma Next_spec S hdr lo :
  spec (playing S hdr lo 0) Next
    (fun more p' =>
       if more then playing S hdr (lo + sizeof EventEntry.layout) 0 p'
       else playing S hdr lo 0 p')
    fuelled.
Proof.
  intros p Hp. unfold Next. unfold bind at 1. unfold get.
  destruct (SizeLeft p <? 4)%nat.
  - exact Hp.
  - revert p Hp. eapply spec_conseq;
      [apply (advances_peek_check (sizeof EventEntry.layout) 4
                (fun signature => negb (strnicmp_equal signature (ascii_bytes "EVNT") 4))
                UnexpectedFrame
                (fun _ => let* raw := Read (sizeof EventEntry.layout) false in
                          let* _ := seek_back (sizeof EventEntry.layout) in
                          let* _ := dispatch (EventEntry.of_bytes raw) in
                          ret true))
      | done | ].
    + intros _. apply advances_peek. intros raw.
      apply advances_bind; [apply advances_dispatch | intros; apply keeps_ret].
    + intros [] p' Hp'; [exact Hp'|]. eapply playing_weaken; [|exact Hp']. lia.
Qed.

(** The loop of [Play] stops by itself: each event takes at least the
    size of its base entry from what is left of the file. *)
Lemma Next_loop_spec S hdr fuel : forall lo,
  (length S < lo + fuel * sizeof EventEntry.layout)%nat ->
  spec (playing S hdr lo 0) (Next_loop fuel)
    (fun _ => playing S hdr lo 0) fuelled.
Proof.
  induction fuel as [|fuel IH]; intros lo Hfuel.
  - intros p (_&_&_&_&Hlo&Hhi&_). cbn in Hfuel. lia.
  - cbn [Next_loop]. eapply spec_bind; [apply Next_spec|].
    intros []; cbn beta iota.
    + eapply spec_conseq; [apply (IH (lo + sizeof EventEntry.layout)%nat); lia | done |].
      intros a p' Hp'. eapply playing_weaken; [|exact Hp']. lia.
    + by apply spec_ret.
Qed.

Lemma keeps_spec {A} (m : M A) S hdr lo :
  keeps m -> spec (playing S hdr lo 0) m (fun _ => playing S hdr lo 0) fuelled.
Proof.
  intros Hm. eapply spec_conseq; [apply (Hm S hdr lo) | done |].
  intros a p Hp. cbn beta in Hp. by rewrite Nat.add_0_r in Hp.
Qed.

Lemma Play_events_spec S hdr now :
  spec (playing S hdr (sizeof FileHeader.layout) 0) (Play_events now)
    (fun _ => playing S hdr (sizeof FileHeader.layout) 0) fuelled.
Proof.
  intros p Hp. unfold Play_events. unfold bind at 1. unfold get.
  assert (Hsize : m_StreamSize p = length S) by apply Hp.
  assert (Hhdr : m_Header p = hdr) by apply Hp.
  rewrite Hsize, Hhdr. clear Hsize Hhdr. revert p Hp.
  eapply spec_bind; [apply keeps_spec, keeps_Read_string|]. intros path.
  eapply spec_bind; [apply keeps_spec, keeps_Read_string|]. intros workingDirectory.
  eapply spec_bind; [apply keeps_spec, keeps_Read_strings|]. intros arguments.
  eapply spec_bind; [apply keeps_spec, keeps_emit|]. intros ?.
  eapply spec_bind.
  - apply Next_loop_spec. vm_compute sizeof. lia.
  - intros ?. eapply spec_bind; [apply keeps_spec, keeps_get|]. intros p.
    apply keeps_spec, keeps_emit.
Qed.

Lemma Play_eq now p :
  Play now p = match Play_events now p with
               | Ok _ p1 => Play_check p1
               | Halt s p1 => Halt s p1
               end.
Proof. done. Qed.

Lemma Play_check_eq p :
  Play_check p = if FileHeader.Crc32 (m_Header p) =? m_Crc32 p then Ok tt p
                 else Halt (Throw NotAllRead) p.
Proof. unfold Play_check, bind, get, throw, ret. by destruct (_ =? _). Qed.

(** [Play] stops by itself on every file. *)
Lemma Play_fuelled S hdr now p p' :
  playing S hdr (sizeof FileHeader.layout) 0 p -> Play now p <> Halt OutOfFuel p'.
Proof.
  intros Hp. rewrite Play_eq. pose proof (Play_events_spec S hdr now p Hp) as Hspec.
  destruct (Play_events now p) as [[] p1|s p1].
  - rewrite Play_check_eq. by destruct (_ =? _).
  - unfold fuelled in Hspec. congruence.
Qed.

Lemma playing_whole S hdr lo p :
  playing S hdr lo 0 p -> m_Pos p = m_StreamSize p ->
  m_Crc32 p = Crc32.Update (drop (sizeof FileHeader.layout) S) 0.
Proof.
  intros (_&Hsize&_&_&_&_&Hcrc) Hpos. rewrite Hcrc, Hpos, Hsize.
  rewrite Nat.sub_0_r, firstn_all2; [done|]. rewrite length_drop. lia.
Qed.

Lemma opened_playing file state :
  (sizeof FileHeader.layout <= length file)%nat ->
  playing file (FileHeader.of_bytes (take (sizeof FileHeader.layout) file))
    (sizeof FileHeader.layout) 0 (opened file state).
Proof.
  intros Hlen. unfold playing, opened. cbn [m_Stream m_StreamSize m_Header m_Pos m_Crc32].
  repeat split; try done; lia.
Qed.

Lemma playing_attach S hdr lo d hs p :
  playing S hdr lo d p -> playing S hdr lo d (attach hs p).
Proof.
  revert p. induction hs as [|h hs IH]; intros p Hp; [done|].
  cbn [attach foldl]. apply IH. exact Hp.
Qed.

End PlayFacts.

(** ** The stack walk *)

Section WalkFacts.
Context `{Trace.Services}.
Import Trace.
Variable m_Modules : ModuleCollection.
Variable is64 : bool.
Variable m_MaxRecursion : Z.
Variable m_MaxInstruction : Z.

Abbreviation frame_entry := (Trace.frame_entry m_Modules is64 m_MaxInstruction).
Abbreviation AddFrame := (Trace.AddFrame m_Modules is64 m_MaxInstruction).
Abbreviation AddRecursion := (Trace.AddRecursion m_Modules is64 m_MaxInstruction).
Abbreviation Walk_loop := (Trace.Walk_loop m_Modules is64 m_MaxRecursion m_MaxInstruction).

Lemma DisassembleFrame_Recursion frame symbol entry :
  Recursion (DisassembleFrame is64 m_MaxInstruction frame symbol entry) = Recursion entry.
Proof.
  unfold DisassembleFrame. destruct (ReadProcessMemory _ _) as [ok code].
  by destruct (negb ok && _).
Qed.

(** [AddFrame] never makes a marker. *)
Lemma frame_entry_Recursion frame : Recursion (frame_entry frame) = false.
Proof.
  unfold Trace.frame_entry.
  destruct (SymFromAddr (AddrPC frame)) as [[displacement symbol]|];
    destruct (m_MaxInstruction =? 0);
    destruct (SymGetLineFromAddrW64 (AddrPC frame)) as [[lineDisplacement line]|];
    cbn [Recursion]; rewrite ?DisassembleFrame_Recursion; done.
Qed.

Lemma foldl_AddFrame trace frames :
  foldl AddFrame trace frames = trace ++ map frame_entry frames.
Proof.
  revert trace. induction frames as [|f frames IH]; intros trace; cbn [foldl map].
  - by rewrite app_nil_r.
  - rewrite IH. unfold Trace.AddFrame. by rewrite <- app_assoc.
Qed.

(** Without a limit every frame is added as it comes. *)
Lemma Walk_loop_unlimited frames backlog trace :
  m_MaxRecursion = SIZE_MAX ->
  Walk_loop frames backlog trace = trace ++ map frame_entry frames.
Proof.
  intros ->. revert trace. induction frames as [|f frames IH]; intros trace.
  - by rewrite app_nil_r.
  - cbn [Trace.Walk_loop map]. rewrite Z.eqb_refl. cbn [negb].
    rewrite IH. unfold Trace.AddFrame. by rewrite <- app_assoc.
Qed.

(** With a limit, frames that return to themselves only go to the
    backlog. *)
Lemma Walk_loop_backlog rs rest backlog trace :
  m_MaxRecursion <> SIZE_MAX ->
  Forall (fun f => AddrPC f = AddrReturn f) rs ->
  Walk_loop (rs ++ rest) backlog trace = Walk_loop rest (backlog ++ rs) trace.
Proof.
  intros Hm Hrs. revert backlog.
  induction Hrs as [|f rs Hf Hrs IH]; intros backlog.
  - by rewrite app_nil_r.
  - cbn [app Trace.Walk_loop].
    destruct (Z.eqb_spec m_MaxRecursion SIZE_MAX) as [|_]; [done|]. cbn [negb].
    rewrite Hf, Z.eqb_refl, IH. by rewrite <- app_assoc.
Qed.

(** The frame after a run of them empties the backlog into the trace and
    is itself passed over. *)
Lemma Walk_loop_flush d rest backlog trace :
  m_MaxRecursion <> SIZE_MAX ->
  AddrPC d <> AddrReturn d -> backlog <> [] ->
  Walk_loop (d :: rest) backlog trace
  = Walk_loop rest []
      (if Z.of_nat (length backlog) >=? m_MaxRecursion
       then AddRecursion trace backlog
       else trace ++ map frame_entry backlog).
Proof.
  intros Hm Hd Hb. cbn [Trace.Walk_loop].
  destruct (Z.eqb_spec m_MaxRecursion SIZE_MAX) as [|_]; [done|]. cbn [negb].
  destruct (Z.eqb_spec (AddrPC d) (AddrReturn d)) as [|_]; [done|].
  rewrite bool_decide_eq_false_2 by done. cbn [negb].
  by rewrite foldl_AddFrame.
Qed.

Lemma AddRecursion_eq trace backlog f :
  last backlog = Some f ->
  AddRecursion trace backlog
  = trace ++ [recursion_entry backlog; frame_entry f].
Proof.
  intros Hl. unfold Trace.AddRecursion, Trace.AddFrame. rewrite Hl.
  by rewrite <- app_assoc.
Qed.

Lemma Walk_loop_run_at_end rs backlog trace :
  m_MaxRecursion <> SIZE_MAX ->
  Forall (fun f => AddrPC f = AddrReturn f) rs ->
  Walk_loop rs backlog trace = trace.
Proof.
  intros Hm Hrs. rewrite <- (app_nil_r rs). by rewrite Walk_loop_backlog.
Qed.

Lemma Walk_loop_app_run frames rs : forall backlog trace,
  m_MaxRecursion <> SIZE_MAX ->
  Forall (fun f => AddrPC f = AddrReturn f) rs ->
  Walk_loop (frames ++ rs) backlog trace = Walk_loop frames backlog trace.
Proof.
  induction frames as [|f frames IH]; intros backlog trace Hm Hrs.
  - cbn [app Trace.Walk_loop]. by apply Walk_loop_run_at_end.
  - cbn [app Trace.Walk_loop]. by rewrite !IH.
Qed.

End WalkFacts.

(** ** The module collection *)

Section ModulesFacts.
Import Modules.

Lemma wf_empty : wf empty.
Proof. split; intros ? ?; cbn; by rewrite lookup_empty. Qed.

Lemma wf_Load mc path moduleHandle size :
  wf mc -> wf (Load mc path moduleHandle size).
Proof.
  intros [Hmod Hidx]. unfold Load, Contains. split.
  - intros h m. cbn [m_ModuleMap m_ModuleIndexMap m_ModuleHandleMap].
    intros Hm.
    assert (Hcases : m_ModuleMap mc !! h = Some m \/
                     (h = moduleHandle /\
                      m = {| Base := moduleHandle; Size := size; Path := path |})).
    { destruct (m_ModuleMap mc !! moduleHandle) eqn:Hold; [by left|].
      destruct (decide (h = moduleHandle)) as [->|Hne].
      - rewrite lookup_insert_eq in Hm. right. by inversion Hm.
      - rewrite lookup_insert_ne in Hm by done. by left. }
    destruct Hcases as [Hold|[-> ->]].
    + destruct (Hmod h m Hold) as (Hb & [i Hi] & s & Hs & Hin).
      split; [done|]. split.
      * case_bool_decide; [by exists i|].
        destruct (decide (path = Path m)) as [->|Hne].
        -- rewrite lookup_insert_eq. by eexists.
        -- rewrite lookup_insert_ne by done. by exists i.
      * destruct (decide (path = Path m)) as [->|Hne].
        -- rewrite lookup_insert_eq, Hs. eexists. split; [done|]. cbn.
   apply elem_of_union. by right.
        -- rewrite lookup_insert_ne by done. by exists s.
    + cbn [Base Path]. split; [done|]. split.
      * case_bool_decide as Hc; [done|]. rewrite lookup_insert_eq. by eexists.
      * rewrite lookup_insert_eq. eexists. split; [done|].
  apply elem_of_union. left. by apply elem_of_singleton.
  - intros p i. cbn [m_ModuleIndexMap m_Modules].
    case_bool_decide as Hc; [apply Hidx|].
    destruct (decide (path = p)) as [->|Hne].
    + rewrite lookup_insert_eq. intros [= <-].
      rewrite length_app. cbn [length].
      replace (length (m_Modules mc) + 1 - 1)%nat with (length (m_Modules mc) + 0)%nat by lia.
      by rewrite lookup_app_r, Nat.add_0_r, Nat.sub_diag by lia.
    + rewrite lookup_insert_ne by done. intros Hi.
      apply lookup_app_l_Some. by apply Hidx.
Qed.

Lemma wf_Unload mc moduleHandle : wf mc -> wf (Unload mc moduleHandle).
Proof.
  intros [Hmod Hidx]. unfold Unload.
  destruct (m_ModuleMap mc !! moduleHandle) as [m0|] eqn:Hm0; [|done].
  split; [|exact Hidx].
  intros h m. cbn [m_ModuleMap m_ModuleIndexMap m_ModuleHandleMap].
  intros Hm. apply lookup_delete_Some in Hm as [Hne Hm].
  destruct (Hmod h m Hm) as (Hb & Hi & s & Hs & Hin).
  split; [done|]. split; [done|].
  destruct (decide (Path m0 = Path m)) as [Heq|Hp].
  - rewrite Heq, lookup_alter_eq, Hs. eexists. split; [done|].
  apply elem_of_difference. split; [done|]. by rewrite elem_of_singleton.
  - rewrite lookup_alter_ne by done. by exists s.
Qed.

Lemma built_wf mc : built mc -> wf mc.
Proof.
  induction 1; [apply wf_empty | by apply wf_Load | by apply wf_Unload].
Qed.

End ModulesFacts.

(** ** Reading the memory of the debuggee *)

Section RttiFacts.
Import Rtti.

Lemma read_bytes_1 mem a :
  read_bytes mem a 1 = (fun b => [b]) <$> mem !! a.
Proof. cbn. by destruct (mem !! a). Qed.

(** The readable addresses from [a] on are one more than those from
    [a + 1] on, when [a] is readable. *)
Lemma readable_above (mem : Memory) a b :
  mem !! a = Some b ->
  size (filter (fun k => a <= k) (dom mem))
  = S (size (filter (fun k => a + 1 <= k) (dom mem))).
Proof.
  intros Ha.
  assert (Hsplit : filter (fun k => a <= k) (dom mem)
                   = {[a]} ∪ filter (fun k => a + 1 <= k) (dom mem)).
  { apply set_eq. intros k. rewrite elem_of_union, !elem_of_filter, elem_of_singleton.
    split.
    - intros [Hk Hd]. destruct (decide (k = a)); [by left | right; split; [lia | done]].
    - intros [->|[Hk Hd]]; [split; [lia|apply elem_of_dom; by eexists] | split; [lia|done]]. }
  rewrite Hsplit, size_union, size_singleton; [done|].
  intros k. rewrite elem_of_singleton, elem_of_filter. intros -> [Hk _]. lia.
Qed.

Lemma ReadNulTerminatedString_loop_total fuel :
  forall (mem : Memory) (address offset maximumLength : Z) data,
  (size (filter (fun k => (address + offset <= k)%Z) (dom mem)) < fuel)%nat ->
  is_Some (ReadNulTerminatedString_loop fuel mem address offset maximumLength data).
Proof.
  induction fuel as [|fuel IH]; intros mem address offset maximumLength data Hfuel; [lia|].
  cbn [ReadNulTerminatedString_loop]. rewrite read_bytes_1.
  destruct (mem !! (address + offset)) as [character|] eqn:Hread; cbn; [|by eexists].
  destruct (byte_to_Z character =? 0); [by eexists|].
  destruct (negb (maximumLength =? 0) && (offset + 1 >=? maximumLength)); [by eexists|].
  apply IH. rewrite (readable_above mem _ _ Hread) in Hfuel.
  replace (address + (offset + 1)) with (address + offset + 1) by lia. lia.
Qed.

(** The rounds [ReadNulTerminatedString] is given are enough. *)
Lemma ReadNulTerminatedString_eq mem address maximumLength :
  ReadNulTerminatedString_loop (S (size mem)) mem address 0 maximumLength []
  = Some (ReadNulTerminatedString mem address maximumLength).
Proof.
  unfold ReadNulTerminatedString.
  destruct (ReadNulTerminatedString_loop_total (S (size mem)) mem address 0 maximumLength [])
    as [s Hs]; [|by rewrite Hs].
  apply Nat.lt_succ_r. rewrite <- size_dom.
  apply subseteq_size. intros k. rewrite elem_of_filter. tauto.
Qed.

Section Decoder.
Variable demangle : cstring -> cstring.
Variable mem : Memory.
Variable m_LoadedModules : ModuleCollection.

(** What the loop over the catchable types leaves when it gets to the
    end of the array. *)
Lemma types_loop_Completed one rvas : forall r b r' b',
  types_loop one rvas r b = Completed r' b' ->
  m_ExceptionMessage r' = m_ExceptionMessage r /\
  m_ThrowImagePath r' = m_ThrowImagePath r /\
  exists names,
    m_ExceptionTypeNames r' = m_ExceptionTypeNames r ++ names /\
    b' = b || existsb (fun name => Contains name std_exception) names.
Proof.
  induction rvas as [|rva rvas IH]; intros r b r' b'; cbn [types_loop].
  - intros [= <- <-]. repeat split. exists []. by rewrite app_nil_r, orb_false_r.
  - destruct (one rva) as [name|]; [|done]. intros Hloop.
    apply IH in Hloop as (Hm & Hp & names & Hn & Hb).
    cbn [add_name m_ExceptionMessage m_ThrowImagePath m_ExceptionTypeNames] in *.
    repeat split; try done. exists (name :: names).
    rewrite Hn, <- app_assoc. split; [done|]. rewrite Hb. cbn [existsb].
    by destruct b, (Contains name std_exception).
Qed.

Lemma types_loop_Aborted one rvas : forall r b r',
  types_loop one rvas r b = Aborted r' ->
  m_ExceptionMessage r' = m_ExceptionMessage r.
Proof.
  induction rvas as [|rva rvas IH]; intros r b r'; cbn [types_loop]; [done|].
  destruct (one rva) as [name|].
  - intros Hloop. by apply IH in Hloop.
  - by intros [= <-].
Qed.

Lemma what_message_names r what :
  m_ExceptionTypeNames (what_message mem r what) = m_ExceptionTypeNames r.
Proof.
  unfold what_message. destruct what as [p|]; [|done].
  destruct (p =? 0); [done|]. by case_bool_decide.
Qed.

Lemma what_message_stored r what :
  m_ExceptionMessage r = None ->
  (m_ExceptionMessage (what_message mem r what) <> None <->
   exists p, what = Some p /\ p <> 0 /\ ReadNulTerminatedString mem p 1024 <> []).
Proof.
  intros Hr. unfold what_message. destruct what as [p|].
  - destruct (Z.eqb_spec p 0) as [->|Hp].
    + rewrite Hr. split; [done|]. by intros (p & [= <-] & ? & _).
    + case_bool_decide as Hm.
      * rewrite Hr. split; [done|]. intros (p' & [= <-] & _ & Hne). done.
      * cbn. split; [|done]. intros _. by exists p.
  - rewrite Hr. split; [done|]. by intros (p & ? & _).
Qed.

End Decoder.
End RttiFacts.

(** ** The log file: header, checksum and replay *)

Section LogFile.
Context `{Platform}.
Import Packed BinaryLog Sink Player Notions Opened.

Lemma tampered_Crc32 file i b b' :
  sealed file -> (sizeof FileHeader.layout <= i)%nat -> file !! i = Some b -> b' <> b ->
  FileHeader.Crc32 (FileHeader.of_bytes (take (sizeof FileHeader.layout) (<[i := b']> file)))
  <> Crc32.Update (drop (sizeof FileHeader.layout) (<[i := b']> file)) 0.
Proof.
  intros Hs Hi Hb Hne.
  destruct (sealed_header file Hs) as (Hlen & Hver & Hcrc).
  destruct (insert_body file (sizeof FileHeader.layout) i b' Hi) as [Ht Hd].
  rewrite Ht, Hd, Hcrc.
  set (body := drop (sizeof FileHeader.layout) file).
  assert (Hbody : body !! (i - sizeof FileHeader.layout)%nat = Some b).
  { unfold body. rewrite lookup_drop. rewrite <- Hb. f_equal. lia. }
  apply list_elem_of_split_length in Hbody as (pre & suf & Hsplit & Hpre).
  rewrite Hsplit, Hpre.
  rewrite insert_app_r_alt, Nat.sub_diag by lia. cbn [list_insert insert].
  intros Heq. symmetry in Heq. revert Heq.
  apply Update_single_byte; [unfold Crc32.u32; lia | done].
Qed.

(** C3, as the code has it: the header is 52 bytes, of which the checksum
    is the last four, at offset 48; the last thing a session writes is the
    whole header, put over the first 52 bytes of the file, with the
    checksum of the body in that field, and the body stays as it was. *)
Theorem FileHeader_rewritten_last w :
  writing w ->
  (forall h, length (FileHeader.bytes h) = 52%nat) /\
  offsetof FileHeader.layout "Crc32" = 48%nat /\
  Writer.m_Stream (Writer.OnModuleCollectionComplete w)
    = FileHeader.bytes (Writer.m_Header w) ++ drop 52 (Writer.m_Stream w) /\
  take 4 (drop 48 (Writer.m_Stream (Writer.OnModuleCollectionComplete w)))
    = le_encode 4 (Crc32.Update (drop 52 (Writer.m_Stream w)) 0) /\
  Writer.m_Pos (Writer.OnModuleCollectionComplete w)
    = length (Writer.m_Stream (Writer.OnModuleCollectionComplete w)).
Proof.
  intros Hw. pose proof (writing_length w Hw) as Hlen.
  destruct Hw as (Hpos & Hhead & Hver & Hcrc).
  assert (Hstream : Writer.m_Stream (Writer.OnModuleCollectionComplete w)
                    = FileHeader.bytes (Writer.m_Header w) ++ drop 52 (Writer.m_Stream w)).
  { unfold Writer.OnModuleCollectionComplete, Writer.Write.
    cbn [Writer.m_Stream Writer.m_Pos Writer.m_Header].
    unfold Writer.stream_write. by rewrite FileHeader_bytes_length. }
  split; [apply FileHeader_bytes_length|]. split; [done|]. split; [done|]. split; [|done].
  rewrite Hstream.
  change (take 4 (drop 48 (FileHeader.bytes (Writer.m_Header w) ++ drop 52 (Writer.m_Stream w))))
    with (chars FileHeader.layout
            (encode FileHeader.layout (FileHeader.fields (Writer.m_Header w))
             ++ drop 52 (Writer.m_Stream w)) "Crc32").
  rewrite chars_encode.
  cbn [value FileHeader.layout FileHeader.fields hd tl String.eqb Ascii.eqb Bool.eqb widthof].
  by rewrite Hcrc.
Qed.

(** C4, as the code has it: without the sanity check the constructor
    accepts a sealed file in which one byte after the header is changed;
    when [Play] gets through the events of the whole file, with whatever it
    has told the sinks, its last statement finds the checksum of what it
    read different from the one in the header and raises "not all data
    that was originally written has been read". *)
Theorem Play_tampered_raises file state handlers i b b' now p1 :
  sealed file -> NoSanityCheck state = true ->
  (sizeof FileHeader.layout <= i)%nat -> file !! i = Some b -> b' <> b ->
  Play_events now (attach handlers (opened (<[i := b']> file) state)) = Ok tt p1 ->
  m_Pos p1 = m_StreamSize p1 ->
  new (Some (<[i := b']> file)) state = Ok tt (opened (<[i := b']> file) state) /\
  Play now (attach handlers (opened (<[i := b']> file) state)) = Halt (Throw NotAllRead) p1.
Proof.
  intros Hs Hns Hi Hb Hne Hev Hend.
  split; [by apply new_tampered_accepted|].
  rewrite Play_eq, Hev, Play_check_eq.
  assert (Hlen : (sizeof FileHeader.layout <= length (<[i := b']> file))%nat).
  { rewrite length_insert. by apply sealed_header. }
  pose proof (Play_events_spec _ _ now _
                (playing_attach _ _ _ _ handlers _ (opened_playing _ state Hlen))) as Hp1.
  rewrite Hev in Hp1.
  rewrite (playing_whole _ _ _ _ Hp1 Hend).
  assert (Hh : Player.m_Header p1
               = FileHeader.of_bytes (take (sizeof FileHeader.layout) (<[i := b']> file)))
    by apply Hp1.
  rewrite Hh.
  destruct (Z.eqb_spec
              (FileHeader.Crc32
                 (FileHeader.of_bytes (take (sizeof FileHeader.layout) (<[i := b']> file))))
              (Crc32.Update (drop (sizeof FileHeader.layout) (<[i := b']> file)) 0))
    as [Heq|]; [|done].
  exfalso. revert Heq. by eapply tampered_Crc32.
Qed.




End LogFile.

(** ** The traces [Walk] builds *)

Section Traces.
Context `{Trace.Services}.
Import Trace.

(** C2, as the code has it: after [rs], one or more frames that return to
    themselves, the frame [d] that does not makes [Walk] empty the backlog
    into the trace, as a marker with the count of [rs] and the last of
    them when they are at least [m], as all of them otherwise; [d] itself
    gets no entry. *)
Theorem Walk_run_then_frame collection is64 m max_instruction rs r d :
  m <> SIZE_MAX ->
  Forall (fun f => AddrPC f = AddrReturn f) rs -> last rs = Some r ->
  AddrPC d <> AddrReturn d ->
  Walk collection is64 m max_instruction (rs ++ [d])
  = if Z.of_nat (length rs) >=? m
    then [recursion_entry rs; frame_entry collection is64 max_instruction r]
    else map (frame_entry collection is64 max_instruction) rs.
Proof.
  intros Hm Hrs Hlast Hd. unfold Walk.
  rewrite Walk_loop_backlog by done. rewrite app_nil_l.
  rewrite Walk_loop_flush; [|done|done|by intros ->].
  cbn [Walk_loop]. destruct (_ >=? _); [|done].
  by rewrite (AddRecursion_eq _ _ _ _ _ r).
Qed.

(** C5, as the code has it: frames that return to themselves and come
    last in the walk leave nothing in the trace, whatever their number:
    the walk of [frames ++ rs] is the walk of [frames]. *)
Theorem Walk_run_at_end collection is64 m max_instruction frames rs :
  m <> SIZE_MAX ->
  Forall (fun f => AddrPC f = AddrReturn f) rs ->
  Walk collection is64 m max_instruction (frames ++ rs)
  = Walk collection is64 m max_instruction frames.
Proof. intros Hm Hrs. unfold Walk. by apply Walk_loop_app_run. Qed.

(** C6: with the option [max-recursion] at 0, which [LaunchCommand] makes
    [SIZE_MAX], the trace has one entry for each frame of the walk, in
    order, and none of them is a marker of recursion. *)
Theorem Walk_unlimited_never_collapses `{Platform} context collection max_instruction frames :
  m_Trace (build context collection (Pump.normalize_MaxRecursion 0) max_instruction frames)
  = map (frame_entry collection (Is64 context) max_instruction) frames /\
  Forall (fun entry => Recursion entry = false)
    (m_Trace (build context collection (Pump.normalize_MaxRecursion 0) max_instruction frames)).
Proof.
  assert (Htrace : m_Trace (build context collection (Pump.normalize_MaxRecursion 0)
                              max_instruction frames)
                   = map (frame_entry collection (Is64 context) max_instruction) frames).
  { unfold build, Walk. cbn [m_Trace]. by rewrite Walk_loop_unlimited. }
  split; [done|]. rewrite Htrace. apply Forall_forall. intros entry Hin.
  apply list_elem_of_fmap in Hin as (f & -> & _). apply frame_entry_Recursion.
Qed.

End Traces.

(** ** Modules: unloading, and the index of a frame *)

Section Unloading.
Context `{Platform}.
Import Packed BinaryLog Sink.

Lemma active_resolves mc base m :
  wf mc -> m_ModuleMap mc !! base = Some m ->
  Modules.Get mc base = Modules.Path m /\
  Active mc base = true /\
  exists i, m_ModuleIndexMap mc !! Modules.Path m = Some i /\
            Modules.m_Modules mc !! i = Some (Modules.Path m) /\
            GetIndex mc base = to_int (Z.of_nat i) /\
            GetIndex_path mc (Modules.Path m) = to_int (Z.of_nat i).
Proof.
  intros [Hmod Hidx] Hm. destruct (Hmod base m Hm) as (_ & [i Hi] & _).
  unfold Modules.Get, Active, GetIndex, GetIndex_path. rewrite Hm, Hi.
  split; [done|]. split; [by apply bool_decide_eq_true_2|].
  exists i. repeat split; try done. by apply Hidx.
Qed.

Lemma Unload_inactive mc base : Active (Unload mc base) base = false.
Proof.
  unfold Active, Unload. apply bool_decide_eq_false_2. intros [m Hm].
  destruct (m_ModuleMap mc !! base) eqn:Hb.
  - cbn [m_ModuleMap] in Hm. by rewrite lookup_delete_eq in Hm.
  - congruence.
Qed.

(** C8: when a module that is loaded at [base] is unloaded, the live
    debugger calls [OnDllUnload] of every sink, one call for each sink and
    in their order, and so does the replayer when it does not filter or
    its filter has "unload_dll"; with a filter without "unload_dll" the
    replayer calls no sink.  The calls carry the path and the index of the
    module and the collection as it is before the unloading, in which
    [base] is active and still gives that path and that index, the place
    of the path among the paths seen; the collection kept afterwards, in
    all three cases, is that one with [base] unloaded, where it is no
    longer active. *)
Theorem sinks_told_before_Unload mc base m :
  built mc -> m_ModuleMap mc !! base = Some m ->
  (Active mc base = true /\
   Modules.Get mc base = Modules.Path m /\
   exists i, Modules.m_Modules mc !! i = Some (Modules.Path m) /\
             GetIndex mc base = to_int (Z.of_nat i) /\
             GetIndex_path mc (Modules.Path m) = GetIndex mc base) /\
  Active (Unload mc base) base = false /\
  (forall time info pi d,
     Pump.m_LoadedModules d = mc -> ud_lpBaseOfDll info = base ->
     Pump.calls (Pump.Tick_UNLOAD_DLL time info pi d)
     = Pump.calls d ++
       map (fun handler =>
              (handler, OnDllUnload time info pi (Modules.Path m) (GetIndex mc base) mc))
           (Pump.m_Handlers d) /\
     Pump.m_LoadedModules (Pump.Tick_UNLOAD_DLL time info pi d) = Unload mc base) /\
  (forall time frame p,
     Player.m_Modules p = mc -> DllUnloadEventEntry.ModuleBase frame = base ->
     exists p',
       Player.EmitDllUnload time frame p = Player.Ok tt p' /\
       Player.m_Modules p' = Unload mc base /\
       Player.calls p'
       = Player.calls p ++
         if negb (Player.m_ShouldFilter p) || Player.filter_count p "unload_dll"
         then map (fun handler =>
                     (handler,
                      OnDllUnload time {| ud_lpBaseOfDll := base |}
                        (EventEntryProcessInformation.to_PROCESS_INFORMATION
                           (EventEntry.ProcessInformation (DllUnloadEventEntry.base frame)))
                        (Modules.Path m) (GetIndex mc base) mc))
                  (Player.m_Handlers p)
         else []).
Proof.
  intros Hb Hm. apply built_wf in Hb.
  destruct (active_resolves mc base m Hb Hm) as (Hget & Hact & i & Hi & Hlist & Hgi & Hgp).
  split; [|split; [apply Unload_inactive|split]].
  - split; [done|]. split; [done|]. exists i. by rewrite Hgp, Hgi.
  - intros time info pi d <- Hbase. unfold Pump.Tick_UNLOAD_DLL.
    cbn [Pump.calls Pump.m_LoadedModules Pump.m_Handlers].
    by rewrite Hbase, Hget, Hgp, Hgi.
  - intros time frame p <- Hbase. unfold Player.EmitDllUnload.
    unfold Player.bind at 1. unfold Player.get.
    cbn [ud_lpBaseOfDll]. rewrite Hbase, Hget, Hgp, Hgi.
    unfold Player.bind, Player.emit, Player.modify, Player.ret.
    destruct (Player.m_ShouldFilter p); cbn [negb orb andb].
    + destruct (Player.filter_count p "unload_dll"); eexists; (split; [done|]);
        cbn [Player.m_Modules Player.calls Player.with_Modules Player.with_calls];
        by rewrite ?app_nil_r.
    + eexists. split; [done|].
      by cbn [Player.m_Modules Player.calls Player.with_Modules Player.with_calls].
Qed.








End Unloading.

(** ** The message of a thrown [std::exception] *)

Section Message.
Import Rtti.
Variable demangle : cstring -> cstring.
Variable mem : Memory.
Variable m_LoadedModules : ModuleCollection.

(** What the decoder has when it gets to the loop, or returns before. *)
Lemma initial_message pThrowInfo :
  m_ExceptionMessage (initial m_LoadedModules pThrowInfo) = None /\
  m_ExceptionTypeNames (initial m_LoadedModules pThrowInfo) = [].
Proof. done. Qed.

Lemma chain64_cases ExceptionInformation :
  match chain64 demangle mem m_LoadedModules ExceptionInformation with
  | NoLoop r => r = initial m_LoadedModules (nth 2 ExceptionInformation 0)
  | VectorThrows => True
  | Loop e => exists one rvas,
      e = types_loop one rvas (initial m_LoadedModules (nth 2 ExceptionInformation 0)) false
  end.
Proof.
  unfold chain64.
  repeat match goal with
         | |- context [if ?b then _ else _] => destruct b
         | |- context [match ?o with Some _ => _ | None => _ end] => destruct o
         end; try done.
  by do 2 eexists.
Qed.

Lemma chain32_cases ExceptionInformation :
  match chain32 demangle mem m_LoadedModules ExceptionInformation with
  | NoLoop r => r = initial m_LoadedModules (nth 2 ExceptionInformation 0)
  | VectorThrows => True
  | Loop e => exists one rvas,
      e = types_loop one rvas (initial m_LoadedModules (nth 2 ExceptionInformation 0)) false
  end.
Proof.
  unfold chain32.
  repeat match goal with
         | |- context [if ?b then _ else _] => destruct b
         | |- context [match ?o with Some _ => _ | None => _ end] => destruct o
         end; try done.
  by do 2 eexists.
Qed.

(** The tail the two decoders share, after the chain [c] and with the
    pointer [what] read from the object. *)
Lemma message_stored_after c what r0 r :
  match c with
  | NoLoop r => r = r0
  | VectorThrows => True
  | Loop e => exists one rvas, e = types_loop one rvas r0 false
  end ->
  m_ExceptionMessage r0 = None -> m_ExceptionTypeNames r0 = [] ->
  match c with
  | NoLoop r => Returned r
  | VectorThrows => Terminated
  | Loop (Aborted r) => Returned r
  | Loop (Completed r containsStdException) =>
      if containsStdException then Returned (what_message mem r what) else Returned r
  end = Returned r ->
  (m_ExceptionMessage r <> None <->
   (exists r' b, c = Loop (Completed r' b)) /\
   (exists name, name ∈ m_ExceptionTypeNames r /\ Contains name std_exception = true) /\
   (exists p, what = Some p /\ p <> 0 /\ ReadNulTerminatedString mem p 1024 <> [])).
Proof.
  intros Hc Hm0 Hn0. destruct c as [r1| |[r1 b|r1]].
  - subst r1. intros [= <-]. rewrite Hm0. split; [done|]. by intros [(? & ? & ?) _].
  - done.
  - destruct Hc as (one & rvas & Hloop). symmetry in Hloop.
    apply types_loop_Completed in Hloop as (Hm & _ & names & Hn & Hb).
    rewrite Hm0 in Hm. rewrite Hn0 in Hn. cbn [app orb] in Hn, Hb.
    destruct b; intros [= <-].
    + rewrite (what_message_stored mem r1 what Hm), what_message_names.
      split.
      * intros Hp. split; [by do 2 eexists|]. split; [|done].
        symmetry in Hb. apply existsb_exists in Hb as (name & Hin & Hname).
        exists name. rewrite Hn. split; [by apply list_elem_of_In | done].
      * by intros (_ & _ & Hp).
    + rewrite Hm. split; [done|]. intros (_ & (name & Hin & Hname) & _).
      rewrite Hn in Hin. apply list_elem_of_In in Hin.
      assert (existsb (fun name => Contains name std_exception) names = true)
        by (apply existsb_exists; by exists name).
      congruence.
  - destruct Hc as (one & rvas & Hloop). symmetry in Hloop.
    apply types_loop_Aborted in Hloop. rewrite Hm0 in Hloop.
    intros [= <-]. rewrite Hloop. split; [done|]. by intros [(? & ? & ?) _].
Qed.

(** C9, as the code has it: the decoder, when it returns, has stored a
    message exactly when the loop over the array of catchable types got to
    its end, one of the names it collected contains "std::exception", and
    the pointer read from the second word of the exception object (at
    offset 8 by [Process64], at offset 4 by [Process32]) is not null and
    the read of at most 1024 characters from there gives a string that is
    not empty. *)
Theorem message_stored_iff ExceptionInformation r :
  (Process64 demangle mem m_LoadedModules ExceptionInformation = Returned r ->
   (m_ExceptionMessage r <> None <->
    (exists r' b,
       chain64 demangle mem m_LoadedModules ExceptionInformation = Loop (Completed r' b)) /\
    (exists name, name ∈ m_ExceptionTypeNames r /\ Contains name std_exception = true) /\
    (exists p, what64 mem ExceptionInformation = Some p /\ p <> 0 /\
               ReadNulTerminatedString mem p 1024 <> []))) /\
  (Process32 demangle mem m_LoadedModules ExceptionInformation = Returned r ->
   (m_ExceptionMessage r <> None <->
    (exists r' b,
       chain32 demangle mem m_LoadedModules ExceptionInformation = Loop (Completed r' b)) /\
    (exists name, name ∈ m_ExceptionTypeNames r /\ Contains name std_exception = true) /\
    (exists p, what32 mem ExceptionInformation = Some p /\ p <> 0 /\
               ReadNulTerminatedString mem p 1024 <> []))).
Proof.
  split; intros Hr.
  - eapply message_stored_after; [apply chain64_cases | done | done | exact Hr].
  - eapply message_stored_after; [apply chain32_cases | done | done | exact Hr].
Qed.

End Message.

(** ** The properties at the sample inputs *)

#[local] Existing Instance Samples.win64.
#[local] Existing Instance Samples.bare.

(** C1, at the session of a program started with one empty argument: the
    writer seals the file and the constructor accepts it with the sanity
    check, but [Play] stops with "unexpected end of file" before it has
    called a sink.  The writer leaves out an empty string together with its
    length; the replayer reads the length of every argument. *)
Theorem replay_empty_argument :
  Notions.log_of Samples.empty_argument = Some Samples.empty_argument_file /\
  Notions.sealed Samples.empty_argument_file /\
  Player.new (Some Samples.empty_argument_file) Samples.checked
  = Player.Ok tt (Opened.opened Samples.empty_argument_file Samples.checked) /\
  exists p,
    Player.Play 1700000100
      (Opened.attach [0%nat] (Opened.opened Samples.empty_argument_file Samples.checked))
    = Player.Halt (Player.Throw Player.UnexpectedEnd) p /\
    Player.calls p = [].
Proof.
  assert (Hlog : Notions.log_of Samples.empty_argument = Some Samples.empty_argument_file)
    by (vm_compute; reflexivity).
  assert (Hs : Notions.sealed Samples.empty_argument_file).
  { eapply session_sealed; [|exact Hlog]. constructor. }
  split; [exact Hlog|]. split; [exact Hs|]. split; [by apply new_sealed|].
  eexists. split; vm_compute; reflexivity.
Qed.

(** C2, at one frame that returns to itself and the frame of its caller,
    with a limit of 5: the trace has the entry of the first frame only. *)
Lemma Walk_run_then_frame_witness :
  Trace.Walk Modules.empty true 5 0 [Samples.looping 0x1000; Samples.caller]
  = [Trace.frame_entry Modules.empty true 0 (Samples.looping 0x1000)].
Proof.
  apply (Walk_run_then_frame Modules.empty true 5 0
           [Samples.looping 0x1000] (Samples.looping 0x1000) Samples.caller).
  - vm_compute. discriminate.
  - repeat constructor.
  - reflexivity.
  - vm_compute. discriminate.
Defined.

(** The header of a file is not 48 bytes long, and its checksum is not at
    offset 44. *)
Lemma FileHeader_not_48_bytes :
  length (BinaryLog.FileHeader.bytes BinaryLog.FileHeader.init) <> 48%nat /\
  Packed.offsetof BinaryLog.FileHeader.layout "Crc32" <> 44%nat.
Proof. split; vm_compute; discriminate. Qed.

(** C3, at the writer as [OnInitialization] leaves it for the sample
    program. *)
Lemma FileHeader_rewritten_last_witness :
  Notions.writing (Writer.OnInitialization 1700000000 Samples.app Writer.new) /\
  Writer.m_Stream
    (Writer.OnModuleCollectionComplete
       (Writer.OnInitialization 1700000000 Samples.app Writer.new))
  = BinaryLog.FileHeader.bytes
      (Writer.m_Header (Writer.OnInitialization 1700000000 Samples.app Writer.new))
    ++ drop 52 (Writer.m_Stream (Writer.OnInitialization 1700000000 Samples.app Writer.new)).
Proof.
  assert (Hw : Notions.writing (Writer.OnInitialization 1700000000 Samples.app Writer.new))
    by (repeat split; vm_compute; reflexivity).
  split; [exact Hw|].
  apply (FileHeader_rewritten_last
           (Writer.OnInitialization 1700000000 Samples.app Writer.new) Hw).
Defined.

(** The file of the sample session with the last byte of the path of the
    module changed, replayed without the sanity check: the constructor
    accepts it, [Play] reads it to its end and gives the sink the changed
    path, and then raises an error. *)
Lemma Play_tampered_one_module :
  Player.new (Some Samples.one_module_tampered) Samples.unchecked
  = Player.Ok tt (Opened.opened Samples.one_module_tampered Samples.unchecked) /\
  Player.Play 1700000100
    (Opened.attach [0%nat] (Opened.opened Samples.one_module_tampered Samples.unchecked))
  = Player.Halt (Player.Throw Player.NotAllRead) Samples.one_module_played /\
  Player.m_Pos Samples.one_module_played = length Samples.one_module_tampered /\
  Samples.loaded_paths (Player.calls Samples.one_module_played) = [Samples.k_dll_tampered] /\
  Samples.k_dll_tampered <> Samples.k_dll /\
  forall p,
    Player.Play 1700000100
      (Opened.attach [0%nat] (Opened.opened Samples.one_module_tampered Samples.unchecked))
    <> Player.Ok tt p.
Proof.
  assert (Hplay : Player.Play 1700000100
            (Opened.attach [0%nat]
               (Opened.opened Samples.one_module_tampered Samples.unchecked))
          = Player.Halt (Player.Throw Player.NotAllRead) Samples.one_module_played)
    by (vm_compute; reflexivity).
  split; [vm_compute; reflexivity|]. split; [exact Hplay|].
  split; [vm_compute; reflexivity|]. split; [vm_compute; reflexivity|].
  split; [vm_compute; discriminate|].
  intros p. rewrite Hplay. discriminate.
Qed.

(** C4, at that file. *)
Lemma Play_tampered_raises_witness :
  Notions.sealed Samples.one_module_file /\
  Player.Play 1700000100
    (Opened.attach [0%nat] (Opened.opened Samples.one_module_tampered Samples.unchecked))
  = Player.Halt (Player.Throw Player.NotAllRead) Samples.one_module_played.
Proof.
  assert (Hs : Notions.sealed Samples.one_module_file).
  { exists (BinaryLog.FileHeader.of_bytes (take 52 Samples.one_module_file)),
           (drop 52 Samples.one_module_file).
    repeat split; vm_compute; reflexivity. }
  split; [exact Hs|].
  apply (Play_tampered_raises Samples.one_module_file Samples.unchecked [0%nat]
           Samples.last_of_path Byte.x00 Byte.x01 1700000100 Samples.one_module_played).
  - exact Hs.
  - reflexivity.
  - vm_compute. lia.
  - vm_compute. reflexivity.
  - discriminate.
  - vm_compute. reflexivity.
  - vm_compute. reflexivity.
Defined.

(** C5, at two frames that return to themselves after the frame of a
    caller, with a limit of 2: the trace has the entry of the caller only. *)
Lemma Walk_run_at_end_witness :
  Trace.Walk Modules.empty true 2 0
    ([Samples.caller] ++ [Samples.looping 0x1000; Samples.looping 0x1000])
  = [Trace.frame_entry Modules.empty true 0 Samples.caller].
Proof.
  rewrite (Walk_run_at_end Modules.empty true 2 0 [Samples.caller]
             [Samples.looping 0x1000; Samples.looping 0x1000]).
  - reflexivity.
  - vm_compute. discriminate.
  - repeat constructor.
Defined.


(** C8, at the collection with the one module of the sample session and
    a live debugger with two sinks. *)
Lemma sinks_told_before_Unload_witness :
  built Samples.loaded /\
  Active Samples.loaded Samples.k_base = true /\
  Modules.Get Samples.loaded Samples.k_base = Samples.k_dll /\
  Active (Unload Samples.loaded Samples.k_base) Samples.k_base = false /\
  Pump.calls (Pump.Tick_UNLOAD_DLL 1700000002 {| ud_lpBaseOfDll := Samples.k_base |}
                Samples.pi0 Samples.two_sinks)
  = [ (0%nat, Sink.OnDllUnload 1700000002 {| ud_lpBaseOfDll := Samples.k_base |}
                Samples.pi0 Samples.k_dll 0 Samples.loaded);
      (1%nat, Sink.OnDllUnload 1700000002 {| ud_lpBaseOfDll := Samples.k_base |}
                Samples.pi0 Samples.k_dll 0 Samples.loaded) ].
Proof.
  assert (Hb : built Samples.loaded) by apply built_Load, built_empty.
  split; [exact Hb|].
  destruct (sinks_told_before_Unload Samples.loaded Samples.k_base
              {| Base := Samples.k_base; Size := 0x10000; Path := Samples.k_dll |} Hb)
    as ((Hact & Hget & _) & Hun & Hpump & _).
  - vm_compute. reflexivity.
  - split; [exact Hact|]. split; [exact Hget|]. split; [exact Hun|].
    exact (proj1 (Hpump 1700000002 {| ud_lpBaseOfDll := Samples.k_base |} Samples.pi0
                    Samples.two_sinks eq_refl eq_refl)).
Defined.

(** C8 as the claim has it does not hold of the replayer: with a filter
    that leaves "unload_dll" out, the sink that is attached is not called
    for the UnloadDll event, and the module, active before, is unloaded all
    the same. *)
Lemma Unload_filtered_tells_no_sink :
  Player.m_Handlers Samples.filtering = [0%nat] /\
  Active (Player.m_Modules Samples.filtering) Samples.k_base = true /\
  exists p',
    Player.EmitDllUnload 1700000002
      (BinaryLog.DllUnloadEventEntry.make 1700000002 Samples.pi0 Samples.k_base)
      Samples.filtering
    = Player.Ok tt p' /\
    Player.calls p' = [] /\
    Active (Player.m_Modules p') Samples.k_base = false.
Proof.
  split; [reflexivity|]. split; [vm_compute; reflexivity|].
  eexists. split; [vm_compute; reflexivity|]. split; vm_compute; reflexivity.
Qed.

(** The chain of [thrown 2] has a type named "class std::exception" and
    the pointer in the exception object leads to the string "boom", but the
    second type of the array cannot be read and no message is stored. *)
Lemma message_not_stored_after_return :
  Rtti.Process64 Samples.demangle (Samples.thrown 2) Modules.empty Samples.parameters
  = Rtti.Returned Samples.undecoded /\
  (exists name, name ∈ Rtti.m_ExceptionTypeNames Samples.undecoded /\
                Rtti.Contains name Rtti.std_exception = true) /\
  (exists p, Rtti.what64 (Samples.thrown 2) Samples.parameters = Some p /\ p <> 0 /\
             Rtti.ReadNulTerminatedString (Samples.thrown 2) p 1024
             = ascii_bytes "boom" ++ [Byte.x00]) /\
  Rtti.m_ExceptionMessage Samples.undecoded = None.
Proof.
  split; [vm_compute; reflexivity|]. split.
  - exists (ascii_bytes "class std::exception"). split; [apply list_elem_of_here|].
    vm_compute. reflexivity.
  - split; [|reflexivity]. exists Samples.text.
    split; [vm_compute; reflexivity|]. split; [discriminate|]. vm_compute. reflexivity.
Qed.

(** C9, at a thrown [std::exception] whose type descriptor lies just
    below 2 GiB from the base of the image, its name just above: the
    offset of the name is added in [size_t], not in [int]. *)
Lemma message_stored_iff_witness :
  Rtti.Process64 Samples.demangle Inputs.thrown_far Modules.empty Samples.parameters
  = Rtti.Returned Samples.decoded /\
  exists p, Rtti.what64 Inputs.thrown_far Samples.parameters = Some p /\ p <> 0 /\
            Rtti.ReadNulTerminatedString Inputs.thrown_far p 1024 <> [].
Proof.
  assert (Hr : Rtti.Process64 Samples.demangle Inputs.thrown_far Modules.empty
                 Samples.parameters = Rtti.Returned Samples.decoded)
    by (vm_compute; reflexivity).
  split; [exact Hr|].
  apply (proj1 (message_stored_iff Samples.demangle Inputs.thrown_far Modules.empty
                  Samples.parameters Samples.decoded) Hr).
  discriminate.
Defined.

(** The same at [thrown 1], where the descriptor is near the base. *)
Lemma Process64_near_descriptor :
  Rtti.Process64 Samples.demangle (Samples.thrown 1) Modules.empty Samples.parameters
  = Rtti.Returned Samples.decoded.
Proof. vm_compute. reflexivity. Qed.


(** * Further properties of the code *)

(** ** The checksum *)

Section Checksum.
Import Crc32.

(** One round of the inner loop of the table constructor. *)
Lemma table_rounds_S polynomial j c :
  table_rounds polynomial (S j) c
  = table_rounds polynomial j
      (if Z.testbit c 0 then Z.lxor polynomial (Z.shiftr c 1) else Z.shiftr c 1).
Proof. done. Qed.

Lemma round_lxor polynomial x y :
  (if Z.testbit (Z.lxor x y) 0
   then Z.lxor polynomial (Z.shiftr (Z.lxor x y) 1)
   else Z.shiftr (Z.lxor x y) 1)
  = Z.lxor (if Z.testbit x 0 then Z.lxor polynomial (Z.shiftr x 1) else Z.shiftr x 1)
           (if Z.testbit y 0 then Z.lxor polynomial (Z.shiftr y 1) else Z.shiftr y 1).
Proof.
  rewrite Z.lxor_spec, Z.shiftr_lxor.
  destruct (Z.testbit x 0), (Z.testbit y 0); cbn [xorb];
    apply Z.bits_inj'; intros n _; rewrite ?Z.lxor_spec;
    by destruct (Z.testbit polynomial n), (Z.testbit (Z.shiftr x 1) n),
                (Z.testbit (Z.shiftr y 1) n).
Qed.

(** The rounds of the constructor are linear over exclusive or. *)
Lemma table_rounds_lxor polynomial j : forall x y,
  table_rounds polynomial j (Z.lxor x y)
  = Z.lxor (table_rounds polynomial j x) (table_rounds polynomial j y).
Proof.
  induction j as [|j IH]; intros x y; [done|].
  by rewrite !table_rounds_S, round_lxor, IH.
Qed.

(** On a value whose low [k] bits are clear, [j <= k] rounds only shift. *)
Lemma table_rounds_shiftl polynomial j : forall k h,
  0 <= h -> (j <= k)%nat ->
  table_rounds polynomial j (Z.shiftl h (Z.of_nat k)) = Z.shiftl h (Z.of_nat (k - j)).
Proof.
  induction j as [|j IH]; intros k h Hh Hk.
  - by rewrite Nat.sub_0_r.
  - rewrite table_rounds_S.
    destruct k as [|k]; [lia|].
    rewrite Z.shiftl_spec_low by lia.
    rewrite Z.shiftr_shiftl_l by lia.
    replace (Z.of_nat (S k) - 1) with (Z.of_nat k) by lia.
    rewrite IH by lia. done.
Qed.

Lemma split_bytes x :
  0 <= x -> x = Z.lxor (Z.land x 0xFF) (Z.shiftl (Z.shiftr x 8) 8).
Proof.
  intros Hx. apply Z.bits_inj'. intros n Hn.
  rewrite Z.lxor_spec, Z.land_spec. change 0xFF with (Z.ones 8).
  destruct (Z.lt_ge_cases n 8) as [Hlt|Hge].
  - rewrite Z.ones_spec_low, Z.shiftl_spec_low by lia.
    by rewrite andb_true_r, xorb_false_r.
  - rewrite Z.ones_spec_high, Z.shiftl_spec, Z.shiftr_spec by lia.
    rewrite andb_false_r, xorb_false_l. f_equal. lia.
Qed.

Lemma nth_LookupTable polynomial i :
  (i < 256)%nat -> nth i (LookupTable polynomial) 0 = table_rounds polynomial 8 (Z.of_nat i).
Proof.
  intros Hi. unfold LookupTable.
  rewrite (nth_indep _ 0 (table_rounds polynomial 8 (Z.of_nat 0)))
    by (rewrite length_map, length_seq; lia).
  rewrite (map_nth (fun i => table_rounds polynomial 8 (Z.of_nat i))).
  by rewrite seq_nth.
Qed.

(** X1: one step of [Update] with the table of a polynomial is what the
    eight rounds of the table constructor make of the checksum so far
    combined with the byte: the table does not change what is computed,
    the shift register of the polynomial, bit by bit. *)
Theorem step_is_eight_rounds polynomial c u :
  0 <= c ->
  step (LookupTable polynomial) c u
  = table_rounds polynomial 8 (Z.lxor c (byte_to_Z u)) /\
  step Default c u = table_rounds polynomial_default 8 (Z.lxor c (byte_to_Z u)).
Proof.
  intros Hc.
  assert (Hstep : forall p, step (LookupTable p) c u
                            = table_rounds p 8 (Z.lxor c (byte_to_Z u))).
  { intros p. unfold step.
    pose proof (byte_to_Z_range u) as Hu.
    set (x := Z.lxor c (byte_to_Z u)).
    assert (Hx : 0 <= x) by (apply Z.lxor_nonneg; lia).
    assert (Hsplit : table_rounds p 8 x
                     = Z.lxor (table_rounds p 8 (Z.land x 0xFF)) (Z.shiftr x 8)).
    { transitivity (table_rounds p 8
                      (Z.lxor (Z.land x 0xFF) (Z.shiftl (Z.shiftr x 8) (Z.of_nat 8)))).
      - f_equal. by apply split_bytes.
      - rewrite table_rounds_lxor.
        rewrite (table_rounds_shiftl p 8 8) by (rewrite ?Z.shiftr_nonneg; lia).
        by rewrite Nat.sub_diag, Z.shiftl_0_r. }
    rewrite Hsplit. unfold x at 3. rewrite Z.shiftr_lxor.
    replace (Z.shiftr (byte_to_Z u) 8) with 0
      by (symmetry; rewrite Z.shiftr_div_pow2 by lia; apply Z.div_small; lia).
    rewrite Z.lxor_0_r. f_equal.
    rewrite nth_LookupTable.
    - rewrite Z2Nat.id; [done|]. rewrite land_255. apply Z.mod_pos_bound. lia.
    - apply index_lt. }
  split; [apply Hstep|]. apply (Hstep polynomial_default).
Qed.

(** X2: a checksum can be computed in parts: the checksum of a buffer
    continued with that of a second one is the checksum of the two put
    together, the empty buffer changes nothing, and the result is a 32-bit
    value. *)
Theorem Update_in_parts a b initial :
  u32 initial ->
  Update (a ++ b) initial = Update b (Update a initial) /\
  Update [] initial = initial /\
  u32 (Update a initial).
Proof.
  intros Hi. split; [apply Update_app|]. split; [apply Update_nil|].
  by apply Update_u32.
Qed.

(** X3: two buffers that differ in exactly one byte never have the same
    checksum, whatever the checksum they continue. *)
Theorem Update_tells_one_byte pre u1 u2 suf initial :
  u32 initial -> u1 <> u2 ->
  Update (pre ++ u1 :: suf) initial <> Update (pre ++ u2 :: suf) initial.
Proof. apply Update_single_byte. Qed.

End Checksum.

(** ** Writing a log and opening it *)

Section Sealing.
Context `{Platform}.
Import Packed BinaryLog Sink Player Notions Opened.

(** X4: the file every session of the writer leaves is sealed: it starts
    with the header, of the version of the program, and the checksum in
    the header is that of all that follows it. *)
Theorem session_log_sealed t0 p events t1 collection file :
  Forall (fun tc => is_event (snd tc) = true) events ->
  log_of (session t0 p events t1 collection) = Some file ->
  sealed file /\ (sizeof FileHeader.layout <= length file)%nat.
Proof.
  intros Hev Hlog. assert (Hs : sealed file) by (by eapply session_sealed).
  split; [done|]. by apply sealed_header.
Qed.

(** X5: the constructor of the replayer accepts every sealed file, with
    the sanity check and without it, and leaves the stream after the
    header, the checksum at 0 and no module loaded. *)
Theorem new_accepts_sealed file state :
  sealed file ->
  new (Some file) state = Ok tt (opened file state) /\
  m_Pos (opened file state) = sizeof FileHeader.layout /\
  m_Crc32 (opened file state) = 0 /\
  Player.m_Modules (opened file state) = Modules.empty.
Proof. intros Hs. split; [by apply new_sealed | done]. Qed.

(** X6: with the sanity check, the constructor rejects as damaged a sealed
    file in which any one byte after the header has been replaced by
    another. *)
Theorem new_rejects_changed_byte file state i b b' :
  sealed file -> NoSanityCheck state = false ->
  (sizeof FileHeader.layout <= i)%nat -> file !! i = Some b -> b' <> b ->
  new (Some (<[i := b']> file)) state
  = Halt (Throw Damaged) (opened (<[i := b']> file) state).
Proof. apply new_tampered_rejected. Qed.

(** X7: what the constructor refuses before any check of the contents: a
    file that cannot be opened, a file shorter than a header, and a file
    whose version differs from that of the program in its upper 16 bits
    (major and minor); the last also without the sanity check. *)
Theorem new_refuses state :
  (exists p, new None state = Halt (Throw CannotOpen) p) /\
  (forall file, (length file < sizeof FileHeader.layout)%nat ->
     exists p, new (Some file) state = Halt (Throw UnexpectedEnd) p) /\
  (forall file, (sizeof FileHeader.layout <= length file)%nat ->
     Z.shiftr (FileHeader.Version (FileHeader.of_bytes (take (sizeof FileHeader.layout) file))) 16
     <> Z.shiftr Version.hindsight_version_int 16 ->
     exists p, new (Some file) state = Halt (Throw VersionDiffers) p).
Proof.
  split; [by eexists|]. split.
  - intros file Hlen.
    unfold new, bind, Player.Read, AssertSizeLeft, bind, SizeLeft, Size, Pos.
    change (default [] (Some file)) with file. cbn [m_StreamSize m_Pos].
    destruct (Nat.ltb_spec (length file - 0) (sizeof FileHeader.layout)) as [_|Hge]; [|lia].
    by eexists.
  - intros file Hlen Hver.
    unfold new, bind, Player.Read, AssertSizeLeft, bind, modify, get, SizeLeft, Size, Pos.
    change (default [] (Some file)) with file.
    cbn [m_StreamSize m_Pos m_Stream].
    destruct (Nat.ltb_spec (length file - 0) (sizeof FileHeader.layout)) as [Hlt|_]; [lia|].
    cbn [with_pos with_Header m_Header m_Pos m_Stream m_StreamSize m_State m_ShouldFilter
         m_Filter m_Crc32 m_Handlers Player.m_Modules calls keys].
    rewrite drop_0.
    destruct (Z.eqb_spec
                (Z.shiftr (FileHeader.Version
                             (FileHeader.of_bytes (take (sizeof FileHeader.layout) file))) 16)
                (Z.shiftr Version.hindsight_version_int 16)) as [Heq|_]; [done|].
    cbn [negb]. by eexists.
Qed.

(** Where [Play] is when it returns, and that the rounds given to its
    loop are enough. *)
Lemma Play_in_bounds file state handlers now :
  (sizeof FileHeader.layout <= length file)%nat ->
  match Play now (attach handlers (opened file state)) with
  | Ok _ p =>
      (sizeof FileHeader.layout <= m_Pos p <= length file)%nat /\
      m_Crc32 p = Crc32.Update (take (m_Pos p - sizeof FileHeader.layout)
                                     (drop (sizeof FileHeader.layout) file)) 0 /\
      FileHeader.Crc32 (FileHeader.of_bytes (take (sizeof FileHeader.layout) file))
      = m_Crc32 p
  | Halt s p => s <> OutOfFuel
  end.
Proof.
  intros Hlen.
  pose proof (playing_attach _ _ _ _ handlers _ (opened_playing file state Hlen)) as Hp0.
  pose proof (Play_events_spec _ _ now _ Hp0) as Hev.
  rewrite Play_eq.
  destruct (Play_events now (attach handlers (opened file state))) as [[] p1|s p1].
  - rewrite Play_check_eq.
    destruct Hev as (_ & _ & Hh & Hlo & _ & Hhi & Hcrc).
    destruct (Z.eqb_spec (FileHeader.Crc32 (m_Header p1)) (m_Crc32 p1)) as [Heq|_]; [|done].
    rewrite Nat.sub_0_r in Hcrc. rewrite <- Hh. repeat split; try done; lia.
  - exact Hev.
Qed.

Import Quiet.

(** A replayer without the break options neither waits for a key nor
    ends the program: [HandleBreakpointOptions] is not reached. *)

Lemma calm_bind {A B} (m : M A) (k : A -> M B) :
  calm m -> (forall a, calm (k a)) -> calm (bind m k).
Proof.
  intros Hm Hk p Hp. unfold bind. specialize (Hm p Hp).
  destruct (m p) as [a p'|s p']; [by apply Hk | done].
Qed.

Lemma calm_get_bind {B} (k : Player -> M B) :
  (forall a, quiet a -> calm (k a)) -> calm (bind get k).
Proof. intros Hk p Hp. unfold bind, get. by apply Hk. Qed.

Lemma calm_ret {A} (a : A) : calm (ret a).
Proof. by intros p Hp. Qed.

Lemma calm_throw {A} e : calm (throw e : M A).
Proof. by intros p Hp. Qed.

Lemma calm_modify f : (forall p, m_State (f p) = m_State p) -> calm (modify f).
Proof. intros Hf p Hp. unfold modify, quiet. by rewrite Hf. Qed.

Lemma calm_emit c : calm (emit c).
Proof. by apply calm_modify. Qed.

Lemma calm_seek_back n : calm (seek_back n).
Proof. by apply calm_modify. Qed.

Lemma calm_Read n b : calm (Read n b).
Proof.
  intros p Hp. unfold Read, bind, AssertSizeLeft.
  destruct (SizeLeft p <? n)%nat; [done|]. by destruct b.
Qed.

Ltac calm_step :=
  cbv zeta;
  match goal with
  | |- calm (bind get _) => apply calm_get_bind; intros ? ?
  | |- calm (bind _ _) => apply calm_bind; [|intros ?]
  | |- calm (ret _) => apply calm_ret
  | |- calm (throw _) => apply calm_throw
  | |- calm (emit _) => apply calm_emit
  | |- calm (seek_back _) => apply calm_seek_back
  | |- calm (modify _) => apply calm_modify; intros ?; reflexivity
  | |- calm (Read _ _) => apply calm_Read
  | Hq : quiet ?p |- context [BreakOnBreakpoints (m_State ?p)] => rewrite (proj1 Hq)
  | Hq : quiet ?p |- context [BreakOnExceptions (m_State ?p)] =>
      rewrite (proj2 Hq); cbn [andb]
  | |- calm (if ?b then _ else _) => destruct b
  | |- calm _ => assumption
  end.

Lemma calm_Read_size size : calm (Read_size size).
Proof. unfold Read_size. repeat calm_step. Qed.

Lemma calm_Read_string size : calm (Read_string size).
Proof. unfold Read_string. apply calm_bind; [apply calm_Read_size|]. intros. repeat calm_step. Qed.

Lemma calm_Read_wstring size : calm (Read_wstring size).
Proof. unfold Read_wstring. apply calm_bind; [apply calm_Read_size|]. intros. repeat calm_step. Qed.

Lemma calm_Read_strings count : calm (Read_strings count).
Proof.
  induction count as [|n IH]; cbn [Read_strings]; [apply calm_ret|].
  apply calm_bind; [apply calm_Read_string|]. intros. repeat calm_step.
Qed.

Lemma calm_Read_instructions count : calm (Read_instructions count).
Proof.
  induction count as [|n IH]; cbn [Read_instructions]; [apply calm_ret|].
  repeat first [apply calm_Read_string | calm_step].
Qed.

Lemma calm_Read_entries count : calm (Read_entries count).
Proof.
  induction count as [|n IH]; cbn [Read_entries]; [apply calm_ret|].
  repeat first [apply calm_Read_string | apply calm_Read_wstring
               | apply calm_Read_instructions | calm_step].
Qed.

Lemma calm_Read_context frame pi : calm (Read_context frame pi).
Proof. unfold Read_context. repeat calm_step. Qed.

Lemma calm_Read_trace : calm Read_trace.
Proof. unfold Read_trace. repeat first [apply calm_Read_entries | calm_step]. Qed.

Lemma calm_EmitException time frame : calm (EmitException time frame).
Proof.
  unfold EmitException.
  repeat first [apply calm_Read_context | apply calm_Read_trace | calm_step].
Qed.

Lemma calm_dispatch e : calm (dispatch e).
Proof.
  unfold dispatch, EmitCreateProcess, EmitCreateThread, EmitDllLoad, EmitExitProcess,
    EmitExitThread, EmitDebugString, EmitRip, EmitDllUnload.
  repeat first [apply calm_EmitException | apply calm_Read_string | apply calm_Read_wstring
               | calm_step].
Qed.

Lemma calm_Next : calm Next.
Proof. unfold Next. repeat first [apply calm_dispatch | calm_step]. Qed.

Lemma calm_Next_loop fuel : calm (Next_loop fuel).
Proof.
  induction fuel as [|fuel IH]; cbn [Next_loop]; [by intros p Hp|].
  repeat first [apply calm_Next | calm_step].
Qed.

Lemma calm_Play now : calm (Play now).
Proof.
  unfold Play, Play_events, Play_check.
  repeat first [apply calm_Next_loop | apply calm_Read_string | apply calm_Read_strings
               | calm_step].
Qed.

Lemma attach_State handlers p : m_State (attach handlers p) = m_State p.
Proof.
  revert p. induction handlers as [|h handlers IH]; intros p; [done|].
  change (attach (h :: handlers) p) with (attach handlers (AddHandler h p)).
  by rewrite IH.
Qed.

(** X8: on every file with a whole header the loop of [Play] ends within
    the rounds the bytes of the file allow.  When [Play] returns, it has
    not read past the end of the file, and the checksum of the bytes of the
    body it has read is the one in the header.  When it does not return
    and neither [--break-breakpoint] nor [--break-exception] is set, it
    has thrown one of its errors: it then neither waits for a key nor ends
    the program through [exit]. *)
Theorem Play_within_file file state handlers now :
  (sizeof FileHeader.layout <= length file)%nat ->
  match Play now (attach handlers (opened file state)) with
  | Ok _ p =>
      (sizeof FileHeader.layout <= m_Pos p <= length file)%nat /\
      m_Crc32 p = Crc32.Update (take (m_Pos p - sizeof FileHeader.layout)
                                     (drop (sizeof FileHeader.layout) file)) 0 /\
      FileHeader.Crc32 (FileHeader.of_bytes (take (sizeof FileHeader.layout) file))
      = m_Crc32 p
  | Halt s p =>
      s <> OutOfFuel /\
      (BreakOnBreakpoints state = false -> BreakOnExceptions state = false ->
       exists e, s = Throw e)
  end.
Proof.
  intros Hlen.
  pose proof (Play_in_bounds file state handlers now Hlen) as Hold.
  pose proof (calm_Play now (attach handlers (opened file state))) as Hcalm.
  destruct (Play now (attach handlers (opened file state))) as [[] p|s p]; [exact Hold|].
  split; [exact Hold|]. intros Hb He.
  assert (Hr : raised s p).
  { apply Hcalm. unfold quiet. by rewrite attach_State. }
  destruct s; try done. by eexists.
Qed.

(** X9: on a sealed file, when [Play] gets through the events of the whole
    file, its last check passes and it returns. *)
Theorem Play_sealed_read_through file state handlers now p1 :
  sealed file ->
  Play_events now (attach handlers (opened file state)) = Ok tt p1 ->
  m_Pos p1 = m_StreamSize p1 ->
  Play now (attach handlers (opened file state)) = Ok tt p1.
Proof.
  intros Hs Hev Hend.
  destruct (sealed_header file Hs) as (Hlen & _ & Hcrc).
  pose proof (Play_events_spec _ _ now _
                (playing_attach _ _ _ _ handlers _ (opened_playing file state Hlen))) as Hp1.
  rewrite Hev in Hp1.
  rewrite Play_eq, Hev, Play_check_eq, (playing_whole _ _ _ _ Hp1 Hend).
  assert (Hh : Player.m_Header p1
               = FileHeader.of_bytes (take (sizeof FileHeader.layout) file)) by apply Hp1.
  by rewrite Hh, Hcrc, Z.eqb_refl.
Qed.

End Sealing.

(** ** Reading events *)

Section Events.
Context `{Platform}.
Import Packed BinaryLog Sink Player Notions Opened.

Lemma Read_checked n p :
  (n <= SizeLeft p)%nat ->
  Read n true p
  = Ok (take n (drop (m_Pos p) (m_Stream p)))
       (with_Crc32 (Crc32.Update (take n (drop (m_Pos p) (m_Stream p))) (m_Crc32 p))
          (with_pos (m_Pos p + n) p)).
Proof.
  intros Hn. unfold Read, bind, AssertSizeLeft.
  destruct (Nat.ltb_spec (SizeLeft p) n) as [Hlt|_]; [lia | done].
Qed.

Lemma Read_unchecked n p :
  (n <= SizeLeft p)%nat ->
  Read n false p = Ok (take n (drop (m_Pos p) (m_Stream p))) (with_pos (m_Pos p + n) p).
Proof.
  intros Hn. unfold Read, bind, AssertSizeLeft.
  destruct (Nat.ltb_spec (SizeLeft p) n) as [Hlt|_]; [lia | done].
Qed.

(** X10: where [Next] stops.  With fewer than four bytes left it returns
    [false] and reads nothing, so up to three bytes after the last event
    are passed over in silence; four bytes that are not the signature of an
    event (in any case of the letters) raise "unexpected frame"; an event
    entry with an id that is not one of the nine debug events raises
    "unexpected event type", the stream back at the start of the entry and
    no sink called. *)
Theorem Next_stops p :
  ((SizeLeft p < 4)%nat -> Next p = Ok false p) /\
  ((4 <= SizeLeft p)%nat ->
   strnicmp_equal (take 4 (drop (m_Pos p) (m_Stream p))) (ascii_bytes "EVNT") 4 = false ->
   Next p = Halt (Throw UnexpectedFrame) (with_pos (m_Pos p + 4) p)) /\
  ((sizeof EventEntry.layout <= SizeLeft p)%nat ->
   strnicmp_equal (take 4 (drop (m_Pos p) (m_Stream p))) (ascii_bytes "EVNT") 4 = true ->
   ~ (1 <= EventEntry.EventId
             (EventEntry.of_bytes
                (take (sizeof EventEntry.layout) (drop (m_Pos p) (m_Stream p)))) <= 9) ->
   exists p',
     Next p = Halt (Throw (UnexpectedEventType
                             (EventEntry.EventId
                                (EventEntry.of_bytes
                                   (take (sizeof EventEntry.layout)
                                         (drop (m_Pos p) (m_Stream p))))))) p' /\
     m_Pos p' = m_Pos p /\ m_Crc32 p' = m_Crc32 p /\ calls p' = calls p).
Proof.
  split; [|split].
  - intros Hleft. unfold Next. unfold bind at 1. unfold get.
    by destruct (Nat.ltb_spec (SizeLeft p) 4) as [_|Hge]; [|lia].
  - intros Hleft Hsig. unfold Next. unfold bind at 1. unfold get.
    destruct (Nat.ltb_spec (SizeLeft p) 4) as [Hlt|_]; [lia|].
    unfold bind at 1. rewrite Read_unchecked by done. by rewrite Hsig.
  - intros Hleft Hsig Hid. unfold Next. unfold bind at 1. unfold get.
    assert (Hsz : sizeof EventEntry.layout = 48%nat) by done.
    destruct (Nat.ltb_spec (SizeLeft p) 4) as [Hlt|_]; [lia|].
    unfold bind at 1. rewrite Read_unchecked by lia. rewrite Hsig. cbn [negb].
    unfold bind at 1. unfold seek_back at 1. unfold modify.
    unfold bind at 1. rewrite Read_unchecked
      by (unfold SizeLeft, Size, Pos in *; cbn [m_Pos m_StreamSize with_pos]; lia).
    cbn [m_Pos m_Stream with_pos].
    replace (m_Pos p + 4 - 4)%nat with (m_Pos p) by lia.
    unfold bind at 1. unfold seek_back at 1. unfold modify.
    cbn [m_Pos m_Stream with_pos].
    set (e := EventEntry.of_bytes _) in *.
    unfold bind at 1. unfold dispatch.
    unfold EXCEPTION_DEBUG_EVENT, CREATE_PROCESS_DEBUG_EVENT, CREATE_THREAD_DEBUG_EVENT,
      EXIT_PROCESS_DEBUG_EVENT, EXIT_THREAD_DEBUG_EVENT, LOAD_DLL_DEBUG_EVENT,
      OUTPUT_DEBUG_STRING_EVENT, RIP_EVENT, UNLOAD_DLL_DEBUG_EVENT.
    repeat match goal with
           | |- context [EventEntry.EventId e =? ?k] =>
               destruct (Z.eqb_spec (EventEntry.EventId e) k) as [Hk|_]; [lia|]
           end.
    unfold throw. eexists. split; [done|].
    cbn [m_Pos m_Crc32 calls with_pos]. repeat split. lia.
Qed.

(** X11: the replayer, at the path of a LoadDll event in its stream,
    reads the path, of as many 16-bit characters as the entry says, and
    loads the module with it, the base and the size of the entry into its
    collection before it tells the sinks, and also when its filter leaves
    the event out; when it does not, every sink gets one call, in their
    order, with the path read, the collection with the module in it and
    the index under which the path is listed there. *)
Theorem EmitDllLoad_loads_first time frame p :
  let n := Z.to_nat (DllLoadEventEntry.ModulePathSize frame) in
  let path := bytes_wstring (take (2 * n) (drop (m_Pos p) (m_Stream p))) in
  let loaded := Load (Player.m_Modules p) path (DllLoadEventEntry.ModuleBase frame)
                  (DllLoadEventEntry.ModuleSize frame) in
  0 <= DllLoadEventEntry.ModulePathSize frame < 2 ^ 63 ->
  (2 * n <= SizeLeft p)%nat ->
  exists p' i,
    EmitDllLoad time frame p = Ok tt p' /\
    m_Pos p' = (m_Pos p + 2 * n)%nat /\
    Player.m_Modules p' = loaded /\
    Modules.Contains loaded path = true /\
    m_ModuleIndexMap loaded !! path = Some i /\
    calls p'
    = calls p ++
      if m_ShouldFilter p && negb (filter_count p "load_dll") then []
      else map (fun handler =>
                  (handler,
                   OnDllLoad time {| ld_lpBaseOfDll := DllLoadEventEntry.ModuleBase frame |}
                     (EventEntryProcessInformation.to_PROCESS_INFORMATION
                        (EventEntry.ProcessInformation (DllLoadEventEntry.base frame)))
                     path (to_int (Z.of_nat i)) loaded))
               (m_Handlers p).
Proof.
  intros n path loaded Hsize Hleft.
  assert (Hidx : is_Some (m_ModuleIndexMap loaded !! path)).
  { unfold loaded, Load, Modules.Contains. cbn [m_ModuleIndexMap].
    case_bool_decide as Hc'; [done|]. rewrite lookup_insert_eq. by eexists. }
  destruct Hidx as [i Hi].
  unfold EmitDllLoad. unfold bind at 1.
  unfold Read_wstring, Read_size, to_int64.
  destruct (Z.ltb_spec (DllLoadEventEntry.ModulePathSize frame) (2 ^ 63)) as [_|]; [|lia].
  destruct (Z.eqb_spec (DllLoadEventEntry.ModulePathSize frame) (-1)) as [|_]; [lia|].
  unfold bind at 1. unfold ret at 1.
  destruct (Z.ltb_spec (DllLoadEventEntry.ModulePathSize frame) 0) as [|_]; [lia|].
  unfold bind at 1. fold n. rewrite (Nat.mul_comm n 2).
  rewrite Read_checked by done. unfold ret at 1. fold path.
  unfold bind, modify, get, emit, ret. cbn [ld_lpBaseOfDll].
  cbn [m_ShouldFilter Player.m_Modules with_Modules with_Crc32 with_pos].
  unfold filter_count. cbn [m_Filter with_Modules with_Crc32 with_pos].
  fold (filter_count p "load_dll"). fold loaded.
  destruct (m_ShouldFilter p && negb (filter_count p "load_dll"));
    eexists; exists i; (split; [reflexivity|]);
    cbn [m_Pos m_Crc32 Player.m_Modules calls m_Handlers with_Modules with_Crc32 with_pos
         with_calls].
  - repeat split; try done; [by apply bool_decide_eq_true_2; eexists|].
    by rewrite app_nil_r.
  - repeat split; try done; [by apply bool_decide_eq_true_2; eexists|].
    unfold GetIndex_path. by rewrite Hi.
Qed.

End Events.

(** ** The collection of modules *)

Section Collection.
Import Modules.

Lemma Contains_Some mc path :
  Contains mc path = true <-> is_Some (m_ModuleIndexMap mc !! path).
Proof.
  unfold Contains. apply bool_decide_eq_true.
Qed.

Lemma built_listed mc :
  built mc ->
  NoDup (m_Modules mc) /\
  (forall path, is_Some (m_ModuleIndexMap mc !! path) <-> path ∈ m_Modules mc).
Proof.
  induction 1 as [|mc path h size Hb [Hnd Hin]|mc h Hb IH].
  - split; [constructor|]. intros path. cbn. rewrite lookup_empty.
    split; [by intros [? ?] | by intros ?%elem_of_nil].
  - unfold Load, Contains. cbn [m_Modules m_ModuleIndexMap].
    case_bool_decide as Hc; [done|]. split.
    + apply NoDup_app. split; [done|]. split; [|apply NoDup_singleton].
      intros x Hx ->%list_elem_of_singleton. apply Hc, Hin, Hx.
    + intros p. rewrite elem_of_app, list_elem_of_singleton.
      destruct (decide (path = p)) as [->|Hne].
      * rewrite lookup_insert_eq. split; [by right | by eexists].
      * rewrite lookup_insert_ne by done. rewrite Hin. split; [by left|].
        by intros [?|?].
  - unfold Unload. by destruct (m_ModuleMap mc !! h).
Qed.

(** X12: what every collection made by [Load] and [Unload] keeps: a module
    that is active is kept under its own base, its path has been seen and
    has the base among its handles; a path is in the list of the paths seen
    once, at the place its index says, and it is listed exactly when
    [Contains] says so. *)
Theorem built_consistent mc :
  built mc ->
  (forall base m, m_ModuleMap mc !! base = Some m ->
     Base m = base /\ Contains mc (Path m) = true /\
     base ∈ Get_path mc (Path m)) /\
  NoDup (m_Modules mc) /\
  (forall path, Contains mc path = true <-> path ∈ m_Modules mc) /\
  (forall path i, m_ModuleIndexMap mc !! path = Some i -> m_Modules mc !! i = Some path).
Proof.
  intros Hb. destruct (built_wf mc Hb) as [Hmod Hidx].
  destruct (built_listed mc Hb) as [Hnd Hin].
  split; [|split; [done|split; [|done]]].
  - intros base m Hm. destruct (Hmod base m Hm) as (HB & Hi & s & Hs & Hbs).
    split; [done|]. split; [by apply Contains_Some|].
    unfold Get_path, Active_path. rewrite Hs.
    assert (size s <> 0%nat).
    { intros Hz%size_empty_inv. apply (not_elem_of_empty (C := gset Z) base).
      by rewrite <- (leibniz_equiv _ _ Hz). }
    by rewrite bool_decide_eq_false_2.
  - intros path. by rewrite Contains_Some.
Qed.

(** X13: the index of a path, once given, stays: [Load] of any module and
    [Unload] of any base leave it as it is, and the list of the paths seen
    only grows at its end. *)
Theorem index_stays mc path i :
  m_ModuleIndexMap mc !! path = Some i ->
  (forall path' base size,
     m_ModuleIndexMap (Load mc path' base size) !! path = Some i /\
     GetIndex_path (Load mc path' base size) path = GetIndex_path mc path /\
     exists new, m_Modules (Load mc path' base size) = m_Modules mc ++ new) /\
  (forall base,
     m_ModuleIndexMap (Unload mc base) !! path = Some i /\
     GetIndex_path (Unload mc base) path = GetIndex_path mc path /\
     m_Modules (Unload mc base) = m_Modules mc).
Proof.
  intros Hi. split.
  - intros path' base size.
    assert (Hl : m_ModuleIndexMap (Load mc path' base size) !! path = Some i).
    { unfold Load, Contains. cbn [m_ModuleIndexMap].
      case_bool_decide as Hc; [done|].
      rewrite lookup_insert_ne; [done|]. intros ->. apply Hc. by eexists. }
    split; [done|]. split; [unfold GetIndex_path; by rewrite Hl, Hi|].
    unfold Load. cbn [m_Modules]. destruct (Contains mc path').
    + exists []. by rewrite app_nil_r.
    + by eexists.
  - intros base. unfold GetIndex_path, Unload.
    by destruct (m_ModuleMap mc !! base).
Qed.

(** X14: loading at a base.  At a base where no module is active, the
    module becomes active with the path and the size given; at a base where
    a module is active already, that module stays as it is, path and size.
    In both cases the path counts as seen and the base is filed under
    it. *)
Theorem Load_at_base mc path base image_size :
  (m_ModuleMap mc !! base = None ->
   m_ModuleMap (Load mc path base image_size) !! base
   = Some {| Base := base; Size := image_size; Path := path |} /\
   Get (Load mc path base image_size) base = path) /\
  (forall m, m_ModuleMap mc !! base = Some m ->
   m_ModuleMap (Load mc path base image_size) !! base = Some m /\
   Get (Load mc path base image_size) base = Path m) /\
  Active (Load mc path base image_size) base = true /\
  Contains (Load mc path base image_size) path = true /\
  base ∈ Get_path (Load mc path base image_size) path.
Proof.
  assert (Hact : is_Some (m_ModuleMap (Load mc path base image_size) !! base)).
  { unfold Load. cbn [m_ModuleMap]. destruct (m_ModuleMap mc !! base) eqn:Hb.
    - rewrite Hb. by eexists.
    - rewrite lookup_insert_eq. by eexists. }
  split; [|split; [|split; [|split]]].
  - intros Hb. unfold Get, Load. cbn [m_ModuleMap]. rewrite Hb.
    by rewrite lookup_insert_eq.
  - intros m Hb. unfold Get, Load. cbn [m_ModuleMap]. by rewrite !Hb.
  - by apply bool_decide_eq_true_2.
  - apply Contains_Some. unfold Load, Contains. cbn [m_ModuleIndexMap].
    case_bool_decide as Hc; [done|]. rewrite lookup_insert_eq. by eexists.
  - unfold Get_path, Active_path, Load. cbn [m_ModuleHandleMap].
    rewrite lookup_insert_eq.
    assert (Hin : base ∈ ({[base]} ∪ default ∅ (m_ModuleHandleMap mc !! path) : gset Z))
      by (apply elem_of_union; left; by apply elem_of_singleton).
    assert (size ({[base]} ∪ default ∅ (m_ModuleHandleMap mc !! path) : gset Z) <> 0%nat).
    { intros Hz%size_empty_inv. apply (not_elem_of_empty (C := gset Z) base).
      by rewrite <- (leibniz_equiv _ _ Hz). }
    by rewrite bool_decide_eq_false_2.
Qed.

(** X15: unloading.  A base at which no module is active leaves the
    collection as it is; otherwise the module at the base is no longer
    active, every other module stays, and the paths seen and their indices
    stay, the path of the unloaded module among them; unloading what was
    just loaded at a free base gives back the active modules there were. *)
Theorem Unload_at_base mc base :
  (m_ModuleMap mc !! base = None -> Unload mc base = mc) /\
  Active (Unload mc base) base = false /\
  Get (Unload mc base) base = [] /\
  GetIndex (Unload mc base) base = -1 /\
  (forall other, other <> base ->
     m_ModuleMap (Unload mc base) !! other = m_ModuleMap mc !! other) /\
  (forall path, Contains (Unload mc base) path = Contains mc path) /\
  (forall path size, m_ModuleMap mc !! base = None ->
     m_ModuleMap (Unload (Load mc path base size) base) = m_ModuleMap mc).
Proof.
  assert (Hgone : m_ModuleMap (Unload mc base) !! base = None).
  { unfold Unload. destruct (m_ModuleMap mc !! base) eqn:Hb; [|done].
    cbn [m_ModuleMap]. apply lookup_delete_eq. }
  split; [|split; [|split; [|split; [|split; [|split]]]]].
  - intros Hb. unfold Unload. by rewrite Hb.
  - apply bool_decide_eq_false_2. rewrite Hgone. by intros [? ?].
  - unfold Get. by rewrite Hgone.
  - unfold GetIndex. by rewrite Hgone.
  - intros other Hne. unfold Unload. destruct (m_ModuleMap mc !! base); [|done].
    cbn [m_ModuleMap]. by rewrite lookup_delete_ne.
  - intros path. unfold Contains, Unload. by destruct (m_ModuleMap mc !! base).
  - intros path size Hb. unfold Unload, Load. cbn [m_ModuleMap]. rewrite Hb.
    rewrite lookup_insert_eq. cbn [m_ModuleMap].
    rewrite delete_insert_eq. by apply delete_id.
Qed.

Lemma least_base_foldr (l : list (Z * Module_)) :
  match foldr least_base None l with
  | None => l = []
  | Some kv => kv ∈ l /\ forall kv', kv' ∈ l -> kv.1 <= kv'.1
  end.
Proof.
  induction l as [|kv l IH]; [done|]. cbn [foldr].
  destruct (foldr least_base None l) as [kv0|]; cbn [least_base].
  - destruct IH as [Hin Hmin]. destruct (Z.ltb_spec kv.1 kv0.1) as [Hlt|Hge].
    + split; [apply list_elem_of_here|]. intros kv' [->|Hin']%elem_of_cons; [lia|].
      specialize (Hmin kv' Hin'). lia.
    + split; [by apply list_elem_of_further|].
      intros kv' [->|Hin']%elem_of_cons; [lia | by apply Hmin].
  - subst l. split; [apply list_elem_of_here|].
    intros kv' [->|Hin']%elem_of_cons; [lia|]. by apply elem_of_nil in Hin'.
Qed.

Lemma ContainsAddress_range m address :
  ContainsAddress m address = true <->
  Base m <= address < (Base m + Size m) mod 2 ^ 64.
Proof.
  unfold ContainsAddress. rewrite andb_true_iff, Z.leb_le, Z.ltb_lt. done.
Qed.

(** X16: [GetModuleAtAddress] gives an active module whose range contains
    the address, the one with the least base of those whose range does,
    and gives none only when the range of no active module contains the
    address.  The range of a module is from its base up to, not including,
    its base plus its size modulo 2^64, the end as the pointer arithmetic
    of the 64-bit build gives it: a module that would reach the top of the
    address space or pass it contains no address. *)
Theorem GetModuleAtAddress_least mc address :
  match GetModuleAtAddress mc address with
  | Some m =>
      exists base,
        m_ModuleMap mc !! base = Some m /\
        Base m <= address < (Base m + Size m) mod 2 ^ 64 /\
        forall base' m', m_ModuleMap mc !! base' = Some m' ->
                         Base m' <= address < (Base m' + Size m') mod 2 ^ 64 ->
                         base <= base'
  | None =>
      forall base m, m_ModuleMap mc !! base = Some m ->
                     ~ (Base m <= address < (Base m + Size m) mod 2 ^ 64)
  end /\
  (forall m, 0 <= Base m < 2 ^ 64 -> 0 <= Size m < 2 ^ 64 -> 2 ^ 64 <= Base m + Size m ->
             ContainsAddress m address = false).
Proof.
  split; [|intros m Hb Hs Htop; destruct (ContainsAddress m address) eqn:Hc; [|done];
           apply ContainsAddress_range in Hc;
           replace (Base m + Size m) with (Base m + Size m - 2 ^ 64 + 1 * 2 ^ 64) in Hc by lia;
           rewrite Z.mod_add, Z.mod_small in Hc by lia; lia].
  unfold GetModuleAtAddress.
  pose proof (least_base_foldr
                (filter (fun kv => ContainsAddress kv.2 address = true)
                        (map_to_list (m_ModuleMap mc)))) as Hl.
  destruct (foldr least_base None _) as [[base m]|]; cbn [fmap option_fmap option_map snd].
  - destruct Hl as [Hin Hmin]. apply list_elem_of_filter in Hin as [Hc Hin].
    apply elem_of_map_to_list in Hin. exists base. split; [done|].
    split; [by apply ContainsAddress_range|].
    intros base' m' Hm' Hc'. apply ContainsAddress_range in Hc'.
    apply (Hmin (base', m')). apply list_elem_of_filter. split; [done|].
    by apply elem_of_map_to_list.
  - intros base m Hm Hc. apply ContainsAddress_range in Hc.
    assert (Hin : (base, m) ∈ filter (fun kv => ContainsAddress kv.2 address = true)
                              (map_to_list (m_ModuleMap mc))).
    { apply list_elem_of_filter. split; [done|]. by apply elem_of_map_to_list. }
    rewrite Hl in Hin. by apply elem_of_nil in Hin.
Qed.

End Collection.

(** ** The walk of the stack, further *)

Section Walking.
Context `{Trace.Services}.
Import Trace.

Lemma Walk_loop_plain collection is64 m max_instruction frames : forall trace,
  Forall (fun f => AddrPC f <> AddrReturn f) frames ->
  Walk_loop collection is64 m max_instruction frames [] trace
  = trace ++ map (frame_entry collection is64 max_instruction) frames.
Proof.
  induction frames as [|f frames IH]; intros trace Hf.
  - by rewrite app_nil_r.
  - inversion Hf as [|? ? Hne Hrest]; subst. cbn [Walk_loop map].
    destruct (Z.eqb_spec (AddrPC f) (AddrReturn f)) as [|_]; [done|].
    rewrite bool_decide_eq_true_2 by done. cbn [negb].
    destruct (negb (m =? SIZE_MAX)); rewrite IH by done;
      unfold AddFrame; by rewrite <- app_assoc.
Qed.

(** X17: a walk in which no frame returns to itself gives one entry for
    each frame, in order and none of them a marker, whatever the limit of
    recursion is. *)
Theorem Walk_without_recursion collection is64 m max_instruction frames :
  Forall (fun f => AddrPC f <> AddrReturn f) frames ->
  Walk collection is64 m max_instruction frames
  = map (frame_entry collection is64 max_instruction) frames /\
  Forall (fun entry => Recursion entry = false)
    (Walk collection is64 m max_instruction frames).
Proof.
  intros Hf. unfold Walk. rewrite Walk_loop_plain by done. cbn [app].
  split; [done|]. apply Forall_forall. intros entry Hin.
  apply list_elem_of_fmap in Hin as (f & -> & _). apply frame_entry_Recursion.
Qed.

Lemma Walk_loop_markers collection is64 m max_instruction frames :
  forall backlog trace,
  Forall (fun entry => Recursion entry = true ->
            m <= RecursionCount entry /\ 1 <= RecursionCount entry) trace ->
  Forall (fun entry => Recursion entry = true ->
            m <= RecursionCount entry /\ 1 <= RecursionCount entry)
    (Walk_loop collection is64 m max_instruction frames backlog trace).
Proof.
  induction frames as [|f frames IH]; intros backlog trace Ht; [done|].
  cbn [Walk_loop].
  assert (Hadd : forall t g,
            Forall (fun entry => Recursion entry = true ->
                      m <= RecursionCount entry /\ 1 <= RecursionCount entry) t ->
            Forall (fun entry => Recursion entry = true ->
                      m <= RecursionCount entry /\ 1 <= RecursionCount entry)
              (AddFrame collection is64 max_instruction t g)).
  { intros t g Hg. unfold AddFrame. apply Forall_app. split; [done|].
    apply Forall_singleton. by rewrite frame_entry_Recursion. }
  destruct (negb (m =? SIZE_MAX)); [|by apply IH, Hadd].
  destruct (AddrPC f =? AddrReturn f); [by apply IH|].
  destruct (decide (backlog = [])) as [->|Hne].
  - rewrite bool_decide_eq_true_2 by done. cbn [negb]. by apply IH, Hadd.
  - rewrite bool_decide_eq_false_2 by done. cbn [negb]. apply IH.
    destruct (Z.geb_spec (Z.of_nat (length backlog)) m) as [Hge|Hlt].
    + unfold AddRecursion.
      assert (Hmark : Forall (fun entry => Recursion entry = true ->
                        m <= RecursionCount entry /\ 1 <= RecursionCount entry)
                        (trace ++ [recursion_entry backlog])).
      { apply Forall_app. split; [done|]. apply Forall_singleton.
        intros _. cbn [RecursionCount recursion_entry]. split; [lia|].
        destruct backlog; [done | cbn [length]; lia]. }
      destruct (last backlog); [by apply Hadd | done].
    + rewrite foldl_AddFrame. apply Forall_app. split; [done|].
      apply Forall_forall. intros entry Hin.
      apply list_elem_of_fmap in Hin as (g & -> & _). by rewrite frame_entry_Recursion.
Qed.

(** X18: a marker of recursion in a trace stands for at least one frame
    and for no fewer frames than the limit: in every trace [Walk] builds,
    the count of a marker is at least 1 and at least the limit. *)
Theorem Walk_marker_counts collection is64 m max_instruction frames :
  Forall (fun entry => Recursion entry = true ->
            m <= RecursionCount entry /\ 1 <= RecursionCount entry)
    (Walk collection is64 m max_instruction frames).
Proof. unfold Walk. apply Walk_loop_markers. constructor. Qed.

End Walking.

(** ** Strings in the memory of the debuggee *)

Section RemoteStrings.
Import Rtti.

Lemma ReadNulTerminatedString_loop_shape fuel (mem : Memory) address maximumLength :
  forall offset data r,
  Forall (fun b => byte_to_Z b <> 0) data ->
  offset = Z.of_nat (length data) ->
  (forall i b, data !! i = Some b -> mem !! (address + Z.of_nat i) = Some b) ->
  (0 < maximumLength -> offset < maximumLength) ->
  ReadNulTerminatedString_loop fuel mem address offset maximumLength data = Some r ->
  r = [] \/
  exists s, r = s ++ [Byte.x00] /\
            Forall (fun b => byte_to_Z b <> 0) s /\
            (forall i b, s !! i = Some b -> mem !! (address + Z.of_nat i) = Some b) /\
            (0 < maximumLength -> Z.of_nat (length s) <= maximumLength) /\
            (maximumLength = 0 \/ Z.of_nat (length s) < maximumLength ->
             mem !! (address + Z.of_nat (length s)) = Some Byte.x00).
Proof.
  induction fuel as [|fuel IH]; intros offset data r Hnz Hoff Hmem Hcapped; [done|].
  cbn [ReadNulTerminatedString_loop]. rewrite read_bytes_1.
  destruct (mem !! (address + offset)) as [character|] eqn:Hread; cbn [fmap option_fmap option_map];
    [|intros [= <-]; by left].
  destruct (Z.eqb_spec (byte_to_Z character) 0) as [Hz|Hnzc].
  - intros [= <-]. right. exists data.
    assert (character = Byte.x00) as ->.
    { apply byte_to_Z_inj. by rewrite Hz. }
    split; [done|]. split; [done|]. split; [done|]. split.
    + intros Hpos. specialize (Hcapped Hpos). lia.
    + intros _. by rewrite <- Hoff.
  - assert (Hnz' : Forall (fun b => byte_to_Z b <> 0) (data ++ [character])).
    { apply Forall_app. split; [done|]. by apply Forall_singleton. }
    assert (Hmem' : forall i b, (data ++ [character]) !! i = Some b ->
                                mem !! (address + Z.of_nat i) = Some b).
    { intros i b Hi. apply lookup_app_Some in Hi as [Hi|[Hge Hi]]; [by apply Hmem|].
      apply list_lookup_singleton_Some in Hi as [Hi <-].
      replace (Z.of_nat i) with offset by lia. done. }
    destruct (negb (maximumLength =? 0) && (offset + 1 >=? maximumLength)) eqn:Hcap.
    + intros [= <-]. right. exists (data ++ [character]).
      split; [done|]. split; [done|]. split; [done|].
      apply andb_true_iff in Hcap as [Hm0 Hge].
      rewrite length_app. cbn [length]. split.
      * intros Hpos. specialize (Hcapped Hpos). lia.
      * intros [->|Hlt]; [done|]. lia.
    + intros Hloop. apply IH in Hloop; [done|done| |done|].
      * rewrite length_app. cbn [length]. lia.
      * intros Hpos. apply andb_false_iff in Hcap as [Hm0|Hlt].
        -- apply negb_false_iff, Z.eqb_eq in Hm0. lia.
        -- lia.
Qed.

(** X19: what [ReadNulTerminatedString] returns is empty or a run of
    characters other than NUL, as they stand in the memory from the address
    on, with one NUL after them; with a maximum length that is not 0 the
    characters are no more than that, and when they are fewer, or the
    maximum is 0, the NUL is the one the memory holds after them. *)
Theorem ReadNulTerminatedString_shape (mem : Memory) address maximumLength :
  0 <= maximumLength ->
  ReadNulTerminatedString mem address maximumLength = [] \/
  exists s,
    ReadNulTerminatedString mem address maximumLength = s ++ [Byte.x00] /\
    Forall (fun b => byte_to_Z b <> 0) s /\
    (forall i b, s !! i = Some b -> mem !! (address + Z.of_nat i) = Some b) /\
    (0 < maximumLength -> Z.of_nat (length s) <= maximumLength) /\
    (maximumLength = 0 \/ Z.of_nat (length s) < maximumLength ->
     mem !! (address + Z.of_nat (length s)) = Some Byte.x00).
Proof.
  intros Hmax.
  apply (ReadNulTerminatedString_loop_shape (S (size mem)) mem address maximumLength 0 []).
  - constructor.
  - done.
  - intros i b Hi. by rewrite lookup_nil in Hi.
  - lia.
  - apply ReadNulTerminatedString_eq.
Qed.

Lemma ReadNulTerminatedString_loop_reads fuel (mem : Memory) address maximumLength :
  forall rest offset data r,
  Forall (fun b => byte_to_Z b <> 0) rest ->
  (forall i b, rest !! i = Some b -> mem !! (address + offset + Z.of_nat i) = Some b) ->
  mem !! (address + offset + Z.of_nat (length rest)) = Some Byte.x00 ->
  (maximumLength = 0 \/ offset + Z.of_nat (length rest) < maximumLength) ->
  ReadNulTerminatedString_loop fuel mem address offset maximumLength data = Some r ->
  r = data ++ rest ++ [Byte.x00].
Proof.
  induction fuel as [|fuel IH]; intros rest offset data r Hnz Hmem Hend Hcap; [done|].
  cbn [ReadNulTerminatedString_loop]. rewrite read_bytes_1.
  destruct rest as [|b rest].
  - cbn [length] in Hend. rewrite Z.add_0_r in Hend. rewrite Hend.
    cbn [fmap option_fmap option_map]. change (byte_to_Z Byte.x00 =? 0) with true.
    cbn iota. by intros [= <-].
  - pose proof (Hmem 0%nat b eq_refl) as Hb. rewrite Z.add_0_r in Hb. rewrite Hb.
    cbn [fmap option_fmap option_map].
    inversion Hnz as [|? ? Hbnz Hrest]; subst.
    destruct (Z.eqb_spec (byte_to_Z b) 0) as [|_]; [done|].
    cbn [length] in Hcap, Hend.
    assert (Hno : negb (maximumLength =? 0) && (offset + 1 >=? maximumLength) = false).
    { destruct Hcap as [->|Hlt]; [done|]. apply andb_false_iff. right. lia. }
    rewrite Hno. intros Hloop.
    apply (IH rest) in Hloop.
    + by rewrite Hloop, <- app_assoc.
    + done.
    + intros i c Hi. specialize (Hmem (S i) c Hi).
      replace (address + (offset + 1) + Z.of_nat i)
        with (address + offset + Z.of_nat (S i)) by lia. done.
    + replace (address + (offset + 1) + Z.of_nat (length rest))
        with (address + offset + Z.of_nat (S (length rest))) by lia. done.
    + destruct Hcap as [->|Hlt]; [by left | right; lia].
Qed.

(** X20: a string that stands in the memory of the debuggee, its
    characters other than NUL followed by a NUL, and that is shorter than
    the maximum length (or read without one), is returned whole, the NUL
    with it. *)
Theorem ReadNulTerminatedString_reads (mem : Memory) address maximumLength s :
  Forall (fun b => byte_to_Z b <> 0) s ->
  (forall i b, s !! i = Some b -> mem !! (address + Z.of_nat i) = Some b) ->
  mem !! (address + Z.of_nat (length s)) = Some Byte.x00 ->
  maximumLength = 0 \/ Z.of_nat (length s) < maximumLength ->
  ReadNulTerminatedString mem address maximumLength = s ++ [Byte.x00].
Proof.
  intros Hnz Hmem Hend Hcap.
  apply (ReadNulTerminatedString_loop_reads (S (size mem)) mem address maximumLength s 0 []).
  - done.
  - intros i b Hi. rewrite Z.add_0_r. by apply Hmem.
  - by rewrite Z.add_0_r.
  - destruct Hcap as [->|Hlt]; [by left | right; lia].
  - apply ReadNulTerminatedString_eq.
Qed.

Lemma Contains_prefix (s find : cstring) :
  take (length find) s = find <-> exists suf, s = find ++ suf.
Proof.
  split.
  - intros Ht. exists (drop (length find) s). by rewrite <- Ht at 1; rewrite take_drop.
  - intros [suf ->]. by rewrite take_app_length.
Qed.

(** X21: [String::Contains] is true exactly when the string is some
    characters, then the string looked for, then some more characters; the
    empty string is contained in every string. *)
Theorem Contains_iff (s find : cstring) :
  Contains s find = true <-> exists pre suf, s = pre ++ find ++ suf.
Proof.
  induction s as [|c s IH]; cbn [Contains].
  - rewrite orb_false_r, bool_decide_eq_true, Contains_prefix. split.
    + intros [suf Hs]. by exists [], suf.
    + intros (pre & suf & Hs). symmetry in Hs.
      apply app_eq_nil in Hs as [-> Hs]. apply app_eq_nil in Hs as [-> ->]. by exists [].
  - rewrite orb_true_iff, bool_decide_eq_true, Contains_prefix, IH. split.
    + intros [[suf Hs]|(pre & suf & Hs)].
      * by exists [], suf.
      * exists (c :: pre), suf. by rewrite Hs.
    + intros (pre & suf & Hs). destruct pre as [|c' pre].
      * left. by exists suf.
      * right. injection Hs as -> Hs. by exists pre, suf.
Qed.

End RemoteStrings.



(** ** Structs in the file, there and back *)

Section Structs.
Context `{Platform}.
Import Packed BinaryLog Sink Player Notions Opened.

Lemma Z_to_byte_low b d :
  0 <= b < 256 -> Z_to_byte (b + 256 * d) = Z_to_byte b.
Proof.
  intros Hb. unfold Z_to_byte.
  replace ((b + 256 * d) mod 256) with (b mod 256); [done|].
  rewrite (Z.mul_comm 256 d), Z.mod_add by lia. done.
Qed.

Lemma le_encode_decode bs : le_encode (length bs) (le_decode bs) = bs.
Proof.
  induction bs as [|b bs IH]; [done|]. cbn [length le_decode le_encode].
  pose proof (byte_to_Z_range b) as Hb.
  rewrite Z_to_byte_low, Z_to_byte_to_Z by done. f_equal.
  rewrite Z.shiftr_div_pow2 by lia. change (2 ^ 8) with 256.
  replace ((byte_to_Z b + 256 * le_decode bs) / 256) with (le_decode bs); [done|].
  rewrite (Z.mul_comm 256), Z.div_add by lia.
  rewrite (Z.div_small (byte_to_Z b)) by lia. lia.
Qed.

Lemma to_int64_signed v : - 2 ^ 63 <= v < 2 ^ 63 -> to_int64 (v mod 2 ^ 64) = v.
Proof.
  intros Hv. unfold to_int64. destruct (Z.lt_ge_cases v 0) as [Hneg|Hpos].
  - replace (v mod 2 ^ 64) with (v + 2 ^ 64).
    + destruct (Z.ltb_spec (v + 2 ^ 64) (2 ^ 63)); lia.
    + symmetry. rewrite <- (Z.mod_add v 1) by lia. apply Z.mod_small. lia.
  - rewrite Z.mod_small by lia. destruct (Z.ltb_spec v (2 ^ 63)); lia.
Qed.

Lemma encode_app l1 l2 f1 f2 :
  length f1 = length l1 ->
  encode (l1 ++ l2) (f1 ++ f2) = encode l1 f1 ++ encode l2 f2.
Proof.
  revert f1. induction l1 as [|[n w] l1 IH]; intros f1 Hlen.
  - by destruct f1.
  - destruct f1 as [|v f1]; [done|]. cbn [app encode hd tl].
    rewrite IH by (cbn in Hlen; lia). by rewrite <- app_assoc.
Qed.

Lemma FileHeader_back h rest :
  length (FileHeader.Signature h) = 4%nat ->
  0 <= FileHeader.Version h < 2 ^ 32 ->
  0 <= FileHeader.ProcessId h < 2 ^ 32 ->
  0 <= FileHeader.ThreadId h < 2 ^ 32 ->
  0 <= FileHeader.PathLength h < 2 ^ 64 ->
  0 <= FileHeader.WorkingDirectoryLength h < 2 ^ 64 ->
  0 <= FileHeader.Arguments h < 2 ^ 64 ->
  - 2 ^ 63 <= FileHeader.StartTime h < 2 ^ 63 ->
  0 <= FileHeader.Crc32 h < 2 ^ 32 ->
  FileHeader.of_bytes (FileHeader.bytes h ++ rest) = h.
Proof.
  intros Hsig Hv Hp Ht Hpl Hwl Ha Hst Hc.
  unfold FileHeader.of_bytes, FileHeader.bytes.
  rewrite chars_encode, !get_encode.
  cbn [value widthof FileHeader.layout FileHeader.fields hd tl String.eqb Ascii.eqb Bool.eqb].
  rewrite <- Hsig at 1. rewrite le_encode_decode.
  rewrite to_int64_signed by lia.
  rewrite !Z.mod_small by lia. by destruct h.
Qed.

(** X22: a header read back from its bytes is the header that was
    written, when its members hold values of their types: four characters
    of signature, 32-bit version, ids and checksum, 64-bit lengths and
    count, and a signed 64-bit start time. *)
Theorem FileHeader_there_and_back h rest :
  length (FileHeader.Signature h) = 4%nat ->
  0 <= FileHeader.Version h < 2 ^ 32 ->
  0 <= FileHeader.ProcessId h < 2 ^ 32 ->
  0 <= FileHeader.ThreadId h < 2 ^ 32 ->
  0 <= FileHeader.PathLength h < 2 ^ 64 ->
  0 <= FileHeader.WorkingDirectoryLength h < 2 ^ 64 ->
  0 <= FileHeader.Arguments h < 2 ^ 64 ->
  - 2 ^ 63 <= FileHeader.StartTime h < 2 ^ 63 ->
  0 <= FileHeader.Crc32 h < 2 ^ 32 ->
  FileHeader.of_bytes (FileHeader.bytes h ++ rest) = h /\
  FileHeader.of_bytes (take (sizeof FileHeader.layout) (FileHeader.bytes h ++ rest)) = h.
Proof.
  intros Hsig Hv Hp Ht Hpl Hwl Ha Hst Hc.
  assert (Hback : forall rest', FileHeader.of_bytes (FileHeader.bytes h ++ rest') = h)
    by (intros rest'; by apply FileHeader_back).
  split; [apply Hback|].
  rewrite take_app_length' by (symmetry; apply encode_length).
  rewrite <- (app_nil_r (FileHeader.bytes h)). apply Hback.
Qed.

(** What the replayer makes of the bytes of a LoadDll entry. *)
Lemma DllLoadEventEntry_back now pi index base image_size path_size rest :
  - 2 ^ 63 <= now < 2 ^ 63 ->
  0 <= Windows.hProcess pi < 2 ^ 64 -> 0 <= Windows.hThread pi < 2 ^ 64 ->
  0 <= Windows.dwProcessId pi < 2 ^ 32 -> 0 <= Windows.dwThreadId pi < 2 ^ 32 ->
  - 2 ^ 63 <= index < 2 ^ 63 ->
  0 <= base < 2 ^ 64 -> 0 <= image_size < 2 ^ 64 -> 0 <= path_size < 2 ^ 64 ->
  let e := DllLoadEventEntry.make now pi index base image_size path_size in
  take 4 (DllLoadEventEntry.bytes e ++ rest) = ascii_bytes "EVNT" /\
  EventEntry.EventId
    (EventEntry.of_bytes (take (sizeof EventEntry.layout) (DllLoadEventEntry.bytes e ++ rest)))
  = LOAD_DLL_DEBUG_EVENT /\
  EventEntry.Time
    (EventEntry.of_bytes (take (sizeof EventEntry.layout) (DllLoadEventEntry.bytes e ++ rest)))
  = now /\
  take (sizeof DllLoadEventEntry.layout) (DllLoadEventEntry.bytes e ++ rest)
  = DllLoadEventEntry.bytes e /\
  DllLoadEventEntry.ModuleIndex (DllLoadEventEntry.of_bytes (DllLoadEventEntry.bytes e)) = index /\
  DllLoadEventEntry.ModuleBase (DllLoadEventEntry.of_bytes (DllLoadEventEntry.bytes e)) = base /\
  DllLoadEventEntry.ModuleSize (DllLoadEventEntry.of_bytes (DllLoadEventEntry.bytes e))
  = image_size /\
  DllLoadEventEntry.ModulePathSize (DllLoadEventEntry.of_bytes (DllLoadEventEntry.bytes e))
  = path_size /\
  EventEntryProcessInformation.to_PROCESS_INFORMATION
    (EventEntry.ProcessInformation
       (DllLoadEventEntry.base (DllLoadEventEntry.of_bytes (DllLoadEventEntry.bytes e))))
  = pi.
Proof.
  intros Hnow Hhp Hht Hpid Htid Hidx Hbase Hsize Hpath e.
  assert (Hsplit : DllLoadEventEntry.bytes e
                   = encode EventEntry.layout (EventEntry.fields (DllLoadEventEntry.base e))
                     ++ encode [("ModuleIndex", 8); ("ModuleBase", 8); ("ModuleSize", 8);
                                ("ModulePathSize", 8)]%nat
                          [index; base; image_size; path_size]).
  { unfold DllLoadEventEntry.bytes, DllLoadEventEntry.layout, DllLoadEventEntry.fields.
    by rewrite encode_app. }
  split; [|split; [|split; [|split]]].
  - rewrite Hsplit. done.
  - rewrite Hsplit, <- app_assoc, take_app_length' by (symmetry; apply encode_length).
    unfold EventEntry.of_bytes, EventEntry.of_bytes_with. cbn [EventEntry.EventId].
    by rewrite get_encode_nil.
  - rewrite Hsplit, <- app_assoc, take_app_length' by (symmetry; apply encode_length).
    unfold EventEntry.of_bytes, EventEntry.of_bytes_with. cbn [EventEntry.Time].
    rewrite get_encode_nil.
    cbn [value widthof EventEntry.layout EventEntry.fields app hd tl String.eqb Ascii.eqb
         Bool.eqb EventEntryProcessInformation.layout DllLoadEventEntry.base e
         DllLoadEventEntry.make EventEntry.make EventEntry.Time].
    by apply to_int64_signed.
  - by rewrite take_app_length' by (symmetry; apply encode_length).
  - unfold DllLoadEventEntry.of_bytes, DllLoadEventEntry.bytes.
    cbn [DllLoadEventEntry.ModuleIndex DllLoadEventEntry.ModuleBase DllLoadEventEntry.ModuleSize
         DllLoadEventEntry.ModulePathSize DllLoadEventEntry.base].
    unfold EventEntry.of_bytes_with. cbn [EventEntry.ProcessInformation].
    rewrite !get_encode_nil.
    cbn [value widthof EventEntry.layout EventEntry.fields app hd tl String.eqb Ascii.eqb
         Bool.eqb EventEntryProcessInformation.layout EventEntryProcessInformation.fields
         DllLoadEventEntry.layout DllLoadEventEntry.fields DllLoadEventEntry.base e
         DllLoadEventEntry.make EventEntry.make EventEntry.ProcessInformation
         DllLoadEventEntry.ModuleIndex DllLoadEventEntry.ModuleBase DllLoadEventEntry.ModuleSize
         DllLoadEventEntry.ModulePathSize
         EventEntryProcessInformation.of_PROCESS_INFORMATION
         EventEntryProcessInformation.hProcess EventEntryProcessInformation.hThread
         EventEntryProcessInformation.dwProcessId EventEntryProcessInformation.dwThreadId].
    rewrite to_int64_signed by lia.
    unfold EventEntryProcessInformation.to_PROCESS_INFORMATION.
    cbn [EventEntryProcessInformation.hProcess EventEntryProcessInformation.hThread
         EventEntryProcessInformation.dwProcessId EventEntryProcessInformation.dwThreadId].
    rewrite !Z.mod_small by lia. by destruct pi.
Qed.

Lemma EmitDllLoad_reads time frame path rest q :
  DllLoadEventEntry.ModulePathSize frame = Z.of_nat (length path) ->
  Z.of_nat (length path) < 2 ^ 63 ->
  (2 * length path <= SizeLeft q)%nat ->
  drop (m_Pos q) (m_Stream q) = wstring_bytes path ++ rest ->
  exists q',
    EmitDllLoad time frame q = Ok tt q' /\
    m_Pos q' = (m_Pos q + 2 * length path)%nat /\
    m_Crc32 q' = Crc32.Update (wstring_bytes path) (m_Crc32 q) /\
    Player.m_Modules q'
    = Load (Player.m_Modules q) path (DllLoadEventEntry.ModuleBase frame)
        (DllLoadEventEntry.ModuleSize frame) /\
    calls q'
    = calls q ++
      if m_ShouldFilter q && negb (filter_count q "load_dll") then []
      else fan_out (m_Handlers q)
             (OnDllLoad time {| ld_lpBaseOfDll := DllLoadEventEntry.ModuleBase frame |}
                (EventEntryProcessInformation.to_PROCESS_INFORMATION
                   (EventEntry.ProcessInformation (DllLoadEventEntry.base frame)))
                path
                (GetIndex_path
                   (Load (Player.m_Modules q) path (DllLoadEventEntry.ModuleBase frame)
                      (DllLoadEventEntry.ModuleSize frame)) path)
                (Load (Player.m_Modules q) path (DllLoadEventEntry.ModuleBase frame)
                   (DllLoadEventEntry.ModuleSize frame))).
Proof.
  intros Hsize Hsmall Hleft Hdrop.
  unfold EmitDllLoad. unfold bind at 1.
  unfold Read_wstring, Read_size. rewrite Hsize.
  assert (Hint : to_int64 (Z.of_nat (length path)) = Z.of_nat (length path)).
  { unfold to_int64. destruct (Z.ltb_spec (Z.of_nat (length path)) (2 ^ 63)); lia. }
  rewrite Hint.
  destruct (Z.eqb_spec (Z.of_nat (length path)) (-1)) as [|_]; [lia|].
  unfold bind at 1. unfold ret at 1.
  destruct (Z.ltb_spec (Z.of_nat (length path)) 0) as [|_]; [lia|].
  unfold bind at 1. rewrite Nat2Z.id.
  rewrite Read_checked by lia. unfold ret at 1.
  rewrite Hdrop, Nat.mul_comm, <- wstring_bytes_length, take_app_length, bytes_wstring_bytes.
  unfold bind, modify, get, emit, ret. cbn [ld_lpBaseOfDll].
  cbn [m_ShouldFilter Player.m_Modules with_Modules with_Crc32 with_pos].
  unfold filter_count. cbn [m_Filter with_Modules with_Crc32 with_pos].
  fold (filter_count q "load_dll").
  destruct (m_ShouldFilter q && negb (filter_count q "load_dll")); eexists; (split; [done|]);
    cbn [m_Pos m_Crc32 Player.m_Modules calls m_Handlers with_Modules with_Crc32 with_pos
         with_calls];
    rewrite ?app_nil_r, wstring_bytes_length; repeat split; lia.
Qed.

Lemma Next_reads_DllLoad now pi index base image_size path rest p :
  - 2 ^ 63 <= now < 2 ^ 63 ->
  0 <= Windows.hProcess pi < 2 ^ 64 -> 0 <= Windows.hThread pi < 2 ^ 64 ->
  0 <= Windows.dwProcessId pi < 2 ^ 32 -> 0 <= Windows.dwThreadId pi < 2 ^ 32 ->
  - 2 ^ 63 <= index < 2 ^ 63 ->
  0 <= base < 2 ^ 64 -> 0 <= image_size < 2 ^ 64 -> Z.of_nat (length path) < 2 ^ 63 ->
  m_StreamSize p = length (m_Stream p) ->
  drop (m_Pos p) (m_Stream p)
  = DllLoadEventEntry.bytes
      (DllLoadEventEntry.make now pi index base image_size (Z.of_nat (length path)))
    ++ wstring_bytes path ++ rest ->
  exists p',
    Next p = Ok true p' /\
    m_Pos p' = (m_Pos p + sizeof DllLoadEventEntry.layout + 2 * length path)%nat /\
    m_Crc32 p'
    = Crc32.Update
        (DllLoadEventEntry.bytes
           (DllLoadEventEntry.make now pi index base image_size (Z.of_nat (length path)))
         ++ wstring_bytes path) (m_Crc32 p) /\
    Player.m_Modules p' = Load (Player.m_Modules p) path base image_size /\
    calls p'
    = calls p ++
      if m_ShouldFilter p && negb (filter_count p "load_dll") then []
      else fan_out (m_Handlers p)
             (OnDllLoad now {| ld_lpBaseOfDll := base |} pi path
                (GetIndex_path (Load (Player.m_Modules p) path base image_size) path)
                (Load (Player.m_Modules p) path base image_size)).
Proof.
  intros Hnow Hhp Hht Hpid Htid Hidx Hbase Hsize Hpath Hss Hdrop.
  set (e := DllLoadEventEntry.make now pi index base image_size (Z.of_nat (length path))) in *.
  destruct (DllLoadEventEntry_back now pi index base image_size (Z.of_nat (length path))
              (wstring_bytes path ++ rest))
    as (Hsig & Hid & Htime & Htake & Hmi & Hmb & Hms & Hmp & Hpi); try done; try lia.
  fold e in Hsig, Hid, Htime, Htake, Hmi, Hmb, Hms, Hmp, Hpi.
  assert (H80 : sizeof DllLoadEventEntry.layout = 80%nat) by done.
  assert (H48 : sizeof EventEntry.layout = 48%nat) by done.
  assert (Hlen : (m_Pos p + (sizeof DllLoadEventEntry.layout + 2 * length path)
                  <= length (m_Stream p))%nat).
  { apply (f_equal length) in Hdrop.
    rewrite length_drop, !length_app, wstring_bytes_length in Hdrop.
    unfold DllLoadEventEntry.bytes in Hdrop. rewrite encode_length in Hdrop. lia. }
  unfold Next. unfold bind at 1. unfold get.
  destruct (Nat.ltb_spec (SizeLeft p) 4) as [Hlt|_];
    [unfold SizeLeft, Size, Pos in Hlt; lia|].
  unfold bind at 1. rewrite Read_unchecked by (unfold SizeLeft, Size, Pos; lia).
  rewrite Hdrop, Hsig. change (strnicmp_equal (ascii_bytes "EVNT") (ascii_bytes "EVNT") 4)
    with true. cbn [negb].
  unfold bind at 1. unfold seek_back at 1. unfold modify.
  unfold bind at 1. rewrite Read_unchecked
    by (unfold SizeLeft, Size, Pos; cbn [m_Pos m_StreamSize with_pos]; lia).
  cbn [m_Pos m_Stream with_pos].
  replace (m_Pos p + 4 - 4)%nat with (m_Pos p) by lia. rewrite Hdrop.
  unfold bind at 1. unfold seek_back at 1. unfold modify. cbn [m_Pos m_Stream with_pos].
  replace (m_Pos p + sizeof EventEntry.layout - sizeof EventEntry.layout)%nat
    with (m_Pos p) by lia.
  unfold bind at 1. unfold dispatch. rewrite Hid, Htime.
  unfold EXCEPTION_DEBUG_EVENT, CREATE_PROCESS_DEBUG_EVENT, CREATE_THREAD_DEBUG_EVENT,
    EXIT_PROCESS_DEBUG_EVENT, EXIT_THREAD_DEBUG_EVENT, LOAD_DLL_DEBUG_EVENT.
  cbn [Z.eqb Pos.eqb].
  unfold bind at 1. rewrite Read_checked
    by (unfold SizeLeft, Size, Pos; cbn [m_Pos m_StreamSize with_pos]; lia).
  cbn [m_Pos m_Stream m_Crc32 with_pos]. rewrite Hdrop, Htake.
  set (q := with_Crc32 _ _).
  destruct (EmitDllLoad_reads now (DllLoadEventEntry.of_bytes (DllLoadEventEntry.bytes e))
              path rest q) as (q' & Hemit & Hpos' & Hcrc' & Hmod' & Hcalls'); try done.
  - unfold q, SizeLeft, Size, Pos. cbn [m_Pos m_StreamSize with_pos with_Crc32]. lia.
  - unfold q. cbn [m_Pos m_Stream with_pos with_Crc32].
    rewrite <- drop_drop, Hdrop. unfold DllLoadEventEntry.bytes at 1.
    rewrite <- (encode_length DllLoadEventEntry.layout (DllLoadEventEntry.fields e)).
    by rewrite drop_app_length.
  - rewrite Hemit. exists q'. split; [done|].
    rewrite Hpos', Hcrc', Hmod', Hcalls', Hmb, Hms, Hpi. unfold q.
    cbn [m_Pos m_Crc32 Player.m_Modules calls m_Handlers m_ShouldFilter with_pos with_Crc32].
    unfold filter_count. cbn [m_Filter with_pos with_Crc32].
    split; [reflexivity|]. split; [symmetry; apply Update_app|]. split; reflexivity.
Qed.

(** X23: a LoadDll event written and replayed.  The sink appends the
    entry and the path to the file; [Next], at these bytes, reads exactly
    them, with the checksum, loads the module at the written base with the
    written size, and (unless the filter leaves the event out) calls the
    sinks, one call for each sink and in their order, with the clock
    reading of the writer, the process information, the base and the path
    that were written, and with the index the path has in the collection
    of the replayer. *)
Theorem DllLoad_there_and_back now t info pi path index collection image_size w :
  image_size = match GetModuleAtAddress collection (ld_lpBaseOfDll info) with
               | Some module => Modules.Size module
               | None => 0
               end ->
  - 2 ^ 63 <= now < 2 ^ 63 ->
  0 <= Windows.hProcess pi < 2 ^ 64 -> 0 <= Windows.hThread pi < 2 ^ 64 ->
  0 <= Windows.dwProcessId pi < 2 ^ 32 -> 0 <= Windows.dwThreadId pi < 2 ^ 32 ->
  - 2 ^ 63 <= index < 2 ^ 63 ->
  0 <= ld_lpBaseOfDll info < 2 ^ 64 -> 0 <= image_size < 2 ^ 64 ->
  Z.of_nat (length path) < 2 ^ 63 ->
  Writer.m_Pos w = length (Writer.m_Stream w) ->
  exists w' data,
    Writer.handle now (OnDllLoad t info pi path index collection) w = Some w' /\
    Writer.m_Stream w' = Writer.m_Stream w ++ data /\
    length data = (sizeof DllLoadEventEntry.layout + 2 * length path)%nat /\
    forall p rest,
      m_StreamSize p = length (m_Stream p) ->
      drop (m_Pos p) (m_Stream p) = data ++ rest ->
      exists p',
        Next p = Ok true p' /\
        m_Pos p' = (m_Pos p + length data)%nat /\
        m_Crc32 p' = Crc32.Update data (m_Crc32 p) /\
        Player.m_Modules p'
        = Load (Player.m_Modules p) path (ld_lpBaseOfDll info) image_size /\
        calls p'
        = calls p ++
          if m_ShouldFilter p && negb (filter_count p "load_dll") then []
          else map (fun handler =>
                      (handler,
                       OnDllLoad now info pi path
                         (GetIndex_path
                            (Load (Player.m_Modules p) path (ld_lpBaseOfDll info) image_size)
                            path)
                         (Load (Player.m_Modules p) path (ld_lpBaseOfDll info) image_size)))
                   (m_Handlers p).
Proof.
  intros Hsz Hnow Hhp Hht Hpid Htid Hidx Hbase Hsize Hpath Hpos.
  set (e := DllLoadEventEntry.make now pi index (ld_lpBaseOfDll info) image_size
              (Z.of_nat (length path))).
  exists (Writer.Write_wstring path false (Writer.Write (DllLoadEventEntry.bytes e) true w)),
         (DllLoadEventEntry.bytes e ++ wstring_bytes path).
  split; [|split; [|split]].
  - cbn [Writer.handle]. by rewrite <- Hsz.
  - unfold Writer.Write_wstring. case_bool_decide as Hempty.
    + subst path. cbn [wstring_bytes flat_map]. rewrite app_nil_r.
      unfold Writer.Write. cbn [Writer.m_Stream]. by rewrite Hpos, stream_write_end.
    + unfold Writer.Write. cbn [Writer.m_Stream Writer.m_Pos].
      rewrite Hpos, stream_write_end, <- length_app, stream_write_end.
      by rewrite <- app_assoc.
  - rewrite length_app, wstring_bytes_length. unfold DllLoadEventEntry.bytes.
    by rewrite encode_length.
  - intros p rest Hss Hdrop. rewrite <- app_assoc in Hdrop.
    destruct (Next_reads_DllLoad now pi index (ld_lpBaseOfDll info) image_size path rest p)
      as (p' & Hnext & Hp' & Hcrc & Hmod & Hcalls); try done.
    exists p'. split; [done|]. split.
    + rewrite Hp', length_app, wstring_bytes_length. unfold DllLoadEventEntry.bytes.
      rewrite encode_length. lia.
    + split; [done|]. split; [done|]. rewrite Hcalls. by destruct info.
Qed.

End Structs.

(** ** Strings *)

Section StringFacts.
Import StringUtil.
Context {char : Type} `{EqDecision char}.

Lemma find_None (s pattern : list char) :
  find s pattern = None ->
  forall j, take (length pattern) (drop j s) <> pattern.
Proof.
  induction s as [|c s IH]; cbn [find].
  - case_bool_decide as Hp; [done|]. intros _ j. by rewrite drop_nil.
  - case_bool_decide as Hp; [done|].
    destruct (find s pattern) as [i|] eqn:Hf; [done|]. intros _ [|j]; [done|].
    by apply IH.
Qed.

Lemma find_Some (s pattern : list char) : forall i,
  find s pattern = Some i ->
  take (length pattern) (drop i s) = pattern /\ (i <= length s)%nat /\
  forall j, (j < i)%nat -> take (length pattern) (drop j s) <> pattern.
Proof.
  induction s as [|c s IH]; intros i; cbn [find].
  - case_bool_decide as Hp; [|done]. intros [= <-]. split; [done|]. split; [done|]. lia.
  - case_bool_decide as Hp.
    + intros [= <-]. split; [done|]. split; [cbn; lia|]. lia.
    + destruct (find s pattern) as [i'|] eqn:Hf; [|done]. intros [= <-].
      destruct (IH i' eq_refl) as (Ht & Hle & Hmin).
      split; [done|]. split; [cbn; lia|].
      intros [|j] Hj; [done|]. apply Hmin. lia.
Qed.

Lemma occurs_split (s pattern : list char) i :
  take (length pattern) (drop i s) = pattern -> (i <= length s)%nat ->
  s = take i s ++ pattern ++ drop (i + length pattern) s.
Proof.
  intros Ht Hi. rewrite <- Ht at 1. rewrite <- drop_drop, take_drop, take_drop. done.
Qed.

(** X24: [String::Replace] puts [to] in the place of the first occurrence
    of [from], the one with nothing but the start of the string before it
    that holds [from], and leaves a string without an occurrence as it
    is. *)
Theorem Replace_first (str from to : list char) :
  (forall pre suf,
     str = pre ++ from ++ suf ->
     (forall j, (j < length pre)%nat -> take (length from) (drop j str) <> from) ->
     Replace str from to = pre ++ to ++ suf) /\
  ((forall j, take (length from) (drop j str) <> from) -> Replace str from to = str).
Proof.
  unfold Replace. split.
  - intros pre suf Hstr Hfirst.
    assert (Hat : take (length from) (drop (length pre) str) = from).
    { by rewrite Hstr, drop_app_length, take_app_length. }
    destruct (find str from) as [i|] eqn:Hf.
    + destruct (find_Some str from i Hf) as (Ht & Hle & Hmin).
      assert (i = length pre) as ->.
      { destruct (Nat.lt_trichotomy i (length pre)) as [Hlt|[Heq|Hgt]]; [|done|].
        - by destruct (Hfirst i Hlt).
        - by destruct (Hmin (length pre) Hgt). }
      unfold replace. rewrite Hstr at 1 2.
      rewrite take_app_length. do 2 f_equal.
      rewrite <- drop_drop, drop_app_length. by rewrite drop_app_length.
    + by destruct (find_None str from Hf (length pre)).
  - intros Hno. destruct (find str from) as [i|] eqn:Hf; [|done].
    destruct (find_Some str from i Hf) as (Ht & _). by destruct (Hno i).
Qed.

Lemma find_char_None (s : list char) c (to : list char) :
  find s [c] = None -> flat_map (fun x => if decide (x = c) then to else [x]) s = s.
Proof.
  induction s as [|x s IH]; [done|]. cbn [find length take flat_map].
  case_bool_decide as Hp; [done|].
  destruct (find s [c]) as [i|] eqn:Hf; [done|]. intros _.
  destruct (decide (x = c)) as [->|Hne].
  - by destruct Hp; destruct s.
  - cbn [app]. by rewrite IH.
Qed.

Lemma find_char_Some (s : list char) c (to : list char) : forall i,
  find s [c] = Some i ->
  exists r1 r2, s = r1 ++ c :: r2 /\ length r1 = i /\
                flat_map (fun x => if decide (x = c) then to else [x]) r1 = r1.
Proof.
  induction s as [|x s IH]; intros i; cbn [find length take].
  - by rewrite bool_decide_eq_false_2.
  - case_bool_decide as Hp.
    + intros [= <-]. exists [], s. split; [|done]. cbn [app]. f_equal.
      destruct s; by injection Hp.
    + destruct (find s [c]) as [i'|] eqn:Hf; [|done]. intros [= <-].
      destruct (IH i' eq_refl) as (r1 & r2 & -> & Hlen & Hflat).
      exists (x :: r1), r2. split; [done|]. split; [cbn; lia|].
      cbn [flat_map]. rewrite Hflat.
      destruct (decide (x = c)) as [->|]; [|done].
      destruct Hp. by destruct r1.
Qed.

Lemma ReplaceAll_loop_char c (to : list char) fuel : forall done_ remaining,
  (length remaining < fuel)%nat ->
  ReplaceAll_loop fuel (done_ ++ remaining) (length done_) [c] to
  = Some (done_ ++ flat_map (fun x => if decide (x = c) then to else [x]) remaining).
Proof.
  induction fuel as [|fuel IH]; intros done_ remaining Hfuel; [lia|].
  cbn [ReplaceAll_loop]. unfold find_at.
  rewrite length_app.
  destruct (Nat.leb_spec (length done_) (length done_ + length remaining)) as [_|]; [|lia].
  rewrite drop_app_length.
  destruct (find remaining [c]) as [i|] eqn:Hf; cbn [fmap option_fmap option_map].
  - destruct (find_char_Some remaining c to i Hf) as (r1 & r2 & -> & Hlen & Hflat).
    unfold replace. cbn [length].
    replace (take (length done_ + i) (done_ ++ r1 ++ c :: r2)) with (done_ ++ r1).
    2:{ rewrite app_assoc, <- Hlen, <- length_app. by rewrite take_app_length. }
    replace (drop (length done_ + i + 1) (done_ ++ r1 ++ c :: r2)) with r2.
    2:{ replace (done_ ++ r1 ++ c :: r2) with ((done_ ++ r1 ++ [c]) ++ r2)
          by (by rewrite <- !app_assoc).
        replace (length done_ + i + 1)%nat with (length (done_ ++ r1 ++ [c]))
          by (rewrite !length_app; cbn; lia).
        by rewrite drop_app_length. }
    replace (length done_ + i + length to)%nat with (length (done_ ++ r1 ++ to))
      by (rewrite !length_app; lia).
    replace ((done_ ++ r1) ++ to ++ r2) with ((done_ ++ r1 ++ to) ++ r2)
      by (by rewrite <- !app_assoc).
    rewrite IH by (rewrite length_app in Hfuel; cbn in Hfuel; lia).
    rewrite flat_map_app, Hflat. cbn [flat_map].
    destruct (decide (c = c)); [|done]. by rewrite <- !app_assoc.
  - by rewrite (find_char_None remaining c to Hf).
Qed.

Lemma ReplaceAll_char (str : list char) c (to : list char) :
  ReplaceAll str [c] to = flat_map (fun x => if decide (x = c) then to else [x]) str.
Proof.
  unfold ReplaceAll. rewrite bool_decide_eq_false_2 by done.
  pose proof (ReplaceAll_loop_char c to (S (length str)) [] str) as Hloop.
  cbn [app length] in Hloop. rewrite Hloop by lia. done.
Qed.

(** X25: [String::ReplaceAll] of a single character puts [to] in the
    place of every occurrence of the character and keeps every other
    character, also when [to] holds the character itself; with an empty
    [from] the string stays as it is. *)
Theorem ReplaceAll_of_char (str : list char) c (to : list char) :
  ReplaceAll str [c] to = flat_map (fun x => if decide (x = c) then to else [x]) str /\
  ReplaceAll str [] to = str.
Proof. split; [apply ReplaceAll_char | done]. Qed.

Lemma Join_from (separator : list char) l : forall a,
  a <> [] ->
  foldl (fun a b => a ++ (if (0 <? length a)%nat then separator else []) ++ b) a l
  = a ++ concat (map (fun b => separator ++ b) l).
Proof.
  induction l as [|b l IH]; intros a Ha; cbn [foldl map concat].
  - by rewrite app_nil_r.
  - rewrite IH.
    + destruct a as [|x a]; [done|]. cbn [length Nat.ltb Nat.leb].
      by rewrite <- !app_assoc.
    + by destruct a.
Qed.

(** X26: [String::Join] puts the separator between the strings, starting
    after the first string that is not empty: empty strings at the head of
    the list leave no trace, not even a separator. *)
Theorem Join_separates (separator : list char) a l :
  Join [] separator = [] /\
  Join ([] :: l) separator = Join l separator /\
  (a <> [] -> Join (a :: l) separator = a ++ concat (map (fun b => separator ++ b) l)).
Proof.
  split; [done|]. split; [done|]. intros Ha. unfold Join. cbn [foldl].
  cbn [app length Nat.ltb Nat.leb]. by apply Join_from.
Qed.

(** X27: [PadLeft] and [PadRight] fill a string up to [count] characters
    with [ch], on the left or on the right, and leave a string that is long
    enough as it is. *)
Theorem Pad_fills (input : list char) count ch :
  PadLeft input count ch = replicate (count - length input) ch ++ input /\
  PadRight input count ch = input ++ replicate (count - length input) ch /\
  length (PadLeft input count ch) = Nat.max (length input) count /\
  length (PadRight input count ch) = Nat.max (length input) count /\
  ((count <= length input)%nat ->
   PadLeft input count ch = input /\ PadRight input count ch = input).
Proof.
  unfold PadLeft, PadRight.
  destruct (Nat.leb_spec count (length input)) as [Hle|Hgt].
  - replace (count - length input)%nat with 0%nat by lia.
    cbn [replicate app]. rewrite app_nil_r. repeat split; lia.
  - rewrite !length_app, length_replicate. repeat split; lia.
Qed.

Variable isspace : char -> bool.

Lemma TrimLeft_split (s : list char) :
  exists l, s = l ++ TrimLeft isspace s /\ Forall (fun c => isspace c = true) l /\
            forall c, head (TrimLeft isspace s) = Some c -> isspace c = false.
Proof.
  induction s as [|c s (l & Hs & Hl & Hh)]; cbn [TrimLeft].
  - exists []. split; [done|]. split; [constructor | done].
  - destruct (isspace c) eqn:Hc.
    + exists (c :: l). split; [cbn; by f_equal|]. split; [by constructor | done].
    + exists []. split; [done|]. split; [constructor|]. by intros ? [= <-].
Qed.

Lemma TrimRight_snoc (s : list char) x :
  TrimRight isspace (s ++ [x]) = if isspace x then TrimRight isspace s else s ++ [x].
Proof.
  unfold TrimRight. rewrite rev_app_distr. cbn [rev app TrimLeft].
  destruct (isspace x); [done|]. cbn [rev]. by rewrite rev_involutive.
Qed.

Lemma TrimRight_split (s : list char) :
  exists r, s = TrimRight isspace s ++ r /\ Forall (fun c => isspace c = true) r /\
            forall c, last (TrimRight isspace s) = Some c -> isspace c = false.
Proof.
  induction s as [|x s (r & Hs & Hr & Hlast)] using rev_ind.
  - exists []. split; [done|]. split; [constructor | done].
  - rewrite TrimRight_snoc. destruct (isspace x) eqn:Hx.
    + exists (r ++ [x]). split; [by rewrite app_assoc, <- Hs|].
      split; [|done]. apply Forall_app. split; [done|]. by apply Forall_singleton.
    + exists []. split; [by rewrite app_nil_r|]. split; [constructor|].
      intros c. rewrite last_snoc. by intros [= <-].
Qed.

Lemma TrimRight_cons (c : char) (s : list char) :
  isspace c = false -> TrimRight isspace (c :: s) = c :: TrimRight isspace s.
Proof.
  intros Hc. induction s as [|x s IH] using rev_ind.
  - change [c] with ([] ++ [c]). rewrite TrimRight_snoc, Hc. done.
  - rewrite app_comm_cons, !TrimRight_snoc. by destruct (isspace x).
Qed.

Lemma TrimLeft_id (s : list char) :
  (forall c, head s = Some c -> isspace c = false) -> TrimLeft isspace s = s.
Proof.
  destruct s as [|c s]; [done|]. intros Hh. cbn [TrimLeft].
  by rewrite (Hh c eq_refl).
Qed.

Lemma TrimRight_id (s : list char) :
  (forall c, last s = Some c -> isspace c = false) -> TrimRight isspace s = s.
Proof.
  destruct s as [|x s _] using rev_ind; [done|]. intros Hl.
  rewrite TrimRight_snoc. by rewrite (Hl x) by apply last_snoc.
Qed.

(** X28: [String::Trim] takes white space off both ends and nothing else:
    the string is white space, then the result, then white space; the
    result does not start and does not end with white space; trimming it
    again changes nothing. *)
Theorem Trim_ends (s : list char) :
  (exists l r, s = l ++ Trim isspace s ++ r /\
               Forall (fun c => isspace c = true) l /\
               Forall (fun c => isspace c = true) r) /\
  (forall c, head (Trim isspace s) = Some c -> isspace c = false) /\
  (forall c, last (Trim isspace s) = Some c -> isspace c = false) /\
  Trim isspace (Trim isspace s) = Trim isspace s.
Proof.
  unfold Trim.
  destruct (TrimLeft_split s) as (l & Hs & Hl & Hh).
  destruct (TrimRight_split (TrimLeft isspace s)) as (r & Ht & Hr & Hlast).
  assert (Hhead : forall c, head (TrimRight isspace (TrimLeft isspace s)) = Some c ->
                            isspace c = false).
  { destruct (TrimLeft isspace s) as [|x t]; [done|].
    rewrite TrimRight_cons by (by apply Hh). by intros c [= <-]; apply Hh. }
  split; [|split; [done|split; [done|]]].
  - exists l, r. split; [|done]. rewrite Hs at 1. by rewrite Ht at 1.
  - rewrite (TrimLeft_id _ Hhead). by apply TrimRight_id.
Qed.

End StringFacts.

Section Arguments.
Import StringUtil.

(** X29: [Launcher::GetArgumentString] writes a backslash before every
    double quote of every argument and nothing else, and puts one space
    between the arguments, the first of them the path of the program. *)
Theorem GetArgumentString_escapes (path : cstring) (arguments : list cstring) :
  path <> [] ->
  GetArgumentString (path :: arguments)
  = flat_map (fun x => if decide (x = Byte.x22) then [Byte.x5c; Byte.x22] else [x]) path
    ++ concat (map (fun a =>
         ascii_bytes " " ++
         flat_map (fun x => if decide (x = Byte.x22) then [Byte.x5c; Byte.x22] else [x]) a)
         arguments).
Proof.
  intros Hp.
  assert (Hesc : ReplaceAll path [Byte.x22] [Byte.x5c; Byte.x22] <> []).
  { rewrite ReplaceAll_char. destruct path as [|x path]; [done|]. cbn [flat_map].
    by destruct (decide (x = Byte.x22)). }
  unfold GetArgumentString. cbn [map foldl]. cbn [app length Nat.ltb Nat.leb].
  etransitivity; [apply (Join_from (ascii_bytes " ")), Hesc|].
  rewrite ReplaceAll_char. f_equal. rewrite map_map. f_equal.
  apply map_ext. intros a. by rewrite ReplaceAll_char.
Qed.

End Arguments.

(** ** A session written and replayed *)

Section Sessions.
Context `{Platform}.
Import Packed BinaryLog Sink Player Notions Opened Replayed.

Lemma Write_appends data w :
  writing w ->
  Writer.m_Stream (Writer.Write data true w) = Writer.m_Stream w ++ data /\
  Writer.set_Crc32 (Writer.m_Header (Writer.Write data true w)) 0
  = Writer.set_Crc32 (Writer.m_Header w) 0.
Proof.
  intros (Hpos & _). unfold Writer.Write. cbn [Writer.m_Stream Writer.m_Header].
  by rewrite Hpos, stream_write_end.
Qed.

Lemma Write_string_plain s w :
  writing w ->
  Writer.m_Stream (Writer.Write_string s false w) = Writer.m_Stream w ++ s /\
  Writer.set_Crc32 (Writer.m_Header (Writer.Write_string s false w)) 0
  = Writer.set_Crc32 (Writer.m_Header w) 0.
Proof.
  intros Hw. unfold Writer.Write_string. case_bool_decide as Hs.
  - subst s. by rewrite app_nil_r.
  - by apply Write_appends.
Qed.

Lemma Write_string_prefixed s w :
  writing w -> s <> [] ->
  Writer.m_Stream (Writer.Write_string s true w) = Writer.m_Stream w ++ prefixed s /\
  Writer.set_Crc32 (Writer.m_Header (Writer.Write_string s true w)) 0
  = Writer.set_Crc32 (Writer.m_Header w) 0.
Proof.
  intros Hw Hs. unfold Writer.Write_string. case_bool_decide; [done|].
  destruct (Write_appends (le_encode 4 (Z.of_nat (length s))) w Hw) as [Hs1 Hh1].
  destruct (Write_appends s _ (Write_writing (le_encode 4 (Z.of_nat (length s))) w Hw))
    as [Hs2 Hh2].
  rewrite Hs2, Hs1, Hh2, Hh1. unfold prefixed. by rewrite <- app_assoc.
Qed.

Lemma Write_arguments arguments w :
  writing w -> Forall (fun s => s <> []) arguments ->
  Writer.m_Stream (foldl (fun w argument => Writer.Write_string argument true w) w arguments)
  = Writer.m_Stream w ++ concat (map prefixed arguments) /\
  Writer.set_Crc32
    (Writer.m_Header
       (foldl (fun w argument => Writer.Write_string argument true w) w arguments)) 0
  = Writer.set_Crc32 (Writer.m_Header w) 0.
Proof.
  intros Hw Hne. revert w Hw.
  induction Hne as [|s arguments Hs _ IH]; intros w Hw.
  - cbn [foldl map concat]. by rewrite app_nil_r.
  - cbn [foldl map concat].
    destruct (Write_string_prefixed s w Hw Hs) as [Hs1 Hh1].
    destruct (IH _ (Write_string_writing s true w Hw)) as [Hs2 Hh2].
    rewrite Hs2, Hh2, Hs1, Hh1. by rewrite <- app_assoc.
Qed.

(** The file of a session without events, when no argument of the
    program is empty. *)
Lemma session_file t0 pi t1 collection :
  Forall (fun s => s <> []) (Process.Arguments pi) ->
  let body := Process.Path pi ++ Process.WorkingDirectory pi
              ++ concat (map prefixed (Process.Arguments pi)) in
  log_of (session t0 pi [] t1 collection)
  = Some (FileHeader.bytes (Writer.set_Crc32 (first_header t0 pi) (Crc32.Update body 0))
          ++ body).
Proof.
  intros Hne body. unfold log_of, session. cbn [app Writer.run Writer.handle fmap option_fmap option_map].
  f_equal.
  pose proof (OnInitialization_writing t0 pi) as Hw.
  set (w := Writer.OnInitialization t0 pi Writer.new) in *.
  assert (Hw' : Writer.m_Stream w = FileHeader.bytes (first_header t0 pi) ++ body /\
                Writer.set_Crc32 (Writer.m_Header w) 0 = first_header t0 pi).
  { unfold w, Writer.OnInitialization.
    set (h := FileHeader.Build_t _ _ _ _ _ _ _ _ _).
    set (w0 := Writer.Build_Writer _ _ _).
    assert (Hw1 : writing (Writer.Write (FileHeader.bytes h) false w0)).
    { unfold writing, Writer.Write, w0, Writer.new. cbn [Writer.m_Stream Writer.m_Pos Writer.m_Header].
      unfold Writer.stream_write. cbn [take drop app].
      rewrite drop_nil, app_nil_r. repeat split. }
    pose proof (Write_string_writing (Process.Path pi) false _ Hw1) as Hw2.
    pose proof (Write_string_writing (Process.WorkingDirectory pi) false _ Hw2) as Hw3.
    destruct (Write_arguments (Process.Arguments pi) _ Hw3 Hne) as [Hs4 Hh4].
    destruct (Write_string_plain (Process.WorkingDirectory pi) _ Hw2) as [Hs3 Hh3].
    destruct (Write_string_plain (Process.Path pi) _ Hw1) as [Hs2 Hh2].
    rewrite Hs4, Hh4, Hs3, Hh3, Hs2, Hh2.
    unfold Writer.Write, w0, Writer.new. cbn [Writer.m_Stream Writer.m_Pos Writer.m_Header].
    unfold Writer.stream_write. cbn [take drop app]. rewrite drop_nil, app_nil_r.
    split; [|reflexivity]. unfold body. by rewrite <- !app_assoc. }
  destruct Hw' as [Hstream Hheader].
  destruct Hw as (Hpos & Hhead & Hver & Hcrc).
  assert (Hdrop : drop (sizeof FileHeader.layout)
                    (FileHeader.bytes (first_header t0 pi) ++ body) = body).
  { rewrite <- (FileHeader_bytes_length (first_header t0 pi)). apply drop_app_length. }
  rewrite Hstream, Hdrop in Hcrc.
  unfold Writer.OnModuleCollectionComplete, Writer.Write.
  cbn [Writer.m_Stream Writer.m_Pos Writer.m_Header].
  unfold Writer.stream_write.
  rewrite take_0, Nat.add_0_l, FileHeader_bytes_length, Hstream, Hdrop. cbn [app].
  f_equal. f_equal. rewrite <- Hheader, <- Hcrc.
  by destruct (Writer.m_Header w).
Qed.

Lemma read_past_app a b p : read_past b (read_past a p) = read_past (a ++ b) p.
Proof.
  unfold read_past. cbn [m_Crc32 m_Pos with_Crc32 with_pos].
  rewrite Update_app, length_app, Nat.add_assoc. reflexivity.
Qed.

Lemma read_past_nil p : read_past [] p = p.
Proof.
  destruct p. unfold read_past, with_Crc32, with_pos. cbn.
  by rewrite Update_nil, Nat.add_0_r.
Qed.

Lemma Read_data data rest p :
  m_StreamSize p = length (m_Stream p) ->
  drop (m_Pos p) (m_Stream p) = data ++ rest ->
  Read (length data) true p = Ok data (read_past data p) /\
  m_StreamSize (read_past data p) = length (m_Stream (read_past data p)) /\
  drop (m_Pos (read_past data p)) (m_Stream (read_past data p)) = rest.
Proof.
  intros Hsize Hdrop.
  assert (Hlen : (length data <= SizeLeft p)%nat).
  { apply (f_equal length) in Hdrop. rewrite length_drop, length_app in Hdrop.
    unfold SizeLeft, Size, Pos. lia. }
  split; [|split].
  - rewrite Read_checked by done.
    by rewrite Hdrop, take_app_length.
  - exact Hsize.
  - unfold read_past. cbn [m_Pos m_Stream with_Crc32 with_pos].
    by rewrite <- drop_drop, Hdrop, drop_app_length.
Qed.

Lemma Read_string_sized data rest p :
  Z.of_nat (length data) < 2 ^ 63 ->
  m_StreamSize p = length (m_Stream p) ->
  drop (m_Pos p) (m_Stream p) = data ++ rest ->
  Read_string (to_int64 (Z.of_nat (length data))) p = Ok data (read_past data p).
Proof.
  intros Hsmall Hsize Hdrop.
  unfold Read_string, Read_size, to_int64.
  destruct (Z.ltb_spec (Z.of_nat (length data)) (2 ^ 63)) as [_|]; [|lia].
  destruct (Z.eqb_spec (Z.of_nat (length data)) (-1)) as [|_]; [lia|].
  unfold bind at 1. unfold ret at 1.
  destruct (Z.ltb_spec (Z.of_nat (length data)) 0) as [|_]; [lia|].
  rewrite Nat2Z.id. by apply (Read_data data rest).
Qed.

Lemma Read_string_prefixed s rest p :
  Z.of_nat (length s) < 2 ^ 32 ->
  m_StreamSize p = length (m_Stream p) ->
  drop (m_Pos p) (m_Stream p) = prefixed s ++ rest ->
  Read_string (-1) p = Ok s (read_past (prefixed s) p).
Proof.
  intros Hsmall Hsize Hdrop. unfold prefixed in *. rewrite <- app_assoc in Hdrop.
  destruct (Read_data (le_encode 4 (Z.of_nat (length s))) (s ++ rest) p Hsize Hdrop)
    as (Hread & Hsize' & Hdrop').
  rewrite le_encode_length in Hread.
  unfold Read_string, Read_size. cbn [Z.eqb Pos.eqb Z.opp].
  unfold bind at 1. unfold bind at 1. rewrite Hread. unfold ret at 1.
  rewrite le_decode_encode_small by (change (2 ^ (8 * Z.of_nat 4)) with (2 ^ 32); lia).
  destruct (Z.ltb_spec (Z.of_nat (length s)) 0) as [|_]; [lia|].
  rewrite Nat2Z.id.
  destruct (Read_data s rest _ Hsize' Hdrop') as (Hread' & _).
  by rewrite Hread', read_past_app.
Qed.

Lemma Read_strings_prefixed arguments rest p :
  Forall (fun s => Z.of_nat (length s) < 2 ^ 32) arguments ->
  m_StreamSize p = length (m_Stream p) ->
  drop (m_Pos p) (m_Stream p) = concat (map prefixed arguments) ++ rest ->
  Read_strings (length arguments) p
  = Ok arguments (read_past (concat (map prefixed arguments)) p).
Proof.
  intros Hsmall. revert p.
  induction Hsmall as [|s arguments Hs _ IH]; intros p Hsize Hdrop.
  - cbn [length Read_strings map concat]. by rewrite read_past_nil.
  - cbn [length Read_strings map concat] in *. rewrite <- app_assoc in Hdrop.
    unfold bind at 1. rewrite (Read_string_prefixed s _ p Hs Hsize Hdrop).
    destruct (Read_data (prefixed s) _ p Hsize Hdrop) as (_ & Hsize' & Hdrop').
    unfold bind at 1. rewrite (IH _ Hsize' Hdrop'). unfold ret.
    by rewrite read_past_app.
Qed.

Lemma attach_fields handlers p :
  m_Stream (attach handlers p) = m_Stream p /\
  m_Pos (attach handlers p) = m_Pos p /\
  m_StreamSize (attach handlers p) = m_StreamSize p /\
  m_Header (attach handlers p) = m_Header p /\
  m_Crc32 (attach handlers p) = m_Crc32 p /\
  Player.m_Modules (attach handlers p) = Player.m_Modules p /\
  calls (attach handlers p) = calls p /\
  m_Handlers (attach handlers p) = m_Handlers p ++ handlers.
Proof.
  revert p. induction handlers as [|h handlers IH]; intros p.
  - cbn [attach foldl]. by rewrite app_nil_r.
  - change (attach (h :: handlers) p) with (attach handlers (AddHandler h p)).
    destruct (IH (AddHandler h p)) as (-> & -> & -> & -> & -> & -> & -> & ->).
    unfold AddHandler. cbn [m_Stream m_Pos m_StreamSize m_Header m_Crc32 Player.m_Modules calls
                             m_Handlers with_Handlers].
    by rewrite <- app_assoc.
Qed.

Lemma Next_at_end p : (SizeLeft p < 4)%nat -> Next p = Ok false p.
Proof.
  intros Hleft. unfold Next. unfold bind at 1. unfold get.
  by destruct (Nat.ltb_spec (SizeLeft p) 4) as [_|]; [|lia].
Qed.

(** X30: a session without events, written and replayed.  When no
    argument of the program is empty and each is shorter than 2^32
    characters, [Play] on the file of the session returns, at the end of
    the file, and has called every sink twice, first all of them in
    their order with [OnInitialization], the start time of the header and
    a process of the path, the working directory, the arguments and the
    ids that were written, its handles 0, then all of them in their order
    with [OnModuleCollectionComplete] and no module. *)
Theorem initialization_there_and_back t0 pi t1 collection file state handlers now :
  Forall (fun s => s <> []) (Process.Arguments pi) ->
  Forall (fun s => Z.of_nat (length s) < 2 ^ 32) (Process.Arguments pi) ->
  0 <= Process.dwProcessId pi < 2 ^ 32 -> 0 <= Process.dwThreadId pi < 2 ^ 32 ->
  - 2 ^ 63 <= t0 < 2 ^ 63 ->
  Z.of_nat (length (Process.Path pi)) < 2 ^ 63 ->
  Z.of_nat (length (Process.WorkingDirectory pi)) < 2 ^ 63 ->
  Z.of_nat (length (Process.Arguments pi)) < 2 ^ 64 ->
  log_of (session t0 pi [] t1 collection) = Some file ->
  exists p',
    Play now (attach handlers (opened file state)) = Ok tt p' /\
    calls p'
    = map (fun handler =>
             (handler,
              OnInitialization t0
                (Process.make {| Windows.hProcess := 0; Windows.hThread := 0;
                                 Windows.dwProcessId := Process.dwProcessId pi;
                                 Windows.dwThreadId := Process.dwThreadId pi |}
                   (Process.Path pi) (Process.WorkingDirectory pi) (Process.Arguments pi))))
          handlers
      ++ map (fun handler => (handler, OnModuleCollectionComplete now Modules.empty))
             handlers /\
    m_Pos p' = length file.
Proof.
  intros Hne Hs32 Hpid Htid Ht0 Hpath Hwd Hargs Hlog.
  pose proof (session_file t0 pi t1 collection Hne) as Hfile. cbv zeta in Hfile.
  set (argsb := concat (map prefixed (Process.Arguments pi))) in *.
  set (body := Process.Path pi ++ Process.WorkingDirectory pi ++ argsb) in *.
  set (h := Writer.set_Crc32 (first_header t0 pi) (Crc32.Update body 0)) in *.
  assert (file = FileHeader.bytes h ++ body) as -> by congruence.
  clear Hlog Hfile.
  destruct (attach_fields handlers (opened (FileHeader.bytes h ++ body) state))
    as (Hstream & Hpos & Hsize & Hhdr & Hcrc & Hmod & Hcalls & Hhs).
  set (p0 := attach handlers (opened (FileHeader.bytes h ++ body) state)) in *.
  cbn [opened m_Stream m_Pos m_StreamSize m_Header m_Crc32 Player.m_Modules calls m_Handlers app]
    in Hstream, Hpos, Hsize, Hhdr, Hcrc, Hmod, Hcalls, Hhs.
  assert (Hu : 0 <= Crc32.Update body 0 < 2 ^ 32).
  { apply Update_u32. unfold Crc32.u32. lia. }
  assert (Hh : m_Header p0 = h).
  { rewrite Hhdr.
    rewrite take_app_length' by (symmetry; apply encode_length).
    rewrite <- (app_nil_r (FileHeader.bytes h)).
    apply (FileHeader_back h []); unfold h;
      cbn [FileHeader.Signature FileHeader.Version FileHeader.ProcessId FileHeader.ThreadId
           FileHeader.PathLength FileHeader.WorkingDirectoryLength FileHeader.Arguments
           FileHeader.StartTime FileHeader.Crc32 Writer.set_Crc32 first_header FileHeader.init];
      first [reflexivity | lia | (vm_compute; split; [discriminate | reflexivity])]. }
  assert (Hbody : drop (m_Pos p0) (m_Stream p0) = body).
  { rewrite Hpos, Hstream, <- (FileHeader_bytes_length h). apply drop_app_length. }
  assert (Hsize0 : m_StreamSize p0 = length (m_Stream p0)) by (by rewrite Hsize, Hstream).
  rewrite Play_eq.
  unfold Play_events. unfold bind at 1. unfold get. rewrite Hh.
  change (FileHeader.PathLength h) with (Z.of_nat (length (Process.Path pi))).
  change (FileHeader.WorkingDirectoryLength h)
    with (Z.of_nat (length (Process.WorkingDirectory pi))).
  change (FileHeader.Arguments h) with (Z.of_nat (length (Process.Arguments pi))).
  change (FileHeader.StartTime h) with t0.
  change (FileHeader.ProcessId h) with (Process.dwProcessId pi).
  change (FileHeader.ThreadId h) with (Process.dwThreadId pi).
  destruct (Read_data (Process.Path pi) _ p0 Hsize0 Hbody) as (_ & Hsize1 & Hdrop1).
  unfold bind at 1.
  rewrite (Read_string_sized (Process.Path pi) _ p0 Hpath Hsize0 Hbody).
  set (p1 := read_past (Process.Path pi) p0) in *.
  destruct (Read_data (Process.WorkingDirectory pi) _ p1 Hsize1 Hdrop1) as (_ & Hsize2 & Hdrop2).
  unfold bind at 1.
  rewrite (Read_string_sized (Process.WorkingDirectory pi) _ p1 Hwd Hsize1 Hdrop1).
  set (p2 := read_past (Process.WorkingDirectory pi) p1) in *.
  rewrite <- (app_nil_r argsb) in Hdrop2.
  destruct (Read_data argsb _ p2 Hsize2 Hdrop2) as (_ & Hsize3 & Hdrop3).
  unfold bind at 1. rewrite Nat2Z.id.
  rewrite (Read_strings_prefixed (Process.Arguments pi) [] p2 Hs32 Hsize2 Hdrop2).
  fold argsb. set (p3 := read_past argsb p2) in *.
  unfold bind at 1. unfold emit at 1. unfold modify.
  assert (Hleft : forall cs, (SizeLeft (with_calls cs p3) < 4)%nat).
  { intros cs. apply (f_equal length) in Hdrop3. rewrite length_drop in Hdrop3.
    unfold SizeLeft, Size, Pos. cbn [m_Pos m_StreamSize with_calls] in *.
    cbn [length] in Hdrop3. lia. }
  unfold bind at 1. cbn [Next_loop]. unfold bind at 1.
  rewrite Next_at_end by apply Hleft. unfold ret at 1.
  unfold bind at 1. unfold get. unfold emit, modify.
  rewrite Play_check_eq.
  cbn [m_Header m_Crc32 m_Handlers Player.m_Modules calls m_Pos with_calls].
  assert (Hp3 : m_Header p3 = h /\ m_Crc32 p3 = Crc32.Update body 0 /\
                m_Handlers p3 = handlers /\ calls p3 = [] /\
                Player.m_Modules p3 = Modules.empty /\
                m_Pos p3 = length (FileHeader.bytes h ++ body)).
  { unfold p3, p2, p1, read_past.
    cbn [m_Header m_Crc32 m_Handlers Player.m_Modules calls m_Pos with_Crc32 with_pos].
    rewrite Hh, Hcrc, Hhs, Hcalls, Hmod, Hpos, <- !Update_app.
    repeat split. unfold body. rewrite !length_app, FileHeader_bytes_length. lia. }
  destruct Hp3 as (-> & -> & -> & -> & -> & Hpos3).
  change (FileHeader.Crc32 h) with (Crc32.Update body 0). rewrite Z.eqb_refl.
  eexists. split; [reflexivity|].
  cbn [calls m_Pos with_calls app]. split; [reflexivity | exact Hpos3].
Qed.

End Sessions.

(** ** The further properties at sample inputs *)

Import Samples Inputs.

Lemma one_module_file_sealed : Notions.sealed one_module_file.
Proof.
  exists (BinaryLog.FileHeader.of_bytes (take 52 one_module_file)), (drop 52 one_module_file).
  repeat split; vm_compute; reflexivity.
Qed.

Lemma step_is_eight_rounds_witness :
  Crc32.step Crc32.Default 0 Byte.x61
  = Crc32.table_rounds Crc32.polynomial_default 8 (Z.lxor 0 (byte_to_Z Byte.x61)).
Proof.
  apply (proj2 (step_is_eight_rounds Crc32.polynomial_default 0 Byte.x61 (Z.le_refl 0))).
Defined.

Lemma Update_in_parts_witness :
  Crc32.Update (ascii_bytes "ab" ++ ascii_bytes "c") 0
  = Crc32.Update (ascii_bytes "c") (Crc32.Update (ascii_bytes "ab") 0).
Proof.
  apply (Update_in_parts (ascii_bytes "ab") (ascii_bytes "c") 0).
  unfold Crc32.u32. lia.
Defined.

Lemma Update_tells_one_byte_witness :
  Crc32.Update ([] ++ Byte.x00 :: []) 0 <> Crc32.Update ([] ++ Byte.x01 :: []) 0.
Proof.
  apply (Update_tells_one_byte [] Byte.x00 Byte.x01 [] 0).
  - unfold Crc32.u32. lia.
  - discriminate.
Defined.

Lemma session_log_sealed_witness :
  Notions.sealed one_module_file /\ (52 <= length one_module_file)%nat.
Proof.
  apply (session_log_sealed 1700000000 app
           [ (1700000001,
              Sink.OnDllLoad 1700000001 {| ld_lpBaseOfDll := k_base |} pi0 k_dll 0 loaded);
             (1700000002, Sink.OnExitProcess 1700000002 {| ep_dwExitCode := 0 |} pi0 loaded) ]
           1700000003 loaded one_module_file).
  - repeat constructor.
  - vm_compute. reflexivity.
Defined.

Lemma new_accepts_sealed_witness :
  Player.new (Some one_module_file) checked = Player.Ok tt (Opened.opened one_module_file checked).
Proof.
  apply (new_accepts_sealed one_module_file checked one_module_file_sealed).
Defined.

Lemma new_rejects_changed_byte_witness :
  Player.new (Some one_module_tampered) checked
  = Player.Halt (Player.Throw Player.Damaged) (Opened.opened one_module_tampered checked).
Proof.
  apply (new_rejects_changed_byte one_module_file checked last_of_path Byte.x00 Byte.x01).
  - exact one_module_file_sealed.
  - reflexivity.
  - vm_compute. lia.
  - vm_compute. reflexivity.
  - discriminate.
Defined.

Lemma Play_within_file_witness :
  match Player.Play 1700000100 (Opened.attach [0%nat] (Opened.opened one_module_file checked)) with
  | Player.Ok _ p =>
      (Packed.sizeof BinaryLog.FileHeader.layout <= Player.m_Pos p <= length one_module_file)%nat /\
      Player.m_Crc32 p
      = Crc32.Update (take (Player.m_Pos p - Packed.sizeof BinaryLog.FileHeader.layout)
                           (drop (Packed.sizeof BinaryLog.FileHeader.layout) one_module_file)) 0 /\
      BinaryLog.FileHeader.Crc32
        (BinaryLog.FileHeader.of_bytes
           (take (Packed.sizeof BinaryLog.FileHeader.layout) one_module_file))
      = Player.m_Crc32 p
  | Player.Halt s p =>
      s <> Player.OutOfFuel /\
      (Player.BreakOnBreakpoints checked = false -> Player.BreakOnExceptions checked = false ->
       exists e, s = Player.Throw e)
  end.
Proof.
  apply (Play_within_file one_module_file checked [0%nat] 1700000100).
  vm_compute. lia.
Defined.

Lemma Play_sealed_read_through_witness :
  Player.Play 1700000100 (Opened.attach [0%nat] (Opened.opened one_module_file checked))
  = Player.Ok tt one_module_replayed.
Proof.
  apply (Play_sealed_read_through one_module_file checked [0%nat] 1700000100
           one_module_replayed one_module_file_sealed).
  - vm_compute. reflexivity.
  - vm_compute. reflexivity.
Defined.

Lemma EmitDllLoad_loads_first_witness :
  exists p',
    Player.EmitDllLoad 1700000001 load_entry at_path = Player.Ok tt p' /\
    Player.m_Modules p' = loaded /\
    Player.calls p'
    = [ (0%nat, Sink.OnDllLoad 1700000001 {| ld_lpBaseOfDll := k_base |}
                  {| Windows.hProcess := 0x100; Windows.hThread := 0x104;
                     Windows.dwProcessId := 0x1234; Windows.dwThreadId := 0x5678 |}
                  k_dll 0 loaded) ].
Proof.
  destruct (EmitDllLoad_loads_first 1700000001 load_entry at_path)
    as (p' & i & Hemit & _ & Hmod & _ & Hi & Hcalls).
  - vm_compute. split; [discriminate | reflexivity].
  - vm_compute. lia.
  - exists p'. split; [exact Hemit|]. split; [rewrite Hmod; vm_compute; reflexivity|].
    rewrite Hcalls. vm_compute in Hi. injection Hi as <-. vm_compute. reflexivity.
Defined.

Lemma built_consistent_witness : NoDup (m_Modules loaded).
Proof.
  apply (built_consistent loaded). apply built_Load, built_empty.
Defined.

Lemma index_stays_witness :
  m_ModuleIndexMap (Unload loaded k_base) !! k_dll = Some 0%nat.
Proof.
  apply (proj2 (index_stays loaded k_dll 0%nat eq_refl) k_base).
Defined.

Lemma Walk_without_recursion_witness :
  Trace.Walk Modules.empty true 2 0 [caller]
  = map (Trace.frame_entry Modules.empty true 0) [caller].
Proof.
  apply (Walk_without_recursion Modules.empty true 2 0 [caller]).
  repeat constructor. vm_compute. discriminate.
Defined.

Lemma ReadNulTerminatedString_shape_witness :
  Rtti.ReadNulTerminatedString (thrown 1) text 1024 = [] \/
  exists s,
    Rtti.ReadNulTerminatedString (thrown 1) text 1024 = s ++ [Byte.x00] /\
    Forall (fun b => byte_to_Z b <> 0) s /\
    (forall i b, s !! i = Some b -> thrown 1 !! (text + Z.of_nat i) = Some b) /\
    (0 < 1024 -> Z.of_nat (length s) <= 1024) /\
    (1024 = 0 \/ Z.of_nat (length s) < 1024 ->
     thrown 1 !! (text + Z.of_nat (length s)) = Some Byte.x00).
Proof.
  apply (ReadNulTerminatedString_shape (thrown 1) text 1024). lia.
Defined.

Lemma ReadNulTerminatedString_reads_witness :
  Rtti.ReadNulTerminatedString (thrown 1) text 1024 = ascii_bytes "boom" ++ [Byte.x00].
Proof.
  apply (ReadNulTerminatedString_reads (thrown 1) text 1024 (ascii_bytes "boom")).
  - repeat constructor; vm_compute; discriminate.
  - intros [|[|[|[|i]]]] b Hb; try discriminate; injection Hb as <-; vm_compute; reflexivity.
  - vm_compute. reflexivity.
  - right. vm_compute. reflexivity.
Defined.

Lemma FileHeader_there_and_back_witness :
  BinaryLog.FileHeader.of_bytes (BinaryLog.FileHeader.bytes header ++ ascii_bytes "C:\app.exe")
  = header.
Proof.
  apply (proj1 (FileHeader_there_and_back header (ascii_bytes "C:\app.exe")
                  eq_refl
                  ltac:(vm_compute; split; [discriminate | reflexivity])
                  ltac:(vm_compute; split; [discriminate | reflexivity])
                  ltac:(vm_compute; split; [discriminate | reflexivity])
                  ltac:(vm_compute; split; [discriminate | reflexivity])
                  ltac:(vm_compute; split; [discriminate | reflexivity])
                  ltac:(vm_compute; split; [discriminate | reflexivity])
                  ltac:(vm_compute; split; [discriminate | reflexivity])
                  ltac:(vm_compute; split; [discriminate | reflexivity]))).
Defined.

Lemma DllLoad_there_and_back_witness :
  exists p',
    Player.Next at_entry = Player.Ok true p' /\
    Player.calls p'
    = [ (0%nat, Sink.OnDllLoad 1700000001 {| ld_lpBaseOfDll := k_base |} pi0 k_dll 0 loaded) ].
Proof.
  destruct (DllLoad_there_and_back 1700000001 1700000001 {| ld_lpBaseOfDll := k_base |}
              pi0 k_dll 0 loaded 0x10000 Writer.new)
    as (w' & data & Hw & Hs & _ & Hnext);
    try (vm_compute; first [reflexivity | split; [discriminate | reflexivity]]).
  vm_compute in Hw. injection Hw as <-. vm_compute in Hs. subst data.
  destruct (Hnext at_entry
              (drop (Packed.sizeof BinaryLog.FileHeader.layout + length (Process.Path app)
                     + Packed.sizeof BinaryLog.DllLoadEventEntry.layout + 2 * length k_dll)
                    one_module_file))
    as (p' & Hn & _ & _ & _ & Hcalls).
  - reflexivity.
  - vm_compute. reflexivity.
  - exists p'. split; [exact Hn|]. rewrite Hcalls. vm_compute. reflexivity.
Defined.

Lemma GetArgumentString_escapes_witness :
  StringUtil.GetArgumentString [ascii_bytes "C:\app.exe"; [Byte.x22]]
  = ascii_bytes "C:\app.exe" ++ ascii_bytes " " ++ [Byte.x5c; Byte.x22].
Proof.
  rewrite (GetArgumentString_escapes (ascii_bytes "C:\app.exe") [[Byte.x22]]).
  - vm_compute. reflexivity.
  - discriminate.
Defined.

Lemma initialization_there_and_back_witness :
  exists p',
    Player.Play 1700000100 (Opened.attach [0%nat] (Opened.opened verbose_file checked))
    = Player.Ok tt p' /\
    Player.calls p'
    = [ (0%nat,
         Sink.OnInitialization 1700000000
           (Process.make {| Windows.hProcess := 0; Windows.hThread := 0;
                            Windows.dwProcessId := 0x1234; Windows.dwThreadId := 0x5678 |}
              (ascii_bytes "C:\app.exe") (ascii_bytes "C:\work")
              [ascii_bytes "-v"; ascii_bytes "log.txt"]));
        (0%nat, Sink.OnModuleCollectionComplete 1700000100 Modules.empty) ] /\
    Player.m_Pos p' = length verbose_file.
Proof.
  apply (initialization_there_and_back 1700000000 app_verbose 1700000003 Modules.empty
           verbose_file checked [0%nat] 1700000100).
  - repeat constructor; discriminate.
  - repeat constructor; vm_compute; reflexivity.
  - vm_compute. split; [discriminate | reflexivity].
  - vm_compute. split; [discriminate | reflexivity].
  - vm_compute. split; [discriminate | reflexivity].
  - vm_compute. reflexivity.
  - vm_compute. reflexivity.
  - vm_compute. reflexivity.
  - vm_compute. reflexivity.
Defined.
